(** * KubeClipper node-provisioning core: registry reconciliation,
      component step generation, trust-store rendering and teardown.

    Shallow embedding of
      - pkg/apis/core/v1/cri_utils.go
      - pkg/scheme/core/v1/cri/containerd.go
      - the calico component of package cni
      - pkg/scheme/core/v1/k8s/utils.go
    Go strings are byte strings ([string], one [ascii] per byte); slices are
    lists, with the sharing of a backing array written out where the code
    relies on it; a Go panic is an explicit outcome. *)

From Stdlib Require Import ZArith Lia Bool.
From Stdlib Require String Ascii OrderedTypeEx.
From stdpp Require Import base option list sorting gmap strings.

Local Open Scope Z_scope.
Local Open Scope nat_scope.

(** ** Go runtime and standard library pieces used by the sources *)

Module Go.

(** Outcome of a call that may panic. *)
Inductive outcome (A : Type) : Type :=
| Returned (a : A)
| Panic (msg : string).
Arguments Returned {A} a.
Arguments Panic {A} msg.

(** [strings.Compare]: -1, 0 or +1 by lexicographic byte order. *)
Definition stringsCompare (a b : string) : Z :=
  match String.compare a b with
  | Lt => (-1)%Z
  | Eq => 0%Z
  | Gt => 1%Z
  end.

(** The loop of [sort.Find]: invariant cmp(i-1) > 0 and cmp(j) <= 0.
    The interval halves at every turn, so [fuel = n] turns are enough. *)
Fixpoint findLoop (fuel : nat) (cmp : nat -> Z) (i j : nat) : nat :=
  match fuel with
  | O => i
  | S fuel' =>
      if i <? j then
        let h := (i + j) / 2 in
        if (0 <? cmp h)%Z then findLoop fuel' cmp (h + 1) j
        else findLoop fuel' cmp i h
      else i
  end.

(** [sort.Find(n, cmp)]: smallest index with [cmp <= 0] and whether [cmp]
    is 0 there. *)
Definition sortFind (n : nat) (cmp : nat -> Z) : nat * bool :=
  let i := findLoop n cmp 0 n in
  (i, (i <? n) && (cmp i =? 0)%Z).

(** [sort.Strings]: the ascending rearrangement of the slice. *)
Fixpoint insertString (x : string) (l : list string) : list string :=
  match l with
  | [] => [x]
  | y :: l' => if String.leb x y then x :: l else y :: insertString x l'
  end.

Definition sortStrings (l : list string) : list string :=
  foldr insertString [] l.

(** [append(s[:idx+1], s[idx:]...)] followed by [s[idx] = x], for
    [idx < len(s)]: the tail is shifted by one and slot [idx] overwritten. *)
Definition shiftInsert {A} (s : list A) (idx : nat) (x : A) : list A :=
  <[idx := x]> (take (idx + 1) s ++ drop idx s).

(** The byte value of a character. *)
Definition byteOf (c : Ascii.ascii) : N := Ascii.N_of_ascii c.

Definition inRange (lo hi : N) (c : Ascii.ascii) : bool :=
  (lo <=? byteOf c)%N && (byteOf c <=? hi)%N.

(** Whether the string starts with [n] continuation bytes, the first of
    them within [lo, hi]. *)
Definition contBytes (lo hi : N) (n : nat) (s : string) : bool :=
  match n, s with
  | 1, String c1 _ => inRange lo hi c1
  | 2, String c1 (String c2 _) => inRange lo hi c1 && inRange 0x80 0xBF c2
  | 3, String c1 (String c2 (String c3 _)) =>
      inRange lo hi c1 && inRange 0x80 0xBF c2 && inRange 0x80 0xBF c3
  | _, _ => false
  end.

(** The width of [utf8.DecodeRuneInString]: the length of the encoding at
    the head of the string, 1 for a byte that starts no valid encoding
    and 0 for the empty string. *)
Definition runeSize (s : string) : nat :=
  match s with
  | EmptyString => 0
  | String c0 rest =>
      let b := byteOf c0 in
      if (b <? 0x80)%N then 1
      else if (b <? 0xC2)%N then 1
      else if (b <? 0xE0)%N then (if contBytes 0x80 0xBF 1 rest then 2 else 1)
      else if (b =? 0xE0)%N then (if contBytes 0xA0 0xBF 2 rest then 3 else 1)
      else if (b =? 0xED)%N then (if contBytes 0x80 0x9F 2 rest then 3 else 1)
      else if (b <? 0xF0)%N then (if contBytes 0x80 0xBF 2 rest then 3 else 1)
      else if (b =? 0xF0)%N then (if contBytes 0x90 0xBF 3 rest then 4 else 1)
      else if (b <? 0xF4)%N then (if contBytes 0x80 0xBF 3 rest then 4 else 1)
      else if (b =? 0xF4)%N then (if contBytes 0x80 0x8F 3 rest then 4 else 1)
      else 1
  end.

(** [strings.Split(s, "")]: one element per UTF-8 sequence.  [pending]
    counts the bytes still owed to the sequence collected in [cur]. *)
Fixpoint splitRunes (s : string) (pending : nat) (cur : string)
  : list string :=
  match s with
  | EmptyString => match cur with EmptyString => [] | _ => [cur] end
  | String c rest =>
      let need := match pending with O => runeSize s | S _ => pending end in
      match need with
      | S (S k) => splitRunes rest (S k) (cur +:+ String c EmptyString)
      | _ => (cur +:+ String c EmptyString) :: splitRunes rest 0 EmptyString
      end
  end.

Definition stringsSplitEmpty (s : string) : list string :=
  splitRunes s 0 EmptyString.

(** [strings.Join(elems, "")]. *)
Definition stringsJoin (elems : list string) : string :=
  String.concat EmptyString elems.

(** The slice expression [a[0:n]] on a slice whose capacity is its
    length. *)
Definition sliceTo {A} (a : list A) (n : nat) : outcome (list A) :=
  if length a <? n then Panic "slice bounds out of range"
  else Returned (take n a).

Fixpoint isPrefix (p s : string) : bool :=
  match p, s with
  | EmptyString, _ => true
  | String a p', String b s' => Ascii.eqb a b && isPrefix p' s'
  | String _ _, EmptyString => false
  end.

(** [strings.ReplaceAll(s, old, new)] for a non-empty [old]: the
    occurrences are taken from the left and do not overlap.  [skip]
    counts the bytes of an occurrence still to pass over. *)
Fixpoint replaceFrom (old new s : string) (skip : nat) : string :=
  match s with
  | EmptyString => EmptyString
  | String c rest =>
      match skip with
      | S k => replaceFrom old new rest k
      | O =>
          if isPrefix old s
          then new +:+ replaceFrom old new rest (String.length old - 1)
          else String c (replaceFrom old new rest 0)
      end
  end.

Definition stringsReplaceAll (s old new : string) : string :=
  replaceFrom old new s 0.

(** [strings.Contains]. *)
Fixpoint stringsContains (s sub : string) : bool :=
  isPrefix sub s ||
  match s with
  | EmptyString => false
  | String _ rest => stringsContains rest sub
  end.

(** [strings.Join(elems, sep)]. *)
Definition stringsJoinSep (elems : list string) (sep : string) : string :=
  String.concat sep elems.

(** The bytes of a string. *)
Definition bytesOf (s : string) : list N :=
  byteOf <$> String.list_ascii_of_string s.

(** [unicode.IsSpace] on one UTF-8 sequence: the ASCII white space,
    U+0085, U+00A0, U+1680, U+2000..U+200A, U+2028, U+2029, U+202F, U+205F
    and U+3000. *)
Definition isSpaceRune (r : string) : bool :=
  match bytesOf r with
  | [b] => ((9 <=? b) && (b <=? 13) || (b =? 32))%N
  | [0xC2; b] => ((b =? 0x85) || (b =? 0xA0))%N
  | [0xE1; 0x9A; 0x80] => true
  | [0xE2; 0x80; b] =>
      ((0x80 <=? b) && (b <=? 0x8A) || (b =? 0xA8) || (b =? 0xA9) ||
       (b =? 0xAF))%N
  | [0xE2; 0x81; 0x9F] => true
  | [0xE3; 0x80; 0x80] => true
  | _ => false
  end%N.

(** [strings.Fields]: the maximal runs of characters that are not white
    space.  [cur] is the field being collected. *)
Fixpoint fieldsOf (runes : list string) (cur : option string) : list string :=
  match runes with
  | [] => option_list cur
  | r :: rest =>
      if isSpaceRune r then option_list cur ++ fieldsOf rest None
      else fieldsOf rest (Some (default EmptyString cur +:+ r))
  end.

Definition stringsFields (s : string) : list string :=
  fieldsOf (stringsSplitEmpty s) None.

(** *** The fragment of package regexp the sources use

    A pattern is a sequence of literals, lazy [.*?] and greedy
    one-or-more of a Perl class.  Matching is leftmost-first: the match a
    backtracking search finds first.  Patterns are matched byte by byte;
    every literal of the sources is ASCII, so the matches are those of
    matching by UTF-8 sequence. *)
Inductive charClass : Type :=
| Space       (* \s: [\t\n\f\r ] *)
| NonSpace.   (* \S *)

Inductive reItem : Type :=
| Lit (l : string)
| AnyLazy                  (* .*? *)
| Plus (cls : charClass).  (* cls+ *)

Definition regexp : Type := list reItem.

Definition isSpaceByte (c : Ascii.ascii) : bool :=
  let b := byteOf c in
  ((b =? 9) || (b =? 10) || (b =? 12) || (b =? 13) || (b =? 32))%N.

Definition inClass (cls : charClass) (c : Ascii.ascii) : bool :=
  match cls with
  | Space => isSpaceByte c
  | NonSpace => negb (isSpaceByte c)
  end.

(** What [.] matches: any character but the newline. *)
Definition isDot (c : Ascii.ascii) : bool := negb (byteOf c =? 10)%N.

(** The rest of [s] after the prefix [p]. *)
Fixpoint stripPrefix (p s : string) : option string :=
  match p, s with
  | EmptyString, _ => Some s
  | String a p', String b s' =>
      if Ascii.eqb a b then stripPrefix p' s' else None
  | String _ _, EmptyString => None
  end.

(** [.*?] before the continuation [k]: the shortest stretch after which
    [k] matches. *)
Fixpoint lazyAny (k : string -> option nat) (s : string) : option nat :=
  match k s with
  | Some n => Some n
  | None =>
      match s with
      | String c s' => if isDot c then S <$> lazyAny k s' else None
      | EmptyString => None
      end
  end.

(** [cls+] before the continuation [k]: the longest stretch after which
    [k] matches. *)
Fixpoint greedyPlus (cls : charClass) (k : string -> option nat) (s : string)
  : option nat :=
  match s with
  | String c s' =>
      if inClass cls c then
        match greedyPlus cls k s' with
        | Some n => Some (S n)
        | None => S <$> k s'
        end
      else None
  | EmptyString => None
  end.

(** The length of the match of the pattern at the head of the string that
    a backtracking search finds first. *)
Fixpoint matchHere (re : regexp) : string -> option nat :=
  match re with
  | [] => fun _ => Some 0
  | Lit l :: rest =>
      fun s =>
        match stripPrefix l s with
        | Some s' => (fun n => String.length l + n) <$> matchHere rest s'
        | None => None
        end
  | AnyLazy :: rest => lazyAny (matchHere rest)
  | Plus cls :: rest => greedyPlus cls (matchHere rest)
  end.

Fixpoint takeString (n : nat) (s : string) : string :=
  match n, s with
  | S n', String c s' => String c (takeString n' s')
  | _, _ => EmptyString
  end.

(** [Regexp.FindAllString(s, -1)]: the successive matches, each searched
    from the end of the one before.  [skip] counts the characters of the
    last match still to pass over. *)
Fixpoint findAllFrom (re : regexp) (s : string) (skip : nat) : list string :=
  match skip with
  | S k =>
      match s with
      | String _ s' => findAllFrom re s' k
      | EmptyString => []
      end
  | O =>
      match matchHere re s with
      | Some n =>
          takeString n s ::
          match s with
          | String _ s' => findAllFrom re s' (n - 1)
          | EmptyString => []
          end
      | None =>
          match s with
          | String _ s' => findAllFrom re s' 0
          | EmptyString => []
          end
      end
  end.

Definition FindAllString (re : regexp) (s : string) : list string :=
  findAllFrom re s 0.

Definition digitOf (c : Ascii.ascii) : option Z :=
  if inRange 48 57 c then Some (Z.of_N (byteOf c) - 48)%Z else None.

Fixpoint parseDigits (s : string) (acc : Z) : option Z :=
  match s with
  | EmptyString => Some acc
  | String c rest =>
      match digitOf c with
      | Some d => parseDigits rest (acc * 10 + d)%Z
      | None => None
      end
  end.

Definition maxInt : Z := (2 ^ 63 - 1)%Z.
Definition minInt : Z := (- 2 ^ 63)%Z.

(** [strconv.Atoi] with a 64-bit [int]: the value and whether the error
    is nil.  A syntax error gives 0, a range error the nearest bound. *)
Definition Atoi (s : string) : Z * bool :=
  let '(neg, digits) :=
    match s with
    | String c rest =>
        if (byteOf c =? 45)%N then (true, rest)         (* '-' *)
        else if (byteOf c =? 43)%N then (false, rest)   (* '+' *)
        else (false, s)
    | EmptyString => (false, s)
    end in
  match digits with
  | EmptyString => (0%Z, false)
  | _ =>
      match parseDigits digits 0 with
      | None => (0%Z, false)
      | Some n =>
          let v := if neg then (- n)%Z else n in
          if (maxInt <? v)%Z then (maxInt, false)
          else if (v <? minInt)%Z then (minInt, false)
          else (v, true)
      end
  end.

End Go.

(** ** Registry model (pkg/scheme/core/v1) *)

(** A heap address; Go compares pointers by address. *)
Definition addr := positive.

(** Modelled from the spec: the declaration of [v1.RegistrySpec] is not among
    the sources.  Section 3 of the specification gives its fields; the code
    compares values with [!=], converts [CA] with [[]byte(r.CA)] and tests
    [RegistryAuth] against [nil], so [CA] is a string and [RegistryAuth] a
    pointer. *)
Record RegistrySpec : Type := mkRegistrySpec {
  Scheme : string;
  Host : string;
  SkipVerify : bool;
  CA : string;
  RegistryAuth : option addr
}.

Global Instance RegistrySpec_eq_dec : EqDecision RegistrySpec.
Proof. solve_decision. Defined.

(** An entry of [cluster.ContainerRuntime.Registries]: a literal insecure
    host or a reference ([*string]) to a named registry object. *)
Record CRIRegistry : Type := mkCRIRegistry {
  InsecureRegistry : string;
  RegistryRef : option string
}.

Global Instance CRIRegistry_eq_dec : EqDecision CRIRegistry.
Proof. solve_decision. Defined.

Record Node : Type := mkNode { NodeID : string }.

Record Cluster : Type := mkCluster {
  Name : string;
  CRInsecureRegistry : list string;   (* ContainerRuntime.InsecureRegistry *)
  CRRegistries : list CRIRegistry;    (* ContainerRuntime.Registries *)
  Addons : list string;               (* Addons[i].Config.Raw *)
  StatusRegistries : list RegistrySpec (* Status.Registries *)
}.

Definition setCRRegistries (c : Cluster) (l : list CRIRegistry) : Cluster :=
  {| Name := Name c;
     CRInsecureRegistry := CRInsecureRegistry c;
     CRRegistries := l;
     Addons := Addons c;
     StatusRegistries := StatusRegistries c |}.

(** Errors of the cluster store. *)
Inductive storeError : Type :=
| NotFound
| OtherError (msg : string).

(** Errors returned by the handler functions. *)
Inductive handlerError : Type :=
| ErrGetRegistry (ref : string) (cause : storeError)  (* "get registry %s:%w" *)
| ErrList.                                            (* "list" *)

(** [apimachineryErrors.IsNotFound]. *)
Definition IsNotFound (e : storeError) : bool :=
  match e with NotFound => true | OtherError _ => false end.

(** [v1.Step] and [v1.Command], with the fields the sources fill in. *)
Inductive StepAction : Type := ActionInstall | ActionUninstall | ActionUpgrade.

Inductive CommandType : Type := CommandShell | CommandCustom.

Record Command : Type := mkCommand {
  CmdType : CommandType;
  ShellCommand : list string;
  CustomCommand : string;
  Identity : string
}.

Record StepNode : Type := mkStepNode { StepNodeID : string }.

Record Step : Type := mkStep {
  ID : string;
  StepName : string;
  Timeout : Z;             (* nanoseconds *)
  ErrIgnore : bool;
  RetryTimes : Z;
  Nodes : list StepNode;
  Action : StepAction;
  Commands : list Command
}.

(** The collaborators of the handler: the cluster operator (registry
    lookup and node discovery), the JSON decoder applied to an addon's
    configuration, and the step constructor of the cluster controller. *)
Record handler : Type := mkHandler {
  GetRegistry : string -> RegistrySpec + storeError;
  ListNodes : string -> list Node + storeError;
  (* json.Unmarshal into struct{ImageRepoMirror string}: None on error *)
  unmarshalMirror : string -> option string;
  CRIRegistryUpdateStep :
    Cluster -> list RegistrySpec -> list Node -> Step + handlerError
}.

(** The identity key of an entry: [r.Scheme + r.Host]. *)
Definition regKey (r : RegistrySpec) : string := Scheme r +:+ Host r.

(** [s[i].Scheme + s[i].Host]; the binary search only reads indices below
    [len(s)]. *)
Definition keyAt (s : list RegistrySpec) (i : nat) : string :=
  match s !! i with
  | Some r => regKey r
  | None => ""
  end.

(** One turn of the loop of [appendUniqueRegistry]. *)
Definition appendUnique1 (s : list RegistrySpec) (r : RegistrySpec)
  : list RegistrySpec :=
  let key := regKey r in
  let '(idx, ok) :=
    Go.sortFind (length s) (fun i => Go.stringsCompare key (keyAt s i)) in
  if ok then s
  else if idx =? length s then s ++ [r]
  else Go.shiftInsert s idx r.

Definition appendUniqueRegistry (s : list RegistrySpec)
  (items : list RegistrySpec) : list RegistrySpec :=
  foldl appendUnique1 s items.

(** The same ordered insert on the host list, for an addon's mirror. *)
Definition insertMirror (l : list string) (m : string) : list string :=
  let '(idx, ok) :=
    Go.sortFind (length l)
      (fun i => Go.stringsCompare m (default "" (l !! i))) in
  if ok then l
  else if idx =? length l then l ++ [m]
  else Go.shiftInsert l idx m.

Definition httpSpec (host : string) : RegistrySpec :=
  {| Scheme := "http"; Host := host; SkipVerify := false; CA := "";
     RegistryAuth := None |}.

Definition httpsSkipSpec (host : string) : RegistrySpec :=
  {| Scheme := "https"; Host := host; SkipVerify := true; CA := "";
     RegistryAuth := None |}.

(** State of the second loop of [getClusterCRIRegistries]: the backing
    array shared by [c.ContainerRuntime.Registries] and [validRegistries],
    the length of [validRegistries], and the merged set. *)
Record loopState : Type := mkLoopState {
  backing : list CRIRegistry;
  validLen : nat;
  merged : list RegistrySpec
}.

(** [validRegistries = append(validRegistries, reg)]: the capacity is that
    of the original slice, so the element lands in the shared array. *)
Definition pushValid (st : loopState) (reg : CRIRegistry) : loopState :=
  {| backing := <[validLen st := reg]> (backing st);
     validLen := S (validLen st);
     merged := merged st |}.

Definition setMerged (st : loopState) (m : list RegistrySpec) : loopState :=
  {| backing := backing st; validLen := validLen st; merged := m |}.

Section Handler.
Variable h : handler.
(** [common.LabelClusterName], declared outside the sources. *)
Variable LabelClusterName : string.

(** First part of [getClusterCRIRegistries]: the sorted insecure hosts
    with the addons' mirrors inserted. *)
Definition addonStep (l : list string) (raw : string) : list string :=
  match unmarshalMirror h raw with
  | None => l
  | Some m => if String.eqb m "" then l else insertMirror l m
  end.

Definition insecureHosts (c : Cluster) : list string :=
  foldl addonStep (Go.sortStrings (CRInsecureRegistry c)) (Addons c).

Definition insecureSpecs (hosts : list string) : list RegistrySpec :=
  foldl (fun regs host =>
           appendUniqueRegistry regs [httpSpec host; httpsSkipSpec host])
        [] hosts.

(** One turn of the loop over [c.ContainerRuntime.Registries]; the element
    is read from the backing array at index [i]. *)
Definition registryStep (st : loopState) (i : nat)
  : loopState + handlerError :=
  match backing st !! i with
  | None => inl st
  | Some reg =>
      match RegistryRef reg with
      | None | Some "" =>
          let reg' := {| InsecureRegistry := InsecureRegistry reg;
                         RegistryRef := None |} in
          let m := appendUniqueRegistry (merged st)
                     [httpSpec (InsecureRegistry reg);
                      httpsSkipSpec (InsecureRegistry reg)] in
          inl (pushValid (setMerged st m) reg')
      | Some ref =>
          match GetRegistry h ref with
          | inr err =>
              if IsNotFound err then inl st
              else inr (ErrGetRegistry ref err)
          | inl spec =>
              let m := appendUniqueRegistry (merged st) [spec] in
              inl (pushValid (setMerged st m) reg)
          end
      end
  end.

Fixpoint registryLoop (st : loopState) (idxs : list nat)
  : loopState * option handlerError :=
  match idxs with
  | [] => (st, None)
  | i :: rest =>
      match registryStep st i with
      | inl st' => registryLoop st' rest
      | inr e => (st, Some e)
      end
  end.

(** [getClusterCRIRegistries]: the cluster after the call (its explicit
    list is rewritten through the shared backing array) and the result. *)
Definition getClusterCRIRegistries (c : Cluster)
  : Cluster * (list RegistrySpec + handlerError) :=
  let registries := insecureSpecs (insecureHosts c) in
  let st0 := {| backing := CRRegistries c; validLen := 0;
                merged := registries |} in
  match registryLoop st0 (seq 0 (length (CRRegistries c))) with
  | (st, Some e) => (setCRRegistries c (backing st), inr e)
  | (st, None) =>
      (setCRRegistries c (take (validLen st) (backing st)), inl (merged st))
  end.

(** [registriesEqual]. *)
Fixpoint elementsEqual (a b : list RegistrySpec) : bool :=
  match a, b with
  | x :: a', y :: b' => if decide (x = y) then elementsEqual a' b' else false
  | _, _ => true
  end.

Definition registriesEqual (a b : list RegistrySpec) : bool :=
  if length a =? length b then elementsEqual a b else false.

(** [criRegistryUpdateStep]: [wrapNodes] is made with length 0, so the
    assignment [wrapNodes[i] = &nodes[i]] is out of range at [i = 0]. *)
Fixpoint wrapLoop (wrapNodes : list Node) (nodes : list Node) (i : nat)
  : Go.outcome (list Node) :=
  match nodes with
  | [] => Go.Returned wrapNodes
  | n :: rest =>
      if i <? length wrapNodes
      then wrapLoop (<[i := n]> wrapNodes) rest (S i)
      else Go.Panic "index out of range"
  end.

Definition criRegistryUpdateStep (cluster : Cluster)
  (registries : list RegistrySpec) (nodes : list Node)
  : Go.outcome (option Step * option handlerError) :=
  match wrapLoop [] nodes 0 with
  | Go.Panic msg => Go.Panic msg
  | Go.Returned wrapNodes =>
      match CRIRegistryUpdateStep h cluster registries wrapNodes with
      | inl step => Go.Returned (Some step, None)
      | inr e => Go.Returned (None, Some e)
      end
  end.

Definition clusterSelector (cluster : Cluster) : string :=
  LabelClusterName +:+ "=" +:+ Name cluster.

(** [getCRIRegistriesStep]. *)
Definition getCRIRegistriesStep (cluster : Cluster)
  (registries : list RegistrySpec)
  : Go.outcome (option Step * option handlerError) :=
  if negb (registriesEqual (StatusRegistries cluster) registries) then
    match ListNodes h (clusterSelector cluster) with
    | inr _ => Go.Returned (None, Some ErrList)
    | inl nodeList => criRegistryUpdateStep cluster registries nodeList
    end
  else Go.Returned (None, None).

End Handler.

(** ** Predicates used to state the properties of the registry code *)

(** The ordered, duplicate-avoiding insert that [appendUniqueRegistry] and
    the addon loop both spell out, over an arbitrary key. *)
Definition orderedInsert {A} (key : A -> string) (s : list A) (x : A)
  : list A :=
  let '(idx, ok) :=
    Go.sortFind (length s)
      (fun i => Go.stringsCompare (key x) (from_option key "" (s !! i))) in
  if ok then s
  else if idx =? length s then s ++ [x]
  else Go.shiftInsert s idx x.

(** Strict order on keys: [strings.Compare(a, b) < 0]. *)
Definition keyLt (a b : string) : Prop := String.compare a b = Lt.

(** Strictly ascending by key: the shape the binary search relies on. *)
Definition sortedBy {A} (key : A -> string) (l : list A) : Prop :=
  StronglySorted (fun x y => keyLt (key x) (key y)) l.

(** No two entries share an identity key. *)
Definition NoDupKeys (s : list RegistrySpec) : Prop :=
  ∀ i j x y, i ≠ j → s !! i = Some x → s !! j = Some y → regKey x ≠ regKey y.

(** Entries are in ascending order of identity key. *)
Definition AscendingKeys (s : list RegistrySpec) : Prop :=
  ∀ i j x y, i ≤ j → s !! i = Some x → s !! j = Some y →
    (Go.stringsCompare (regKey x) (regKey y) ≤ 0)%Z.

(** Number of entries satisfying a boolean test. *)
Definition countIf {A} (p : A -> bool) (l : list A) : nat :=
  length (filter (fun x => p x = true) l).

Definition isHttp (x : string) (r : RegistrySpec) : bool :=
  String.eqb (Scheme r) "http" && String.eqb (Host r) x.

Definition isHttpsSkip (x : string) (r : RegistrySpec) : bool :=
  String.eqb (Scheme r) "https" && String.eqb (Host r) x && SkipVerify r.

(** The diff check of [getCRIRegistriesStep]: an update step is needed when
    the recorded and the desired sequences are not equal. *)
Definition NeedsUpdate (recorded desired : list RegistrySpec) : bool :=
  negb (registriesEqual recorded desired).

(** What the lookup makes of an entry of the explicit list. *)
Inductive refKind : Type :=
| Literal                                  (* no reference: an insecure host *)
| Resolved (spec : RegistrySpec)           (* the reference resolves *)
| Stale                                    (* the lookup says not found *)
| Broken (ref : string) (e : storeError).  (* the lookup fails otherwise *)

Definition classify (h : handler) (reg : CRIRegistry) : refKind :=
  match RegistryRef reg with
  | None => Literal
  | Some ref =>
      if String.eqb ref "" then Literal
      else match GetRegistry h ref with
           | inl spec => Resolved spec
           | inr e => if IsNotFound e then Stale else Broken ref e
           end
  end.

Definition isBroken (k : refKind) : bool :=
  match k with Broken _ _ => true | _ => false end.

(** The explicit list a successful reconciliation leaves behind, in the
    words of the specification: stale references are dropped, the other
    entries stay in order (an empty reference is recorded as none). *)
Definition validEntry (h : handler) (reg : CRIRegistry) : option CRIRegistry :=
  match classify h reg with
  | Literal =>
      Some {| InsecureRegistry := InsecureRegistry reg; RegistryRef := None |}
  | Resolved _ => Some reg
  | Stale | Broken _ _ => None
  end.

Definition validEntries (h : handler) (l : list CRIRegistry)
  : list CRIRegistry :=
  omap (validEntry h) l.

Definition literalEntry (host : string) : CRIRegistry :=
  {| InsecureRegistry := host; RegistryRef := None |}.

(** The hosts that are expanded into an http/https pair before the explicit
    list is read: the declared insecure hosts and the addons' mirrors. *)
Definition insecureSource (h : handler) (c : Cluster) (host : string) : Prop :=
  host ∈ CRInsecureRegistry c ∨
  ∃ raw, raw ∈ Addons c ∧ unmarshalMirror h raw = Some host ∧ host ≠ "".

(** Two hosts whose entries meet on one identity key:
    "http" + ("s" + b) is "https" + b. *)
Definition keyClash (a b : string) : Prop := a = "s" +:+ b ∨ b = "s" +:+ a.

(** Invariant of the loop over the explicit list after the entries [pre] of
    [orig]: the shared array starts with the valid entries seen so far, the
    rest of it is still the original, and the lookups that resolved are in
    the merged set. *)
Record loopInv (h : handler) (orig pre : list CRIRegistry) (st : loopState)
  : Prop := {
  inv_backing :
    backing st = validEntries h pre ++ drop (length (validEntries h pre)) orig;
  inv_validLen : validLen st = length (validEntries h pre);
  inv_sorted : sortedBy regKey (merged st);
  inv_resolved : ∀ reg spec, reg ∈ pre → classify h reg = Resolved spec →
    ∃ r, r ∈ merged st ∧ regKey r = regKey spec
}.

(** Invariant of the expansion of the insecure hosts after the hosts
    [seen], for a host [x] under watch. *)
Record pairInv (x : string) (seen : list string) (acc : list RegistrySpec)
  : Prop := {
  pair_sorted : sortedBy regKey acc;
  pair_shape : ∀ r, r ∈ acc →
    ∃ h', h' ∈ seen ∧ (r = httpSpec h' ∨ r = httpsSkipSpec h');
  pair_present : x ∈ seen → httpSpec x ∈ acc ∧ httpsSkipSpec x ∈ acc
}.

(** Sample data. *)
Definition sampleHandler : handler :=
  {| GetRegistry := fun ref =>
       if String.eqb ref "gone" then inr NotFound
       else if String.eqb ref "down" then inr (OtherError "timeout")
       else inl {| Scheme := "https"; Host := ref; SkipVerify := false;
                   CA := ""; RegistryAuth := Some 1%positive |};
     ListNodes := fun _ => inl [mkNode "n1"; mkNode "n2"];
     unmarshalMirror := fun _ => None;
     CRIRegistryUpdateStep := fun _ regs nodes =>
       inl {| ID := "step-1"; StepName := "updateCRIRegistry";
              Timeout := 0; ErrIgnore := false; RetryTimes := 1;
              Nodes := (fun n => mkStepNode (NodeID n)) <$> nodes;
              Action := ActionInstall; Commands := [] |} |}.

Definition sampleCluster : Cluster :=
  {| Name := "c1";
     CRInsecureRegistry := ["x"];
     CRRegistries :=
       [literalEntry "x"; mkCRIRegistry "" (Some "gone");
        mkCRIRegistry "" (Some "reg.local")];
     Addons := [];
     StatusRegistries := [] |}.


Definition clashCluster : Cluster :=
  {| Name := "c1";
     CRInsecureRegistry := ["foo"; "sfoo"];
     CRRegistries := [literalEntry "sfoo"];
     Addons := [];
     StatusRegistries := [] |}.


(** ** The calico component (pkg/scheme/core/v1/cni) *)

Module Cni.

(** The fields of [CalicoRunnable] (with those of the embedded [BaseCni])
    that step generation and template choice read. *)
Record CalicoRunnable : Type := mkCalicoRunnable {
  Version : string;
  Offline : bool;
  LocalRegistry : string;
  KubeletDataDir : string
}.

(** [common.Chart]. *)
Record Chart : Type := mkChart {
  PkgName : string;
  ChartVersion : string;
  ChartOffline : bool
}.

Inductive error : Type :=
| ErrMarshal (msg : string)
| ErrChart (msg : string)
| ErrUnsupported (version : string).  (* "calico dose not support version: %s" *)

(** Declarations of the package that are not among the sources: the
    step constructors, the version threshold, the chart's steps, the
    embedded templates and the directory constants. *)
Record Package : Type := mkPackage {
  jsonMarshal : CalicoRunnable -> string + error;
  IsHighKubeVersion : string -> bool;
  InstallStepsV2 : Chart -> list StepNode -> list Step + error;
  RenderYaml : string -> string -> list StepNode -> Step;
  ApplyYaml : string -> list StepNode -> Step;
  InstallCalicoRelease : string -> string -> list StepNode -> Step;
  LoadImage : string -> string -> list StepNode -> Step;
  RemoveImage : string -> string -> list StepNode -> Step;
  filepathJoin : list string -> string;
  manifestDir : string;
  BaseDstDir : string;
  ChartFilename : string;
  calicoV3112 : string;
  calicoV31610 : string;
  calicoV3212 : string;
  calicoV3224 : string;
  calicoV3245 : string;
  calicoV3261 : string
}.

Section Calico.
Variable pkg : Package.

(** [CalicoRunnable.LoadImage]. *)
Definition LoadImageSteps (runnable : CalicoRunnable) (nodes : list StepNode)
  : list Step + error :=
  match jsonMarshal pkg runnable with
  | inr e => inr e
  | inl bytes =>
      if Offline runnable && String.eqb (LocalRegistry runnable) ""
      then inl [LoadImage pkg "calico" bytes nodes]
      else inl []
  end.

(** [CalicoRunnable.InstallSteps]. *)
Definition InstallSteps (runnable : CalicoRunnable) (nodes : list StepNode)
  (kubernetesVersion : string) : list Step + error :=
  match jsonMarshal pkg runnable with
  | inr e => inr e
  | inl bytes =>
      if IsHighKubeVersion pkg kubernetesVersion then
        let chart := {| PkgName := "calico";
                        ChartVersion := Version runnable;
                        ChartOffline := Offline runnable |} in
        match InstallStepsV2 pkg chart nodes with
        | inr e => inr e
        | inl cLoadSteps =>
            inl ((cLoadSteps ++ [RenderYaml pkg "calico" bytes nodes]) ++
                 [InstallCalicoRelease pkg
                    (filepathJoin pkg
                       [BaseDstDir pkg; "." +:+ PkgName chart;
                        ChartVersion chart; ChartFilename pkg])
                    (filepathJoin pkg [manifestDir pkg; "calico.yaml"])
                    nodes])
        end
      else
        inl ([RenderYaml pkg "calico" bytes nodes] ++
             [ApplyYaml pkg (filepathJoin pkg [manifestDir pkg; "calico.yaml"])
                nodes])
  end.

(** [CalicoRunnable.UninstallSteps]. *)
Definition UninstallSteps (runnable : CalicoRunnable) (nodes : list StepNode)
  : list Step + error :=
  match jsonMarshal pkg runnable with
  | inr e => inr e
  | inl bytes =>
      if Offline runnable && String.eqb (LocalRegistry runnable) ""
      then inl [RemoveImage pkg "calico" bytes nodes]
      else inl []
  end.

(** [CalicoRunnable.CalicoTemplate]: the closed version table. *)
Definition CalicoTemplate (runnable : CalicoRunnable) : string * option error :=
  match Version runnable with
  | "v3.11.2" => (calicoV3112 pkg, None)
  | "v3.16.10" => (calicoV31610 pkg, None)
  | "v3.21.2" => (calicoV3212 pkg, None)
  | "v3.22.4" => (calicoV3224 pkg, None)
  | "v3.24.5" => (calicoV3245 pkg, None)
  | "v3.26.1" => (calicoV3261 pkg, None)
  | v => ("", Some (ErrUnsupported v))
  end.

End Calico.

(** The versions the table maps. *)
Definition supportedVersions : list string :=
  ["v3.11.2"; "v3.16.10"; "v3.21.2"; "v3.22.4"; "v3.24.5"; "v3.26.1"].

(** A package instance for examples. *)
Definition samplePackage : Package :=
  {| jsonMarshal := fun r => inl (Version r);
     IsHighKubeVersion := fun v => String.eqb v "v1.29.0";
     InstallStepsV2 := fun _ _ => inl [];
     RenderYaml := fun name bytes nodes =>
       mkStep "id-render" "renderYaml" 0 false 1 nodes ActionInstall
         [mkCommand CommandCustom [] bytes name];
     ApplyYaml := fun path nodes =>
       mkStep "id-apply" "applyYaml" 0 false 1 nodes ActionInstall
         [mkCommand CommandShell ["kubectl"; "apply"; "-f"; path] "" ""];
     InstallCalicoRelease := fun chart values nodes =>
       mkStep "id-release" "installCalicoRelease" 0 false 1 nodes ActionInstall
         [mkCommand CommandShell ["helm"; "install"; chart; "-f"; values] "" ""];
     LoadImage := fun name bytes nodes =>
       mkStep "id-load" "loadImage" 0 false 1 nodes ActionInstall
         [mkCommand CommandCustom [] bytes name];
     RemoveImage := fun name bytes nodes =>
       mkStep "id-remove" "removeImage" 0 false 1 nodes ActionUninstall
         [mkCommand CommandCustom [] bytes name];
     filepathJoin := fun parts => foldr (fun a b => a +:+ "/" +:+ b) "" parts;
     manifestDir := "/tmp/.cni";
     BaseDstDir := "/tmp";
     ChartFilename := "chart.tgz";
     calicoV3112 := "t-3.11.2";
     calicoV31610 := "t-3.16.10";
     calicoV3212 := "t-3.21.2";
     calicoV3224 := "t-3.22.4";
     calicoV3245 := "t-3.24.5";
     calicoV3261 := "t-3.26.1" |}.

Definition unsupportedRunnable : CalicoRunnable :=
  mkCalicoRunnable "v9.9.9" false "" "/var/lib/kubelet".

End Cni.


(** ** Join-command extraction and container teardown
       (pkg/scheme/core/v1/k8s/utils.go) *)

Module K8s.

Definition newline : string := String (Ascii.ascii_of_nat 10) EmptyString.
Definition backslash : string := String (Ascii.ascii_of_nat 92) EmptyString.

(** [sanitizeCommand]. *)
Definition sanitizeCommand (input : string) : string :=
  let cleaned := Go.stringsReplaceAll input (backslash +:+ newline) " " in
  Go.stringsJoinSep (Go.stringsFields cleaned) " ".

(** [kubeadm join.*?--control-plane.*?--certificate-key\s+\S+] *)
Definition masterPattern : Go.regexp :=
  [Go.Lit "kubeadm join"; Go.AnyLazy; Go.Lit "--control-plane"; Go.AnyLazy;
   Go.Lit "--certificate-key"; Go.Plus Go.Space; Go.Plus Go.NonSpace].

(** [kubeadm join.*?--token\s+\S+.*?--discovery-token-ca-cert-hash\s+\S+] *)
Definition workerPattern : Go.regexp :=
  [Go.Lit "kubeadm join"; Go.AnyLazy; Go.Lit "--token"; Go.Plus Go.Space;
   Go.Plus Go.NonSpace; Go.AnyLazy; Go.Lit "--discovery-token-ca-cert-hash";
   Go.Plus Go.Space; Go.Plus Go.NonSpace].

(** The first match that does not contain [--control-plane]. *)
Fixpoint firstWorker (matches : list string) : string :=
  match matches with
  | [] => ""
  | m :: rest =>
      if negb (Go.stringsContains m "--control-plane") then m
      else firstWorker rest
  end.

(** [extractJoinCommands]: (master, worker). *)
Definition extractJoinCommands (output : string) : string * string :=
  let cleanedOutput := sanitizeCommand output in
  let masterMatches := Go.FindAllString masterPattern cleanedOutput in
  let master := match masterMatches with m :: _ => m | [] => "" end in
  let workerMatches := Go.FindAllString workerPattern cleanedOutput in
  (master, firstWorker workerMatches).

(** Errors of the containerd client; [errdefs.IsNotFound] tells the
    not-found ones apart. *)
Inductive ctrdError : Type :=
| ErrNotFound (msg : string)
| ErrOther (msg : string).

Definition IsNotFound (e : ctrdError) : bool :=
  match e with ErrNotFound _ => true | ErrOther _ => false end.

(** A task, by the answers the daemon gives for it. *)
Record Task : Type := mkTask {
  taskID : string;
  waitResult : option ctrdError;   (* task.Wait: the error, if any *)
  killResult : option ctrdError;   (* task.Kill(SIGKILL): the error, if any *)
  exitResult : Z + ctrdError;      (* status.Result() of the status received *)
  deleteResult : Z + ctrdError     (* task.Delete: exit code or error *)
}.

(** A container, by the answers the daemon gives for it. *)
Record Container : Type := mkContainer {
  ctrID : string;
  ctrTask : Task + ctrdError;          (* ctr.Task(ctx, nil) *)
  ctrDeleteResult : option ctrdError   (* ctr.Delete(ctx): the error, if any *)
}.

(** The daemon behind the socket. *)
Record Daemon : Type := mkDaemon {
  connect : option ctrdError;                 (* containerd.New *)
  listContainers : list Container + ctrdError (* client.Containers *)
}.

(** What the sequence does, in order: the containers it reaches, the
    signals and deletions it issues, and the warnings it logs. *)
Inductive event : Type :=
| Attempt (ctr : string)
| WarnNoTask (ctr : string)
| WaitFailed (task : string)
| KillSent (task : string)
| KillNotFound (task : string)
| KillFailed (task : string)
| ResultFailed (task : string)
| TaskDeleted (task : string)
| TaskDeleteIgnored (task : string)
| ContainerDeleted (ctr : string)
| ContainerDeleteIgnored (ctr : string).

(** How one turn of the loop ends. *)
Inductive turn : Type :=
| Next                       (* fall through or [continue] *)
| Return (e : ctrdError).    (* [return err] *)

(** The deletion of the container object that ends a turn. *)
Definition deleteCtr (ctr : Container) : list event :=
  match ctrDeleteResult ctr with
  | Some _ => [ContainerDeleteIgnored (ctrID ctr)]
  | None => [ContainerDeleted (ctrID ctr)]
  end.

(** The body of the loop of [deleteContainer] for one container. *)
Definition teardownOne (ctr : Container) : list event * turn :=
  match ctrTask ctr with
  | inr _ =>
      ([Attempt (ctrID ctr); WarnNoTask (ctrID ctr)] ++ deleteCtr ctr, Next)
  | inl task =>
      match waitResult task with
      | Some e => ([Attempt (ctrID ctr); WaitFailed (taskID task)], Return e)
      | None =>
          match killResult task with
          | Some e =>
              if IsNotFound e
              then ([Attempt (ctrID ctr); KillNotFound (taskID task)], Next)
              else ([Attempt (ctrID ctr); KillFailed (taskID task)], Return e)
          | None =>
              match exitResult task with
              | inr e =>
                  ([Attempt (ctrID ctr); KillSent (taskID task);
                    ResultFailed (taskID task)], Return e)
              | inl _ =>
                  ([Attempt (ctrID ctr); KillSent (taskID task)] ++
                   [match deleteResult task with
                    | inr _ => TaskDeleteIgnored (taskID task)
                    | inl _ => TaskDeleted (taskID task)
                    end] ++ deleteCtr ctr, Next)
              end
          end
      end
  end.

Fixpoint teardownLoop (ctrs : list Container)
  : list event * option ctrdError :=
  match ctrs with
  | [] => ([], None)
  | ctr :: rest =>
      match teardownOne ctr with
      | (evs, Return e) => (evs, Some e)
      | (evs, Next) =>
          let '(evs', r) := teardownLoop rest in (evs ++ evs', r)
      end
  end.

(** [deleteContainer]: the events and the returned error. *)
Definition deleteContainer (d : Daemon) : list event * option ctrdError :=
  match connect d with
  | Some e => ([], Some e)
  | None =>
      match listContainers d with
      | inr e => ([], Some e)
      | inl ctrs => teardownLoop ctrs
      end
  end.

(** The containers the loop reached, in order. *)
Definition attempted (evs : list event) : list string :=
  omap (fun ev => match ev with Attempt c => Some c | _ => None end) evs.

(** A container whose teardown cannot end the sequence: it has no task, or
    its task hands out the status channel, takes the signal or is already
    gone, and reports its exit status. *)
Definition benign (ctr : Container) : Prop :=
  match ctrTask ctr with
  | inr _ => True
  | inl task =>
      waitResult task = None ∧
      (killResult task = None ∨
       ∃ e, killResult task = Some e ∧ IsNotFound e = true) ∧
      ∃ code, exitResult task = inl code
  end.

(** The three failures that end the sequence with an error. *)
Definition hardFailure (task : Task) (e : ctrdError) : Prop :=
  waitResult task = Some e ∨
  (waitResult task = None ∧ killResult task = Some e ∧ IsNotFound e = false) ∨
  (waitResult task = None ∧ killResult task = None ∧ exitResult task = inr e).

(** Sample daemons. *)
Definition sampleTask (id : string) : Task :=
  mkTask id None None (inl 137%Z) (inl 137%Z).

Definition sampleDaemon : Daemon :=
  mkDaemon None
    (inl [mkContainer "c1" (inl (sampleTask "t1")) None;
          mkContainer "c2" (inr (ErrNotFound "no running task found")) None;
          mkContainer "c3"
            (inl (mkTask "t3" None (Some (ErrNotFound "process gone"))
                    (inl 0%Z) (inl 0%Z))) None;
          mkContainer "c4" (inl (sampleTask "t4"))
            (Some (ErrOther "container busy"))]).

Definition waitFailureDaemon : Daemon :=
  mkDaemon None
    (inl [mkContainer "c1"
            (inl (mkTask "t1" (Some (ErrOther "ttrpc: closed")) None
                    (inl 0%Z) (inl 0%Z))) None;
          mkContainer "c2" (inl (sampleTask "t2")) None]).

End K8s.


(** ** What it means for a string to match a pattern *)

Fixpoint allChars (p : Ascii.ascii -> bool) (s : string) : bool :=
  match s with
  | EmptyString => true
  | String c s' => p c && allChars p s'
  end.

(** [Matches re m]: the whole of [m] is matched by [re]. *)
Inductive Matches : Go.regexp -> string -> Prop :=
| Matches_nil : Matches [] ""
| Matches_lit l rest m :
    Matches rest m -> Matches (Go.Lit l :: rest) (l +:+ m)
| Matches_any rest a m :
    allChars Go.isDot a = true -> Matches rest m ->
    Matches (Go.AnyLazy :: rest) (a +:+ m)
| Matches_plus cls rest a m :
    a ≠ "" -> allChars (Go.inClass cls) a = true -> Matches rest m ->
    Matches (Go.Plus cls :: rest) (a +:+ m).

(** [m] occurs in [s] after [pre] and matches [re]. *)
Definition occursAt (re : Go.regexp) (s pre m : string) : Prop :=
  (∃ post, s = pre +:+ m +:+ post) ∧ Matches re m.


(** [m] is the leftmost-first match of [re] in [s]: a match that begins
    no later than any other. *)
Definition leftmostMatch (re : Go.regexp) (s m : string) : Prop :=
  ∃ pre, occursAt re s pre m ∧
    ∀ pre' m', occursAt re s pre' m' → String.length pre ≤ String.length pre'.






(** Sample outputs of kubeadm. *)
Definition controlPlaneLine : string :=
  "kubeadm join 10.0.0.1:6443 --token abc.def --discovery-token-ca-cert-hash sha256:1234 --control-plane --certificate-key k1".

Definition workerLine : string :=
  "kubeadm join 10.0.0.1:6443 --token abc.def --discovery-token-ca-cert-hash sha256:1234".


Definition controlPlaneFirstOutput : string :=
  "Your Kubernetes control-plane has initialized successfully!" +:+
  K8s.newline +:+ "  " +:+
  "kubeadm join 10.0.0.1:6443 --token abc.def " +:+ K8s.backslash +:+
  K8s.newline +:+
  "    --discovery-token-ca-cert-hash sha256:1234 " +:+ K8s.backslash +:+
  K8s.newline +:+
  "    --control-plane --certificate-key k1" +:+ K8s.newline +:+
  K8s.newline +:+ "Then you can join any number of worker nodes:" +:+
  K8s.newline +:+
  "kubeadm join 10.0.0.1:6443 --token abc.def " +:+ K8s.backslash +:+
  K8s.newline +:+
  "    --discovery-token-ca-cert-hash sha256:1234" +:+ K8s.newline.

Definition workerFirstOutput : string :=
  workerLine +:+ K8s.newline +:+ controlPlaneLine +:+ K8s.newline.


(** ** The containerd runtime (pkg/scheme/core/v1/cri/containerd.go) *)

Module Cri.

Definition CapabilityPull : string := "pull".
Definition CapabilityPush : string := "push".
Definition CapabilityResolve : string := "resolve".

Record ContainerdHost : Type := mkContainerdHost {
  HostScheme : string;
  HostName : string;          (* Host *)
  Capabilities : list string;
  HostSkipVerify : bool;      (* SkipVerify *)
  HostCA : string             (* CA, a byte slice *)
}.

Record ContainerdRegistry : Type := mkContainerdRegistry {
  Server : string;
  Hosts : list ContainerdHost
}.

(** [HostFileConfig], with the fields [renderConfigs] sets. *)
Record HostFileConfig : Type := mkHostFileConfig {
  HFCapabilities : list string;
  HFCACert : option string;
  HFSkipVerify : option bool
}.

Record HostFile : Type := mkHostFile {
  HFServer : string;
  HostConfigs : gmap string HostFileConfig
}.

(** The trust store on disk: the entries of the configuration directory.
    A per-host subdirectory holds certificate files and [hosts.toml], kept
    here as the structure that is encoded into it. *)
Inductive fileData : Type :=
| CertFile (pem : string)
| HostsToml (c : HostFile)
| Truncated                 (* created, nothing encoded into it *)
| OtherFile (raw : string).

Inductive dirent : Type :=
| File (raw : string)
| Dir (files : gmap string fileData).

(** [entry.IsDir()]. *)
Definition IsDir (e : dirent) : bool :=
  match e with Dir _ => true | File _ => false end.

(** [None] when the configuration directory does not exist. *)
Definition store : Type := option (gmap string dirent).

Definition entriesOf (fs : store) : gmap string dirent := default ∅ fs.

(** The failures the operating system may answer with. *)
Record Faults : Type := mkFaults {
  readDirFault : option string;          (* other than not-exist *)
  mkdirFault : string -> bool;           (* MkdirAll of a host directory *)
  writeFault : string -> string -> bool; (* WriteFile of a host's CA file *)
  createFault : string -> bool;          (* Create of hosts.toml *)
  encodeFault : string -> bool;          (* encoding into hosts.toml *)
  removeFault : string -> bool;          (* RemoveAll of a host directory *)
  mainConfigFault : bool;                (* writing config.toml *)
  reloadFault : bool;                    (* systemctl daemon-reload *)
  restartFault : bool                    (* systemctl restart containerd *)
}.

Inductive renderError : Type :=
| ErrMkdir (dir : string)
| ErrWriteCA (file : string)
| ErrCreate (file : string)
| ErrEncode (file : string).

Inductive error : Type :=
| ErrReadDir (dir msg : string)          (* "read registry config dir:%s failed:%w" *)
| ErrRender (dir : string) (cause : renderError).
                                         (* "renderConfigs to %s failed:%w" *)

Inductive logEntry : Type :=
| LogClearFailed (dir : string)   (* "clear old registry config dir: %s failed" *)
| LogMainConfigFailed
| LogReloadFailed
| LogRestartFailed.

(** [filepath.Join] of a directory and a clean single component. *)
Definition pathJoin (dir name : string) : string := dir +:+ "/" +:+ name.

Definition hostKey (host : ContainerdHost) : string :=
  HostScheme host +:+ "://" +:+ HostName host.

Definition pemName (host : ContainerdHost) : string := HostName host +:+ ".pem".

Section RenderConfigs.
Variable F : Faults.

(** The loop of [renderConfigs] over [h.Hosts]: it writes the CA files
    into the host directory and collects the per-endpoint configuration. *)
Fixpoint writeHosts (server hostDir : string) (hosts : list ContainerdHost)
  (files : gmap string fileData) (cfgs : gmap string HostFileConfig)
  : gmap string fileData * (gmap string HostFileConfig + renderError) :=
  match hosts with
  | [] => (files, inl cfgs)
  | host :: rest =>
      let skipVerify := if HostSkipVerify host then Some true else None in
      if 0 <? String.length (HostCA host) then
        let caFile := pathJoin hostDir (pemName host) in
        if writeFault F server (HostName host)
        then (files, inr (ErrWriteCA caFile))
        else
          let hostConfig :=
            {| HFCapabilities := Capabilities host;
               HFCACert := if String.eqb caFile "" then None else Some caFile;
               HFSkipVerify := skipVerify |} in
          writeHosts server hostDir rest
            (<[pemName host := CertFile (HostCA host)]> files)
            (<[hostKey host := hostConfig]> cfgs)
      else
        let hostConfig :=
          {| HFCapabilities := Capabilities host;
             HFCACert := None;
             HFSkipVerify := skipVerify |} in
        writeHosts server hostDir rest files (<[hostKey host := hostConfig]> cfgs)
  end.

(** [ContainerdRegistry.renderConfigs]: the entries of [dir] afterwards and
    the error, if any. *)
Definition renderConfigs (h : ContainerdRegistry) (dir : string)
  (entries : gmap string dirent) : gmap string dirent * option renderError :=
  let hostDir := pathJoin dir (Server h) in
  match entries !! Server h with
  | Some (File _) => (entries, Some (ErrMkdir hostDir))
  | found =>
      if mkdirFault F (Server h) then (entries, Some (ErrMkdir hostDir))
      else
        let files0 := match found with Some (Dir files) => files | _ => ∅ end in
        match writeHosts (Server h) hostDir (Hosts h) files0 ∅ with
        | (files1, inr e) => (<[Server h := Dir files1]> entries, Some e)
        | (files1, inl cfgs) =>
            let tomlFile := pathJoin hostDir "hosts.toml" in
            if createFault F (Server h)
            then (<[Server h := Dir files1]> entries, Some (ErrCreate tomlFile))
            else if encodeFault F (Server h)
            then (<[Server h := Dir (<["hosts.toml" := Truncated]> files1)]>
                    entries, Some (ErrEncode tomlFile))
            else (<[Server h :=
                      Dir (<["hosts.toml" :=
                             HostsToml {| HFServer := Server h;
                                          HostConfigs := cfgs |}]> files1)]>
                    entries, None)
        end
  end.

(** [ContainerdRegistryConfigure]; [Registries] lists the bindings of the
    map in the order the range statement visits them. *)
Record ContainerdRegistryConfigure : Type := mkContainerdRegistryConfigure {
  Registries : list (string * ContainerdRegistry);
  ConfigDir : string
}.

(** The first loop of [Install]: render every registry and strike its
    server from [oldDirs]. *)
Fixpoint renderLoop (dir : string) (regs : list (string * ContainerdRegistry))
  (entries : gmap string dirent) (oldDirs : gset string)
  : gmap string dirent * gset string * option renderError :=
  match regs with
  | [] => (entries, oldDirs, None)
  | (_, r) :: rest =>
      match renderConfigs r dir entries with
      | (entries', Some e) => (entries', oldDirs, Some e)
      | (entries', None) => renderLoop dir rest entries' (oldDirs ∖ {[Server r]})
      end
  end.

(** The second loop: remove what is left in [oldDirs]; a failure is
    logged. *)
Definition clearStep (st : gmap string dirent * list logEntry) (d : string)
  : gmap string dirent * list logEntry :=
  if removeFault F d then (st.1, st.2 ++ [LogClearFailed d])
  else (delete d st.1, st.2).

Definition clearLoop (entries : gmap string dirent) (dirs : list string)
  : gmap string dirent * list logEntry :=
  foldl clearStep (entries, []) dirs.

(** Part 2 of [Install]: the main configuration and the restart; every
    failure is logged and nothing is returned. *)
Definition mainConfigLogs : list logEntry :=
  (if mainConfigFault F then [LogMainConfigFailed] else []) ++
  (if reloadFault F then [LogReloadFailed] else []) ++
  (if restartFault F then [LogRestartFailed] else []).

(** The subdirectories among the entries read: [entry.IsDir()]. *)
Definition dirNames (entries : gmap string dirent) : gset string :=
  dom (filter (fun kv => IsDir kv.2 = true) entries).

(** [ContainerdRegistryConfigure.Install]: the store afterwards, the log
    and the returned error. *)
Definition Install (c : ContainerdRegistryConfigure) (dryRun : bool)
  (fs : store) : store * list logEntry * option error :=
  if dryRun then (fs, [], None)
  else
    match readDirFault F with
    | Some msg => (fs, [], Some (ErrReadDir (ConfigDir c) msg))
    | None =>
        let entries := entriesOf fs in
        let oldDirs := dirNames entries in
        match renderLoop (ConfigDir c) (Registries c) entries oldDirs with
        | (entries', _, Some e) =>
            (Some entries', [], Some (ErrRender (ConfigDir c) e))
        | (entries', oldDirs', None) =>
            let '(entries'', logs) := clearLoop entries' (elements oldDirs') in
            ((if decide (Registries c = []) then
                match fs with None => None | Some _ => Some entries'' end
              else Some entries''),
             logs ++ mainConfigLogs, None)
        end
    end.

End RenderConfigs.

(** [ContainerdRunnable.matchPauseVersion]; the table
    [k8sMatchPauseVersion] is declared outside the sources. *)
Definition matchPauseVersion (k8sMatchPauseVersion : gmap string string)
  (kubeVersion : string) : Go.outcome (string * string) :=
  let registry := "k8s.gcr.io" in
  if String.eqb kubeVersion "" then Go.Returned ("", registry)
  else
    let kubeVersion := Go.stringsReplaceAll kubeVersion "v" "" in
    let kubeVersion := Go.stringsReplaceAll kubeVersion "." "" in
    match Go.sliceTo (Go.stringsSplitEmpty kubeVersion) 3 with
    | Go.Panic msg => Go.Panic msg
    | Go.Returned parts =>
        let kubeVersion := Go.stringsJoin parts in
        let registry :=
          if (125 <=? (Go.Atoi kubeVersion).1)%Z then "registry.k8s.io"
          else registry in
        Go.Returned (default "" (k8sMatchPauseVersion !! kubeVersion), registry)
    end.

(** The input with every 'v' and '.' removed. *)
Definition stripVersion (kubeVersion : string) : string :=
  Go.stringsReplaceAll (Go.stringsReplaceAll kubeVersion "v" "") "." "".

(** The number of characters (UTF-8 sequences) of a string. *)
Definition runeCount (s : string) : nat := length (Go.stringsSplitEmpty s).

Definition samplePauseTable : gmap string string :=
  <["118" := "3.1"]> (<["125" := "3.8"]> (<["126" := "3.9"]> ∅)).

(** The servers of the desired registries. *)
Definition servers (regs : list (string * ContainerdRegistry)) : gset string :=
  list_to_set ((fun kr => Server kr.2) <$> regs).

(** A host directory that holds the rendering of registry [r]: its
    [hosts.toml] names the server and has a section for every endpoint. *)
Definition rendered (r : ContainerdRegistry) (files : gmap string fileData)
  : Prop :=
  ∃ hf, files !! "hosts.toml" = Some (HostsToml hf) ∧
        HFServer hf = Server r ∧
        ∀ host, host ∈ Hosts r → is_Some (HostConfigs hf !! hostKey host).

(** No operating-system failure while rendering the registries [regs]. *)
Definition renderFaultFree (F : Faults)
  (regs : list (string * ContainerdRegistry)) : Prop :=
  ∀ kr, kr ∈ regs →
    mkdirFault F (Server kr.2) = false ∧
    createFault F (Server kr.2) = false ∧
    encodeFault F (Server kr.2) = false ∧
    ∀ host, writeFault F (Server kr.2) host = false.

(** No plain file sits where a host directory is to be made. *)
Definition noFileInTheWay (entries : gmap string dirent)
  (regs : list (string * ContainerdRegistry)) : Prop :=
  ∀ kr raw, kr ∈ regs → entries !! Server kr.2 ≠ Some (File raw).

(** Sample data: directories a and b exist, b and c are desired. *)
Definition noFaults : Faults :=
  mkFaults None (fun _ => false) (fun _ _ => false) (fun _ => false)
    (fun _ => false) (fun _ => false) false false false.

Definition removeFails : Faults :=
  mkFaults None (fun _ => false) (fun _ _ => false) (fun _ => false)
    (fun _ => false) (fun _ => true) false false false.

Definition sampleRegistry (server : string) : ContainerdRegistry :=
  mkContainerdRegistry server
    [mkContainerdHost "https" server
       [CapabilityPull; CapabilityPush; CapabilityResolve] true ""].

Definition sampleConfigure : ContainerdRegistryConfigure :=
  mkContainerdRegistryConfigure
    [("b", sampleRegistry "b"); ("c", sampleRegistry "c")]
    "/etc/containerd/certs.d".

Definition sampleStore : store :=
  Some (<["a" := Dir ∅]> (<["b" := Dir ∅]> ∅)).

End Cri.


(** ** Further predicates on the registry code *)

(** [reg] is the entry [reg0] of the explicit list, or the copy of it the
    reconciler writes back with the empty reference cleared. *)
Definition derivedFrom (h : handler) (reg0 reg : CRIRegistry) : Prop :=
  reg = reg0 ∨
  (classify h reg0 = Literal ∧
   reg = {| InsecureRegistry := InsecureRegistry reg0; RegistryRef := None |}).

(** Where an entry of the merged set comes from: the http/https pair of a
    host, or a registry object a reference resolved to. *)
Definition fromPair (host : string) (r : RegistrySpec) : Prop :=
  r = httpSpec host ∨ r = httpsSkipSpec host.

Definition pairHost (h : handler) (c : Cluster) (host : string) : Prop :=
  insecureSource h c host ∨
  ∃ reg, reg ∈ CRRegistries c ∧ classify h reg = Literal ∧
         InsecureRegistry reg = host.

Definition entryOrigin (h : handler) (c : Cluster) (r : RegistrySpec) : Prop :=
  (∃ host, pairHost h c host ∧ fromPair host r) ∨
  (∃ reg, reg ∈ CRRegistries c ∧ classify h reg = Resolved r).

(** Every entry of the array stems from the cluster's explicit list. *)
Definition derivedEntries (h : handler) (c : Cluster) (l : list CRIRegistry)
  : Prop :=
  ∀ reg, reg ∈ l → ∃ reg0, reg0 ∈ CRRegistries c ∧ derivedFrom h reg0 reg.

(** Sample data: a stale reference, a literal host and a failing lookup. *)
Definition brokenCluster : Cluster :=
  {| Name := "c2";
     CRInsecureRegistry := [];
     CRRegistries :=
       [mkCRIRegistry "" (Some "gone"); literalEntry "x";
        mkCRIRegistry "" (Some "down")];
     Addons := [];
     StatusRegistries := [] |}.

Definition emptyNodesHandler : handler :=
  {| GetRegistry := GetRegistry sampleHandler;
     ListNodes := fun _ => inl [];
     unmarshalMirror := unmarshalMirror sampleHandler;
     CRIRegistryUpdateStep := CRIRegistryUpdateStep sampleHandler |}.


(** ** More of the containerd runtime
       (pkg/scheme/core/v1/cri/containerd.go) *)

Module Containerd.

(** The [ContainerdHost] that [ToContainerdRegistryConfig] makes of a
    registry. *)
Definition hostOf (r : RegistrySpec) : Cri.ContainerdHost :=
  {| Cri.HostScheme := Scheme r;
     Cri.HostName := Host r;
     Cri.Capabilities :=
       [Cri.CapabilityPull; Cri.CapabilityPush; Cri.CapabilityResolve];
     Cri.HostSkipVerify := SkipVerify r;
     Cri.HostCA := CA r |}.

(** One turn of the loop of [ToContainerdRegistryConfig]: the registry of
    the host is looked up, made if missing, and the endpoint appended to
    it through the pointer kept in the map. *)
Definition addRegistry (cfgs : gmap string Cri.ContainerdRegistry)
  (r : RegistrySpec) : gmap string Cri.ContainerdRegistry :=
  let cfg :=
    match cfgs !! Host r with
    | Some cfg => cfg
    | None => {| Cri.Server := Host r; Cri.Hosts := [] |}
    end in
  <[Host r := {| Cri.Server := Cri.Server cfg;
                 Cri.Hosts := Cri.Hosts cfg ++ [hostOf r] |}]> cfgs.

(** [ToContainerdRegistryConfig]. *)
Definition ToContainerdRegistryConfig (registries : list RegistrySpec)
  : gmap string Cri.ContainerdRegistry :=
  foldl addRegistry ∅ registries.

(** [FilterRegistryWithAuth]. *)
Definition FilterRegistryWithAuth (registries : list RegistrySpec)
  : list RegistrySpec :=
  foldl (fun list r =>
           match RegistryAuth r with
           | Some _ => list ++ [r]
           | None => list
           end) [] registries.

Section Render.
Variable F : Cri.Faults.

(** The loop of [renderRegistryConfig] over the registries in the order
    the range statement visits the map. *)
Fixpoint renderEach (dir : string) (cfgs : list (string * Cri.ContainerdRegistry))
  (entries : gmap string Cri.dirent)
  : gmap string Cri.dirent * option Cri.renderError :=
  match cfgs with
  | [] => (entries, None)
  | (_, cfg) :: rest =>
      match Cri.renderConfigs F cfg dir entries with
      | (entries', Some e) => (entries', Some e)
      | (entries', None) => renderEach dir rest entries'
      end
  end.

(** [ContainerdRunnable.renderRegistryConfig]; [visit] is the order in
    which the map is ranged over. *)
Definition renderRegistryConfig
  (visit : gmap string Cri.ContainerdRegistry →
           list (string * Cri.ContainerdRegistry))
  (Registies : list RegistrySpec) (RegistryConfigDir : string)
  (dryRun : bool) (entries : gmap string Cri.dirent)
  : gmap string Cri.dirent * option Cri.renderError :=
  if dryRun then (entries, None)
  else
    let regCfgs := ToContainerdRegistryConfig Registies in
    renderEach RegistryConfigDir (visit regCfgs) entries.

End Render.

(** The section of [hosts.toml] that [renderConfigs] writes for an
    endpoint of a host directory. *)
Definition sectionOf (hostDir : string) (host : Cri.ContainerdHost)
  : Cri.HostFileConfig :=
  {| Cri.HFCapabilities := Cri.Capabilities host;
     Cri.HFCACert :=
       if 0 <? String.length (Cri.HostCA host)
       then Some (Cri.pathJoin hostDir (Cri.pemName host)) else None;
     Cri.HFSkipVerify := if Cri.HostSkipVerify host then Some true else None |}.

(** The two writes of one turn of the loop of [renderConfigs] when nothing
    fails: the CA file, if the endpoint has CA material, and the section. *)
Definition writeStep (hostDir : string)
  (st : gmap string Cri.fileData * gmap string Cri.HostFileConfig)
  (host : Cri.ContainerdHost)
  : gmap string Cri.fileData * gmap string Cri.HostFileConfig :=
  (if 0 <? String.length (Cri.HostCA host)
   then <[Cri.pemName host := Cri.CertFile (Cri.HostCA host)]> st.1
   else st.1,
   <[Cri.hostKey host := sectionOf hostDir host]> st.2).

(** A range order: some arrangement of the bindings of the map. *)
Definition rangeOrder
  (visit : gmap string Cri.ContainerdRegistry →
           list (string * Cri.ContainerdRegistry)) : Prop :=
  ∀ m, visit m ≡ₚ map_to_list m.

(** Nothing fails while the host directory of a registry is written. *)
Definition hostFaultFree (F : Cri.Faults) (r : Cri.ContainerdRegistry) : Prop :=
  Cri.mkdirFault F (Cri.Server r) = false ∧
  Cri.createFault F (Cri.Server r) = false ∧
  Cri.encodeFault F (Cri.Server r) = false ∧
  ∀ host, host ∈ Cri.Hosts r → Cri.HostCA host ≠ "" →
          Cri.writeFault F (Cri.Server r) (Cri.HostName host) = false.

(** The registries can be rendered into the directory: no plain file
    sits where a host directory goes and no operation on a host
    directory fails. *)
Definition renderable (F : Cri.Faults) (entries : gmap string Cri.dirent)
  (registries : list RegistrySpec) : Prop :=
  ∀ r, r ∈ registries →
    (∀ raw, entries !! Host r ≠ Some (Cri.File raw)) ∧
    Cri.mkdirFault F (Host r) = false ∧
    Cri.createFault F (Host r) = false ∧
    Cri.encodeFault F (Host r) = false ∧
    (CA r ≠ "" → Cri.writeFault F (Host r) (Host r) = false).

Definition sampleRegistries : list RegistrySpec :=
  [httpSpec "x"; httpsSkipSpec "x";
   mkRegistrySpec "https" "reg.local" false "PEM" (Some 1%positive)].

Definition caHost : Cri.ContainerdHost :=
  hostOf (mkRegistrySpec "https" "reg.local" false "PEM" (Some 1%positive)).

Definition caRegistry : Cri.ContainerdRegistry :=
  {| Cri.Server := "reg.local"; Cri.Hosts := [caHost] |}.

(** Two endpoints of one key: the second has CA material, the first
    skips verification. *)
Definition skipHost : Cri.ContainerdHost :=
  hostOf (httpsSkipSpec "reg.local").

Definition sharedKeyRegistry : Cri.ContainerdRegistry :=
  {| Cri.Server := "reg.local"; Cri.Hosts := [skipHost; caHost] |}.

End Containerd.

(** ** More on container teardown and join-command extraction *)

(** A container whose turn of the loop of [deleteContainer] ends without
    a return: it has no task, or the status channel is handed out and
    either the kill signal finds the task gone or it is delivered and the
    exit status is read. *)
Definition tolerated (ctr : K8s.Container) : Prop :=
  match K8s.ctrTask ctr with
  | inr _ => True
  | inl task =>
      K8s.waitResult task = None ∧
      ((∃ e, K8s.killResult task = Some e ∧ K8s.IsNotFound e = true) ∨
       (K8s.killResult task = None ∧ ∃ code, K8s.exitResult task = inl code))
  end.

(** A container whose deletion the loop gets to: it has no task, or its
    task was killed and its exit status read. *)
Definition settled (ctr : K8s.Container) : Prop :=
  match K8s.ctrTask ctr with
  | inr _ => True
  | inl task =>
      K8s.waitResult task = None ∧ K8s.killResult task = None ∧
      ∃ code, K8s.exitResult task = inl code
  end.

(** A daemon whose second container cannot be killed. *)
Definition killFailureDaemon : K8s.Daemon :=
  K8s.mkDaemon None
    (inl [K8s.mkContainer "c1"
            (inl (K8s.mkTask "t1" None (Some (K8s.ErrNotFound "process gone"))
                    (inl 0%Z) (inl 0%Z))) None;
          K8s.mkContainer "c2"
            (inl (K8s.mkTask "t2" None (Some (K8s.ErrOther "permission denied"))
                    (inl 0%Z) (inl 0%Z))) None;
          K8s.mkContainer "c3" (inl (K8s.sampleTask "t3")) None]).

(** [unicode.IsSpace] on an ASCII character: tab, line feed, vertical
    tab, form feed, carriage return and the blank. *)
Definition isAsciiSpace (c : Ascii.ascii) : bool :=
  Go.inRange 9 13 c || (Go.byteOf c =? 32)%N.

(** A byte that is not ASCII: part of a multi-byte UTF-8 sequence. *)
Definition isHighByte (c : Ascii.ascii) : bool := (0x80 <=? Go.byteOf c)%N.

(** The string starts with [n] bytes that are not ASCII. *)
Fixpoint highPrefix (n : nat) (s : string) : bool :=
  match n, s with
  | O, _ => true
  | S n', String c s' => isHighByte c && highPrefix n' s'
  | S _, EmptyString => false
  end.

(** A UTF-8 sequence as [strings.Split(s, "")] yields them: one byte, or
    several bytes none of which is ASCII. *)
Definition runeOk (r : string) : Prop :=
  r ≠ "" ∧ (allChars isHighByte r = true ∨ ∃ c, r = String c "").

(** A word: not empty and free of ASCII white space. *)
Definition isWord (f : string) : Prop :=
  f ≠ "" ∧ allChars (fun c => negb (isAsciiSpace c)) f = true.

(** ** More of the containerd runnable *)

(** The string without the occurrences of one character. *)
Fixpoint dropChar (c : Ascii.ascii) (s : string) : string :=
  match s with
  | EmptyString => EmptyString
  | String x rest =>
      if Ascii.eqb c x then dropChar c rest else String x (dropChar c rest)
  end.

Definition letterV : Ascii.ascii := Ascii.ascii_of_nat 118.
Definition dot : Ascii.ascii := Ascii.ascii_of_nat 46.

(** The decimal digit [n] as a character. *)
Definition digitChar (n : nat) : Ascii.ascii := Ascii.ascii_of_nat (48 + n).

(** The three characters as one string. *)
Definition three (c1 c2 c3 : Ascii.ascii) : string :=
  String c1 (String c2 (String c3 EmptyString)).

Module Runtime.

(** [ContainerdRunnable] with the fields of the embedded [Base] that the
    sources read or write. *)
Record ContainerdRunnable : Type := mkContainerdRunnable {
  Version : string;
  Offline : bool;
  DataRootDir : string;
  Registies : list RegistrySpec;
  RegistryWithAuth : list RegistrySpec;
  RegistryConfigDir : string;
  LocalRegistry : string;
  KubeVersion : string;
  PauseVersion : string;
  PauseRegistry : string;
  EnableSystemdCgroup : string;
  installSteps : list Step;
  uninstallSteps : list Step;
  upgradeSteps : list Step
}.

Definition setLocalRegistry (r : ContainerdRunnable) (v : string)
  : ContainerdRunnable :=
  mkContainerdRunnable (Version r) (Offline r) (DataRootDir r) (Registies r)
    (RegistryWithAuth r) (RegistryConfigDir r) v (KubeVersion r)
    (PauseVersion r) (PauseRegistry r) (EnableSystemdCgroup r)
    (installSteps r) (uninstallSteps r) (upgradeSteps r).

Definition setRegistryConfigDir (r : ContainerdRunnable) (v : string)
  : ContainerdRunnable :=
  mkContainerdRunnable (Version r) (Offline r) (DataRootDir r) (Registies r)
    (RegistryWithAuth r) v (LocalRegistry r) (KubeVersion r)
    (PauseVersion r) (PauseRegistry r) (EnableSystemdCgroup r)
    (installSteps r) (uninstallSteps r) (upgradeSteps r).

Definition setEnableSystemdCgroup (r : ContainerdRunnable) (v : string)
  : ContainerdRunnable :=
  mkContainerdRunnable (Version r) (Offline r) (DataRootDir r) (Registies r)
    (RegistryWithAuth r) (RegistryConfigDir r) (LocalRegistry r)
    (KubeVersion r) (PauseVersion r) (PauseRegistry r) v
    (installSteps r) (uninstallSteps r) (upgradeSteps r).

Definition setPause (r : ContainerdRunnable) (p : string * string)
  : ContainerdRunnable :=
  mkContainerdRunnable (Version r) (Offline r) (DataRootDir r) (Registies r)
    (RegistryWithAuth r) (RegistryConfigDir r) (LocalRegistry r)
    (KubeVersion r) p.1 p.2 (EnableSystemdCgroup r)
    (installSteps r) (uninstallSteps r) (upgradeSteps r).

Definition setInstallSteps (r : ContainerdRunnable) (l : list Step)
  : ContainerdRunnable :=
  mkContainerdRunnable (Version r) (Offline r) (DataRootDir r) (Registies r)
    (RegistryWithAuth r) (RegistryConfigDir r) (LocalRegistry r)
    (KubeVersion r) (PauseVersion r) (PauseRegistry r)
    (EnableSystemdCgroup r) l (uninstallSteps r) (upgradeSteps r).

Definition setUninstallSteps (r : ContainerdRunnable) (l : list Step)
  : ContainerdRunnable :=
  mkContainerdRunnable (Version r) (Offline r) (DataRootDir r) (Registies r)
    (RegistryWithAuth r) (RegistryConfigDir r) (LocalRegistry r)
    (KubeVersion r) (PauseVersion r) (PauseRegistry r)
    (EnableSystemdCgroup r) (installSteps r) l (upgradeSteps r).

(** [ContainerdRunnable.GetActionSteps]. *)
Definition GetActionSteps (runnable : ContainerdRunnable) (action : StepAction)
  : list Step :=
  match action with
  | ActionInstall => installSteps runnable
  | ActionUninstall => uninstallSteps runnable
  | ActionUpgrade => upgradeSteps runnable
  end.

(** [strconv.FormatBool]. *)
Definition FormatBool (b : bool) : string := if b then "true" else "false".

Definition containerdSystemdUnitName : string := "containerd.service".

(** The operations on the node that [Install] and [Uninstall] issue. *)
Inductive op : Type :=
| NewInstance (version : string) (online dryRun : bool)
| DownloadAndUnpackConfigs
| RemoveConfigs
| MkdirAll (dir : string)
| WriteConfig (file : string) (content : ContainerdRunnable) (dryRun : bool)
| RenderRegistryConfig (dir : string) (dryRun : bool)
| ReloadDeamon
| EnableUnit (unit : string)
| RestartUnit (unit : string)
| StopUnit (unit : string)
| DisableUnit (unit : string)
| RunCmd (dryRun : bool) (cmd : list string)
| RemoveAll (path : string).

Inductive error : Type :=
| OpFailed (o : op)
| RenderFailed (e : Cri.renderError).

(** The node as the operations see it: the operations issued so far and
    the entries of the registry configuration directory. *)
Definition world : Type := list op * gmap string Cri.dirent.

(** A computation on the node that may return early with an error. *)
Definition M (A : Type) : Type := world → world * (A + error).

Global Instance M_ret : MRet M := λ A a w, (w, inl a).

Global Instance M_bind : MBind M := λ A B f m w,
  match m w with
  | (w', inl a) => f a w'
  | (w', inr e) => (w', inr e)
  end.

(** Declarations that are not among the sources, and the answers of the
    node. *)
Record Env : Type := mkEnv {
  containerdDefaultConfigDir : string;
  containerdDefaultDataDir : string;
  ContainerdDefaultRegistryConfigDir : string;
  StringDefaultIfEmpty : string → string → string;
  GetRepoMirror : string;
  IsRunningSystemd : bool;
  fails : op → bool;
  faults : Cri.Faults;
  rangeOver : gmap string Cri.ContainerdRegistry →
              list (string * Cri.ContainerdRegistry)
}.

Section Node.
Variable env : Env.

(** An operation whose error is returned. *)
Definition call (o : op) : M unit := λ w,
  ((w.1 ++ [o], w.2), if fails env o then inr (OpFailed o) else inl ()).

(** An operation whose error is logged and ignored. *)
Definition attempt (o : op) : M unit := λ w, ((w.1 ++ [o], w.2), inl ()).

(** The call of [renderRegistryConfig] on the directory. *)
Definition renderRegistry (runnable : ContainerdRunnable) (dryRun : bool)
  : M unit := λ w,
  let o := RenderRegistryConfig (RegistryConfigDir runnable) dryRun in
  match Containerd.renderRegistryConfig (faults env) (rangeOver env)
          (Registies runnable) (RegistryConfigDir runnable) dryRun w.2 with
  | (entries, Some e) => ((w.1 ++ [o], entries), inr (RenderFailed e))
  | (entries, None) => ((w.1 ++ [o], entries), inl ())
  end.

(** [setupContainerdConfig]; it returns the runnable as it leaves it. *)
Definition setupContainerdConfig (runnable : ContainerdRunnable)
  (dryRun : bool) : M ContainerdRunnable :=
  let runnable :=
    if negb (Offline runnable) && String.eqb (LocalRegistry runnable) ""
    then setLocalRegistry runnable (GetRepoMirror env) else runnable in
  let runnable :=
    if String.eqb (RegistryConfigDir runnable) ""
    then setRegistryConfigDir runnable (ContainerdDefaultRegistryConfigDir env)
    else runnable in
  let cf := Cri.pathJoin (containerdDefaultConfigDir env) "config.toml" in
  call (MkdirAll (containerdDefaultConfigDir env)) ;;
  call (WriteConfig cf runnable dryRun) ;;
  renderRegistry runnable dryRun ;;
  mret runnable.

(** [enableContainerdService]. *)
Definition enableContainerdService (dryRun : bool) : M unit :=
  if dryRun then mret ()
  else
    call ReloadDeamon ;;
    call (EnableUnit containerdSystemdUnitName) ;;
    call (RestartUnit containerdSystemdUnitName).

(** [disableContainerdService]. *)
Definition disableContainerdService (dryRun : bool) : M unit :=
  if dryRun then mret ()
  else
    attempt (StopUnit containerdSystemdUnitName) ;;
    attempt (DisableUnit containerdSystemdUnitName).

Definition crictlConfig : list string :=
  ["crictl"; "config"; "runtime-endpoint"; "/run/containerd/containerd.sock"].

(** [ContainerdRunnable.Install]; the receiver is a copy, so what it
    changes in the runnable stays inside the call. *)
Definition Install (runnable : ContainerdRunnable) (dryRun : bool) : M unit :=
  call (NewInstance (Version runnable) (negb (Offline runnable)) dryRun) ;;
  call DownloadAndUnpackConfigs ;;
  let runnable :=
    setEnableSystemdCgroup runnable (FormatBool (IsRunningSystemd env)) in
  setupContainerdConfig runnable dryRun ;;
  enableContainerdService dryRun ;;
  call (RunCmd dryRun crictlConfig).

(** [ContainerdRunnable.Uninstall]. *)
Definition Uninstall (runnable : ContainerdRunnable) (dryRun : bool) : M unit :=
  disableContainerdService dryRun ;;
  call (NewInstance (Version runnable) (negb (Offline runnable)) dryRun) ;;
  attempt RemoveConfigs ;;
  attempt (RemoveAll "/run/containerd") ;;
  attempt (RemoveAll (StringDefaultIfEmpty env (containerdDefaultConfigDir env)
                        (DataRootDir runnable))) ;;
  attempt (RemoveAll (containerdDefaultConfigDir env)) ;;
  attempt (RemoveAll (containerdDefaultDataDir env)) ;;
  attempt ReloadDeamon.

(** The operations of [Install] when nothing fails, in order; the
    runnable written into [config.toml] is the one
    [setupContainerdConfig] completed. *)
Definition configured (runnable : ContainerdRunnable) : ContainerdRunnable :=
  let r := setEnableSystemdCgroup runnable (FormatBool (IsRunningSystemd env)) in
  let r := if negb (Offline r) && String.eqb (LocalRegistry r) ""
           then setLocalRegistry r (GetRepoMirror env) else r in
  if String.eqb (RegistryConfigDir r) ""
  then setRegistryConfigDir r (ContainerdDefaultRegistryConfigDir env) else r.

Definition installPlan (runnable : ContainerdRunnable) (dryRun : bool)
  : list op :=
  [NewInstance (Version runnable) (negb (Offline runnable)) dryRun;
   DownloadAndUnpackConfigs;
   MkdirAll (containerdDefaultConfigDir env);
   WriteConfig (Cri.pathJoin (containerdDefaultConfigDir env) "config.toml")
     (configured runnable) dryRun;
   RenderRegistryConfig (RegistryConfigDir (configured runnable)) dryRun] ++
  (if dryRun then []
   else [ReloadDeamon; EnableUnit containerdSystemdUnitName;
         RestartUnit containerdSystemdUnitName]) ++
  [RunCmd dryRun crictlConfig].

(** The removals of [Uninstall], in order. *)
Definition uninstallRemovals (runnable : ContainerdRunnable) : list op :=
  [RemoveConfigs;
   RemoveAll "/run/containerd";
   RemoveAll (StringDefaultIfEmpty env (containerdDefaultConfigDir env)
                (DataRootDir runnable));
   RemoveAll (containerdDefaultConfigDir env);
   RemoveAll (containerdDefaultDataDir env);
   ReloadDeamon].

(** An operation of the plan that stops [Install]. *)
Definition stops (entries : gmap string Cri.dirent)
  (runnable : ContainerdRunnable) (o : op) : Prop :=
  match o with
  | RenderRegistryConfig _ dryRun =>
      dryRun = false ∧
      ¬ Containerd.renderable (faults env) entries (Registies runnable)
  | _ => fails env o = true
  end.

End Node.

(** A run that follows a plan and stops at the first operation that
    fails: without error the whole plan was carried out and no
    operation of it stops; with an error the operations issued are those
    of the plan up to the first one that stops, and the error is that
    operation's. *)
Definition follows (plan : list op) (stop : op → Prop) (log : list op)
  (res : unit + error) : Prop :=
  match res with
  | inl _ => log = plan ∧ Forall (λ o, ¬ stop o) plan
  | inr e =>
      ∃ done o rest,
        plan = done ++ o :: rest ∧ log = done ++ [o] ∧
        Forall (λ o, ¬ stop o) done ∧ stop o ∧
        match o with
        | RenderRegistryConfig _ _ => ∃ re, e = RenderFailed re
        | _ => e = OpFailed o
        end
  end.

Definition sampleEnv (fails : op → bool) : Env :=
  mkEnv "/etc/containerd" "/var/lib/containerd" "/etc/containerd/certs.d"
    (λ def s, if String.eqb s "" then def else s)
    "mirror.local" true fails Cri.noFaults map_to_list.

(** [component.ExtraMetadata] and the fields of [v1.Cluster] that
    [InitStep] reads. *)
Record ExtraMetadata : Type := mkExtraMetadata {
  MetaOffline : bool;
  MetaLocalRegistry : string;
  MetaKubeVersion : string
}.

Record ClusterRuntime : Type := mkClusterRuntime {
  CRVersion : string;          (* cluster.ContainerRuntime.Version *)
  CRDataRootDir : string;      (* cluster.ContainerRuntime.DataRootDir *)
  KubernetesVersion : string   (* cluster.KubernetesVersion *)
}.

(** What [InitStep] takes from outside the sources: the pause table, the
    JSON encoder ([None] when it fails), the identifiers [GetUUID] hands
    out, by call, and the two registration keys. *)
Record Package : Type := mkPackage {
  k8sMatchPauseVersion : gmap string string;
  jsonMarshal : ContainerdRunnable → option string;
  GetUUID : nat → string;
  stepKey : string;        (* RegisterStepKeyFormat of containerd *)
  templateKey : string     (* RegisterTemplateKeyFormat of containerd *)
}.

Definition tenMinutes : Z := (10 * 60 * 1000000000)%Z.

Definition runtimeStep (id name : string) (nodes : list StepNode)
  (action : StepAction) (identity runtimeBytes : string) : Step :=
  {| ID := id;
     StepName := name;
     Timeout := tenMinutes;
     ErrIgnore := false;
     RetryTimes := 1;
     Nodes := nodes;
     Action := action;
     Commands := [{| CmdType := CommandCustom;
                     ShellCommand := [];
                     CustomCommand := runtimeBytes;
                     Identity := identity |}] |}.

(** [ContainerdRunnable.InitStep]: the runnable as the call leaves it.
    The error returned is always nil; a failure of the encoder is
    logged. *)
Definition InitStep (pkg : Package) (env : Env) (runnable : ContainerdRunnable)
  (metadata : ExtraMetadata) (cluster : ClusterRuntime)
  (nodes : list StepNode) (registries : list RegistrySpec)
  : Go.outcome ContainerdRunnable :=
  let runnable :=
    {| Version := CRVersion cluster;
       Offline := MetaOffline metadata;
       DataRootDir := StringDefaultIfEmpty env (containerdDefaultConfigDir env)
                        (CRDataRootDir cluster);
       Registies := registries;
       RegistryWithAuth := Containerd.FilterRegistryWithAuth registries;
       RegistryConfigDir :=
         if String.eqb (RegistryConfigDir runnable) ""
         then ContainerdDefaultRegistryConfigDir env
         else RegistryConfigDir runnable;
       LocalRegistry := MetaLocalRegistry metadata;
       KubeVersion := KubeVersion runnable;
       PauseVersion := PauseVersion runnable;
       PauseRegistry := PauseRegistry runnable;
       EnableSystemdCgroup := FormatBool (IsRunningSystemd env);
       installSteps := installSteps runnable;
       uninstallSteps := uninstallSteps runnable;
       upgradeSteps := upgradeSteps runnable |} in
  match Cri.matchPauseVersion (k8sMatchPauseVersion pkg)
          (MetaKubeVersion metadata) with
  | Go.Panic msg => Go.Panic msg
  | Go.Returned p =>
      let runnable := setPause runnable p in
      let runtimeBytes := default "" (jsonMarshal pkg runnable) in
      match
        (if String.eqb (PauseVersion runnable) ""
         then Cri.matchPauseVersion (k8sMatchPauseVersion pkg)
                (KubernetesVersion cluster)
         else Go.Returned (PauseVersion runnable, PauseRegistry runnable))
      with
      | Go.Panic msg => Go.Panic msg
      | Go.Returned p' =>
          let runnable := setPause runnable p' in
          let '(runnable, calls) :=
            if length (installSteps runnable) =? 0
            then (setInstallSteps runnable
                    [runtimeStep (GetUUID pkg 0) "installRuntime" nodes
                       ActionInstall (stepKey pkg) runtimeBytes], 1)
            else (runnable, 0) in
          let runnable :=
            if length (uninstallSteps runnable) =? 0
            then setUninstallSteps runnable
                   [runtimeStep (GetUUID pkg calls) "uninstallRuntime" nodes
                      ActionUninstall (templateKey pkg) runtimeBytes]
            else runnable in
          Go.Returned runnable
      end
  end.

(** The runnable as it is when [InitStep] encodes it: the result with
    the steps it came with and the pause image of the first lookup. *)
Definition encoded (before after : ContainerdRunnable)
  (first : string * string) : ContainerdRunnable :=
  setPause
    (setInstallSteps (setUninstallSteps after (uninstallSteps before))
       (installSteps before))
    first.

(** A version on which [matchPauseVersion] slices past the end. *)
Definition tooShort (kubeVersion : string) : Prop :=
  kubeVersion ≠ "" ∧ Cri.runeCount (Cri.stripVersion kubeVersion) < 3.

Definition samplePackage : Package :=
  mkPackage Cri.samplePauseTable
    (λ r, Some ("pause=" +:+ PauseVersion r))
    (λ n, if n =? 0 then "uuid-0" else "uuid-1")
    "containerd/v1/step" "containerd/v1/template".

(** A node on which the unit cannot be enabled. *)
Definition enableFails (o : op) : bool :=
  match o with EnableUnit _ => true | _ => false end.

Definition sampleRunnable : ContainerdRunnable :=
  mkContainerdRunnable "1.6.4" false "" Containerd.sampleRegistries [] ""
    "" "v1.25.4" "" "" "" [] [] [].

End Runtime.

(** ** More of the calico component: [InitStep] *)

Module CalicoInit.

(** [v1.Calico], [v1.CNI], [v1.Networking] and [component.ExtraMetadata]
    with the fields [InitStep] reads; [Calico] is a pointer. *)
Record Calico : Type := mkCalico {
  IPv4AutoDetection : string;
  IPv6AutoDetection : string;
  Mode : string
}.

Record CNI : Type := mkCNI {
  CniLocalRegistry : string;
  CniType : string;
  CniVersion : string;
  CniOffline : bool;
  CniNamespace : string;
  CniCalico : option Calico
}.

Record Networking : Type := mkNetworking {
  IPFamily : string;
  CIDRBlocks : list string   (* Pods.CIDRBlocks *)
}.

Record ExtraMetadata : Type := mkExtraMetadata {
  MetaKubeletDataDir : string;
  MetaCRI : string
}.

Record NodeAddressDetection : Type := mkNodeAddressDetection {
  DetectionType : string;
  DetectionValue : string
}.

(** The [CalicoRunnable] that [InitStep] fills in: the fields of the
    copied [CNI], which the embedding promotes, and those of [BaseCni]
    and of the runnable itself. *)
Record Stepper : Type := mkStepper {
  LocalRegistry : string;
  Type_ : string;
  Version : string;
  Offline : bool;
  Namespace : string;
  CalicoConfig : option Calico;
  CriType : string;
  DualStack : bool;
  PodIPv4CIDR : string;
  PodIPv6CIDR : string;
  KubeletDataDir : string;
  NodeAddressDetectionV4 : NodeAddressDetection;
  NodeAddressDetectionV6 : NodeAddressDetection
}.

Section InitStep.
(** [v1.IPFamilyDualStack] and [ParseNodeAddressDetection] are declared
    outside the sources. *)
Variable IPFamilyDualStack : string.
Variable ParseNodeAddressDetection : string → NodeAddressDetection.

(** [CalicoRunnable.InitStep], for pointers [metadata], [cni] and
    [networking] that are not nil.  The index expressions and the
    dereference of [cni.Calico] panic in the order of the statements;
    the messages are those of the runtime without the length. *)
Definition InitStep (metadata : ExtraMetadata) (cni : CNI)
  (networking : Networking) : Go.outcome Stepper :=
  let dual := String.eqb (IPFamily networking) IPFamilyDualStack in
  match (if dual
         then match CIDRBlocks networking !! 1 with
              | Some b => Go.Returned b
              | None => Go.Panic "index out of range [1]"
              end
         else Go.Returned "") with
  | Go.Panic msg => Go.Panic msg
  | Go.Returned ipv6 =>
      match CIDRBlocks networking !! 0 with
      | None => Go.Panic "index out of range [0]"
      | Some ipv4 =>
          match CniCalico cni with
          | None => Go.Panic "invalid memory address or nil pointer dereference"
          | Some calico =>
              Go.Returned
                {| LocalRegistry := CniLocalRegistry cni;
                   Type_ := "calico";
                   Version := CniVersion cni;
                   Offline := CniOffline cni;
                   Namespace := CniNamespace cni;
                   CalicoConfig := CniCalico cni;
                   CriType := MetaCRI metadata;
                   DualStack := dual;
                   PodIPv4CIDR := ipv4;
                   PodIPv6CIDR := ipv6;
                   KubeletDataDir := MetaKubeletDataDir metadata;
                   NodeAddressDetectionV4 :=
                     ParseNodeAddressDetection (IPv4AutoDetection calico);
                   NodeAddressDetectionV6 :=
                     ParseNodeAddressDetection (IPv6AutoDetection calico) |}
          end
      end
  end.

End InitStep.

Definition sampleCNI : CNI :=
  mkCNI "" "calico" "v3.26.1" false "kube-system"
    (Some (mkCalico "first-found" "first-found" "Overlay-Vxlan-All")).

Definition sampleParse (s : string) : NodeAddressDetection :=
  mkNodeAddressDetection s "".

End CalicoInit.

(** ** Re-running the trust-store reconciliation *)

(** The files of the host directory [s], none if it is missing. *)
Definition filesAt (entries : gmap string Cri.dirent) (s : string)
  : gmap string Cri.fileData :=
  match entries !! s with
  | Some (Cri.Dir files) => files
  | _ => ∅
  end.

(** What a successful [renderConfigs] of a registry writes: the CA files
    of its endpoints and [hosts.toml]. *)
Definition writes (dir : string) (r : Cri.ContainerdRegistry)
  : gmap string Cri.fileData :=
  let st := foldl (Containerd.writeStep (Cri.pathJoin dir (Cri.Server r)))
              (∅, ∅) (Cri.Hosts r) in
  <["hosts.toml" := Cri.HostsToml {| Cri.HFServer := Cri.Server r;
                                     Cri.HostConfigs := st.2 |}]> st.1.

(** What the registries of server [s] write into its host directory, the
    later ones over the earlier ones. *)
Fixpoint overlay (dir s : string)
  (regs : list (string * Cri.ContainerdRegistry)) : gmap string Cri.fileData :=
  match regs with
  | [] => ∅
  | kr :: rest =>
      if decide (Cri.Server kr.2 = s)
      then overlay dir s rest ∪ writes dir kr.2
      else overlay dir s rest
  end.

(** The registries can be rendered over the entries. *)
Definition renderableOver (F : Cri.Faults) (entries : gmap string Cri.dirent)
  (regs : list (string * Cri.ContainerdRegistry)) : Prop :=
  ∀ kr, kr ∈ regs →
    (∀ raw, entries !! Cri.Server kr.2 ≠ Some (Cri.File raw)) ∧
    Containerd.hostFaultFree F kr.2.

(** The host directories of the store that belong to no registry. *)
Definition staleDirs (regs : list (string * Cri.ContainerdRegistry))
  (fs : Cri.store) : gset string :=
  Cri.dirNames (Cri.entriesOf fs) ∖ Cri.servers regs.

(** Sample data: two registries of one server and a stale directory whose
    removal fails. *)
Definition twoForOne : Cri.ContainerdRegistryConfigure :=
  Cri.mkContainerdRegistryConfigure
    [("k1", Cri.mkContainerdRegistry "reg.local"
              [Containerd.hostOf (httpSpec "reg.local")]);
     ("k2", Containerd.caRegistry)]
    "/etc/containerd/certs.d".

(** A node on which no host directory can be made. *)
Definition mkdirFails : Cri.Faults :=
  Cri.mkFaults None (fun _ => true) (fun _ _ => false) (fun _ => false)
    (fun _ => false) (fun _ => false) false false false.

(** ** Re-running the registry reconciliation *)

(** What one entry of the explicit list adds to the merged set. *)
Definition mergeEntry (h : handler) (m : list RegistrySpec) (reg : CRIRegistry)
  : list RegistrySpec :=
  match classify h reg with
  | Literal =>
      appendUniqueRegistry m
        [httpSpec (InsecureRegistry reg); httpsSkipSpec (InsecureRegistry reg)]
  | Resolved spec => appendUniqueRegistry m [spec]
  | Stale | Broken _ _ => m
  end.

(** A node on which nothing can be encoded into [hosts.toml]. *)
Definition encodeFails : Cri.Faults :=
  Cri.mkFaults None (fun _ => false) (fun _ _ => false) (fun _ => false)
    (fun _ => true) (fun _ => false) false false false.

(** * Proofs *)

(** ** String order *)

Lemma compare_refl s : String.compare s s = Eq.
Proof. by apply OrderedTypeEx.String_as_OT.cmp_eq. Qed.

Lemma compare_Eq_iff a b : String.compare a b = Eq ↔ a = b.
Proof. apply OrderedTypeEx.String_as_OT.cmp_eq. Qed.

Lemma compare_Gt_Lt a b : String.compare a b = Gt ↔ String.compare b a = Lt.
Proof.
  rewrite (String.compare_antisym b a).
  destruct (String.compare a b); simpl; split; congruence.
Qed.

Lemma keyLt_trans a b c : keyLt a b → keyLt b c → keyLt a c.
Proof.
  unfold keyLt. rewrite !OrderedTypeEx.String_as_OT.cmp_lt.
  apply OrderedTypeEx.String_as_OT.lt_trans.
Qed.

Lemma keyLt_irrefl a : ¬ keyLt a a.
Proof. unfold keyLt. rewrite compare_refl. discriminate. Qed.

Lemma keyLt_asym a b : keyLt a b → ¬ keyLt b a.
Proof. intros H1 H2. exact (keyLt_irrefl a (keyLt_trans _ _ _ H1 H2)). Qed.

Lemma stringsCompare_pos a b : (0 < Go.stringsCompare a b)%Z ↔ keyLt b a.
Proof.
  unfold Go.stringsCompare, keyLt. rewrite <- compare_Gt_Lt.
  destruct (String.compare a b); split; intros; try lia; congruence.
Qed.

Lemma stringsCompare_zero a b : Go.stringsCompare a b = 0%Z ↔ a = b.
Proof.
  unfold Go.stringsCompare. rewrite <- compare_Eq_iff.
  destruct (String.compare a b); split; intros; try lia; congruence.
Qed.

Lemma stringsCompare_neg a b : (Go.stringsCompare a b < 0)%Z ↔ keyLt a b.
Proof.
  unfold Go.stringsCompare, keyLt.
  destruct (String.compare a b); split; intros; try lia; congruence.
Qed.

Lemma stringsCompare_nonpos a b :
  (Go.stringsCompare a b ≤ 0)%Z ↔ a = b ∨ keyLt a b.
Proof.
  rewrite <- stringsCompare_zero, <- stringsCompare_neg. lia.
Qed.

(** ** Binary search *)

Lemma half_bounds i j : i < j → i ≤ (i + j) / 2 ∧ (i + j) / 2 < j.
Proof.
  intros Hij.
  pose proof (Nat.div_mod_eq (i + j) 2) as Hdm.
  pose proof (Nat.mod_upper_bound (i + j) 2 ltac:(lia)) as Hm.
  lia.
Qed.

Lemma findLoop_spec (cmp : nat → Z) n fuel : ∀ i j,
  (∀ a b, a < b → b < n → (cmp a ≤ 0)%Z → (cmp b ≤ 0)%Z) →
  i ≤ j → j ≤ n → j - i ≤ fuel →
  (∀ k, k < i → (0 < cmp k)%Z) →
  (∀ k, j ≤ k → k < n → (cmp k ≤ 0)%Z) →
  Go.findLoop fuel cmp i j ≤ n ∧
  (∀ k, k < Go.findLoop fuel cmp i j → (0 < cmp k)%Z) ∧
  (∀ k, Go.findLoop fuel cmp i j ≤ k → k < n → (cmp k ≤ 0)%Z).
Proof.
  induction fuel as [|fuel IH]; intros i j Hmono Hij Hjn Hfuel Hlo Hhi;
    cbn [Go.findLoop].
  - assert (i = j) as -> by lia. auto.
  - destruct (Nat.ltb_spec i j) as [Hlt|Hge].
    + destruct (half_bounds i j Hlt) as [Hh1 Hh2].
      destruct (Z.ltb_spec 0 (cmp ((i + j) / 2))) as [Hpos|Hnp].
      * apply IH; try lia; auto.
        intros k Hk.
        destruct (Z.ltb_spec 0 (cmp k)) as [|Hk0]; [done|].
        destruct (decide (k = (i + j) / 2)) as [->|Hne]; [lia|].
        assert (cmp ((i + j) / 2)%nat ≤ 0)%Z; [|lia].
        apply (Hmono k); [lia|lia|done].
      * apply IH; try lia; auto.
        intros k Hk Hkn.
        destruct (decide (k = (i + j) / 2)) as [->|Hne]; [done|].
        apply (Hmono ((i + j) / 2)); [lia|done|done].
    + assert (i = j) as -> by lia. auto.
Qed.

Lemma sortFind_spec (cmp : nat → Z) n :
  (∀ a b, a < b → b < n → (cmp a ≤ 0)%Z → (cmp b ≤ 0)%Z) →
  (Go.sortFind n cmp).1 ≤ n ∧
  (∀ k, k < (Go.sortFind n cmp).1 → (0 < cmp k)%Z) ∧
  (∀ k, (Go.sortFind n cmp).1 ≤ k → k < n → (cmp k ≤ 0)%Z) ∧
  ((Go.sortFind n cmp).2 = true ↔
     (Go.sortFind n cmp).1 < n ∧ cmp (Go.sortFind n cmp).1 = 0%Z).
Proof.
  intros Hmono. unfold Go.sortFind; simpl.
  destruct (findLoop_spec cmp n n 0 n Hmono) as (H1 & H2 & H3);
    [lia|lia|lia|intros; lia|intros; lia|].
  split; [done|]. split; [done|]. split; [done|]. split.
  - intros [Ha Hb]%andb_true_iff.
    apply Nat.ltb_lt in Ha. apply Z.eqb_eq in Hb. done.
  - intros [Ha Hb]. apply andb_true_iff. split.
    + by apply Nat.ltb_lt.
    + by apply Z.eqb_eq.
Qed.

(** ** The ordered insert *)

Section OrderedInsert.
Context {A : Type} (key : A → string).

Lemma sortedBy_lookup l a b x y :
  sortedBy key l → a < b → l !! a = Some x → l !! b = Some y →
  keyLt (key x) (key y).
Proof.
  intros Hs. revert a b. induction Hs as [|z l Hs IH Hall]; intros a b Hab Ha Hb.
  - done.
  - destruct b as [|b]; [lia|]. destruct a as [|a]; simpl in *.
    + inversion Ha; subst. rewrite Forall_forall in Hall.
      apply Hall. by eapply list_elem_of_lookup_2.
    + apply (IH a b); [lia|done|done].
Qed.

Lemma shiftInsert_eq (l : list A) idx x :
  idx < length l → Go.shiftInsert l idx x = take idx l ++ x :: drop idx l.
Proof.
  intros Hidx. unfold Go.shiftInsert.
  destruct (lookup_lt_is_Some_2 l idx Hidx) as [y Hy].
  replace (idx + 1) with (S idx) by lia.
  rewrite (take_S_r _ _ _ Hy), <- app_assoc. simpl.
  assert (length (take idx l) = idx) as Hlen by (rewrite length_take; lia).
  rewrite <- Hlen at 1.
  rewrite (insert_app_r_alt (take idx l) _ (length (take idx l))); [|lia].
  by rewrite Nat.sub_diag.
Qed.

(** What the insert does to a sorted list: it splits it at the position
    of the key and either finds the key there or puts the element in. *)
Lemma orderedInsert_spec l x :
  sortedBy key l →
  ∃ l1 l2, l = l1 ++ l2 ∧
    Forall (fun y => keyLt (key y) (key x)) l1 ∧
    ((orderedInsert key l x = l ∧
        ∃ y l2', l2 = y :: l2' ∧ key y = key x) ∨
     (orderedInsert key l x = l1 ++ x :: l2 ∧
        Forall (fun y => keyLt (key x) (key y)) l2)).
Proof.
  intros Hs. unfold orderedInsert.
  set (cmp := fun i => Go.stringsCompare (key x) (from_option key "" (l !! i))).
  assert (Hmono : ∀ a b, a < b → b < length l →
            (cmp a ≤ 0)%Z → (cmp b ≤ 0)%Z).
  { intros a b Hab Hb Ha. unfold cmp in *.
    destruct (lookup_lt_is_Some_2 l a ltac:(lia)) as [ya Hya].
    destruct (lookup_lt_is_Some_2 l b Hb) as [yb Hyb].
    rewrite Hya in Ha. rewrite Hyb. simpl in *.
    apply stringsCompare_nonpos. right.
    pose proof (sortedBy_lookup l a b ya yb Hs Hab Hya Hyb) as Hlt.
    apply stringsCompare_nonpos in Ha as [->|Ha]; [done|].
    by eapply keyLt_trans. }
  destruct (sortFind_spec cmp (length l) Hmono) as (Hle & Hlo & Hhi & Hok).
  destruct (Go.sortFind (length l) cmp) as [idx ok]; simpl in *.
  exists (take idx l), (drop idx l). split; [by rewrite take_drop|].
  split.
  { apply Forall_lookup. intros i y Hy.
    assert (i < idx).
    { apply lookup_lt_Some in Hy. rewrite length_take in Hy. lia. }
    rewrite lookup_take_lt in Hy by done.
    specialize (Hlo i ltac:(done)). unfold cmp in Hlo. rewrite Hy in Hlo.
    by apply stringsCompare_pos in Hlo. }
  destruct ok.
  - left. split; [done|].
    destruct Hok as [Hok _]. destruct (Hok eq_refl) as [Hlt Hz].
    destruct (lookup_lt_is_Some_2 l idx Hlt) as [y Hy].
    exists y, (drop (S idx) l). split.
    + by apply drop_S.
    + unfold cmp in Hz. rewrite Hy in Hz. simpl in Hz.
      by apply stringsCompare_zero in Hz.
  - right.
    assert (Hall : Forall (fun y => keyLt (key x) (key y)) (drop idx l)).
    { apply Forall_lookup. intros i y Hy. rewrite lookup_drop in Hy.
      assert (idx + i < length l) by (by eapply lookup_lt_Some).
      pose proof (Hhi (idx + i) ltac:(lia) ltac:(done)) as Hi.
      unfold cmp in Hi. rewrite Hy in Hi. simpl in Hi.
      apply stringsCompare_nonpos in Hi as [Heq|Hlt]; [|done].
      destruct i as [|i].
      - exfalso. rewrite Nat.add_0_r in Hy.
        assert (false = true); [|done].
        apply Hok. split; [lia|]. unfold cmp. rewrite Hy. simpl.
        by apply stringsCompare_zero.
      - destruct (lookup_lt_is_Some_2 l idx ltac:(lia)) as [y0 Hy0].
        pose proof (sortedBy_lookup l idx (idx + S i) y0 y Hs
                      ltac:(lia) Hy0 Hy) as Hlt.
        pose proof (Hhi idx ltac:(lia) ltac:(lia)) as Hi0.
        unfold cmp in Hi0. rewrite Hy0 in Hi0. simpl in Hi0.
        apply stringsCompare_nonpos in Hi0 as [Heq'|Hlt'].
        + rewrite Heq'. done.
        + by eapply keyLt_trans. }
    split; [|done].
    destruct (Nat.eqb_spec idx (length l)) as [->|Hne].
    + rewrite firstn_all, drop_all. done.
    + apply shiftInsert_eq. lia.
Qed.

Lemma orderedInsert_sorted l x : sortedBy key l → sortedBy key (orderedInsert key l x).
Proof.
  intros Hs.
  destruct (orderedInsert_spec l x Hs) as (l1 & l2 & -> & H1 & [[-> _]|[-> H2]]);
    [done|].
  unfold sortedBy in *. apply StronglySorted_app in Hs as (H12 & Hs1 & Hs2).
  apply StronglySorted_app. split_and!; [|done|].
  - intros a b Ha Hb. apply elem_of_cons in Hb as [->|Hb].
    + rewrite Forall_forall in H1. by apply H1.
    + by apply H12.
  - by constructor.
Qed.

Lemma orderedInsert_mono l x y : y ∈ l → y ∈ orderedInsert key l x.
Proof.
  unfold orderedInsert.
  destruct (Go.sortFind _ _) as [idx ok]. destruct ok; [done|].
  destruct (Nat.eqb_spec idx (length l)) as [->|Hne]; intros Hy.
  - set_solver.
  - destruct (decide (idx < length l)) as [Hlt|Hge].
    + rewrite shiftInsert_eq by done.
      rewrite <- (take_drop idx l) in Hy. set_solver.
    + unfold Go.shiftInsert.
      rewrite firstn_all2, drop_ge, app_nil_r by lia.
      rewrite list_insert_ge by lia. done.
Qed.

Lemma orderedInsert_from l x y :
  y ∈ orderedInsert key l x → y = x ∨ y ∈ l.
Proof.
  unfold orderedInsert.
  destruct (Go.sortFind _ _) as [idx ok]. destruct ok; [auto|].
  destruct (Nat.eqb_spec idx (length l)) as [->|Hne]; intros Hy.
  - set_solver.
  - destruct (decide (idx < length l)) as [Hlt|Hge].
    + rewrite shiftInsert_eq in Hy by done.
      rewrite <- (take_drop idx l). set_solver.
    + unfold Go.shiftInsert in Hy.
      rewrite firstn_all2, drop_ge, app_nil_r in Hy by lia.
      rewrite list_insert_ge in Hy by lia. auto.
Qed.

(** After the insert the key is present: the element itself, or the
    entry that already carried its key. *)
Lemma orderedInsert_present l x :
  sortedBy key l →
  x ∈ orderedInsert key l x ∨ (∃ y, y ∈ l ∧ key y = key x).
Proof.
  intros Hs.
  destruct (orderedInsert_spec l x Hs)
    as (l1 & l2 & -> & H1 & [[_ (y & l2' & -> & Hy)]|[-> H2]]).
  - right. exists y. split; [set_solver|done].
  - left. set_solver.
Qed.

End OrderedInsert.

(** ** [appendUniqueRegistry] *)

Lemma appendUnique1_orderedInsert s r :
  appendUnique1 s r = orderedInsert regKey s r.
Proof. reflexivity. Qed.

Lemma insertMirror_orderedInsert l m : insertMirror l m = orderedInsert id l m.
Proof. reflexivity. Qed.

Lemma sortedBy_keys s : sortedBy regKey s ↔ NoDupKeys s ∧ AscendingKeys s.
Proof.
  split.
  - intros Hs. split.
    + intros i j x y Hij Hx Hy Heq.
      destruct (decide (i < j)) as [Hlt|Hge].
      * pose proof (sortedBy_lookup regKey s i j x y Hs Hlt Hx Hy) as Hk.
        rewrite Heq in Hk. by apply keyLt_irrefl in Hk.
      * pose proof (sortedBy_lookup regKey s j i y x Hs ltac:(lia) Hy Hx) as Hk.
        rewrite Heq in Hk. by apply keyLt_irrefl in Hk.
    + intros i j x y Hij Hx Hy. apply stringsCompare_nonpos.
      destruct (decide (i = j)) as [->|Hne].
      * left. congruence.
      * right. apply (sortedBy_lookup regKey s i j x y Hs); [lia|done|done].
  - intros [Hnd Hasc]. induction s as [|a s IH]; [constructor|].
    constructor.
    + apply IH.
      * intros i j x y Hij Hx Hy. apply (Hnd (S i) (S j)); [lia|done|done].
      * intros i j x y Hij Hx Hy. apply (Hasc (S i) (S j)); [lia|done|done].
    + apply Forall_lookup. intros i y Hy.
      pose proof (Hasc 0 (S i) a y ltac:(lia) eq_refl Hy) as Hle.
      apply stringsCompare_nonpos in Hle as [Heq|Hlt]; [|done].
      exfalso. by apply (Hnd 0 (S i) a y).
Qed.

Lemma appendUniqueRegistry_sortedBy items : ∀ s,
  sortedBy regKey s → sortedBy regKey (appendUniqueRegistry s items).
Proof.
  induction items as [|r items IH]; intros s Hs; [done|].
  apply IH. rewrite appendUnique1_orderedInsert. by apply orderedInsert_sorted.
Qed.

Lemma appendUniqueRegistry_mono items : ∀ s y,
  y ∈ s → y ∈ appendUniqueRegistry s items.
Proof.
  induction items as [|r items IH]; intros s y Hy; [done|].
  apply IH. rewrite appendUnique1_orderedInsert. by apply orderedInsert_mono.
Qed.

Lemma appendUniqueRegistry_from items : ∀ s y,
  y ∈ appendUniqueRegistry s items → y ∈ items ∨ y ∈ s.
Proof.
  induction items as [|r items IH]; intros s y Hy; [by right|].
  apply IH in Hy as [Hy|Hy]; [left; by right|].
  rewrite appendUnique1_orderedInsert in Hy.
  apply orderedInsert_from in Hy as [->|Hy]; [left; by left|by right].
Qed.

(** C1 (as amended): started from a list that has no two entries with the
    same identity key and is in ascending key order, [appendUniqueRegistry]
    returns, for any sequence of items, a list with the same two
    properties. *)
Theorem appendUniqueRegistry_keeps_order s items :
  NoDupKeys s → AscendingKeys s →
  NoDupKeys (appendUniqueRegistry s items) ∧
  AscendingKeys (appendUniqueRegistry s items).
Proof.
  intros Hnd Hasc. apply sortedBy_keys, appendUniqueRegistry_sortedBy.
  by apply sortedBy_keys.
Qed.

Lemma appendUniqueRegistry_keeps_order_witness :
  NoDupKeys (appendUniqueRegistry []
    [httpSpec "b"; httpSpec "a"; httpsSkipSpec "a"; httpSpec "b"]) ∧
  AscendingKeys (appendUniqueRegistry []
    [httpSpec "b"; httpSpec "a"; httpsSkipSpec "a"; httpSpec "b"]).
Proof.
  apply (appendUniqueRegistry_keeps_order []).
  - intros i j x y _ Hx. by rewrite lookup_nil in Hx.
  - intros i j x y _ Hx. by rewrite lookup_nil in Hx.
Defined.

(** C1 as stated fails: an unordered start is neither repaired nor
    protected from a second copy of a key. *)
Lemma appendUniqueRegistry_unsorted_start :
  appendUniqueRegistry [httpSpec "b"; httpSpec "a"] [httpSpec "a"]
    = [httpSpec "a"; httpSpec "b"; httpSpec "a"] ∧
  ¬ NoDupKeys
      (appendUniqueRegistry [httpSpec "b"; httpSpec "a"] [httpSpec "a"]) ∧
  ¬ AscendingKeys
      (appendUniqueRegistry [httpSpec "b"; httpSpec "a"] [httpSpec "a"]).
Proof.
  split; [reflexivity|]. split.
  - intros H. by apply (H 0 2 (httpSpec "a") (httpSpec "a")).
  - intros H.
    pose proof (H 1 2 (httpSpec "b") (httpSpec "a") ltac:(lia) eq_refl eq_refl)
      as Hle.
    vm_compute in Hle. by apply Hle.
Qed.

(** ** The diff check *)

Lemma elementsEqual_true a : ∀ b,
  length a = length b → (elementsEqual a b = true ↔ a = b).
Proof.
  induction a as [|x a IH]; intros [|y b] Hlen; simpl in *; try done.
  destruct (decide (x = y)) as [->|Hne].
  - rewrite IH by lia. split; [by intros ->|by intros [= ->]].
  - split; [done|by intros [= -> _]].
Qed.

Lemma registriesEqual_true a b : registriesEqual a b = true ↔ a = b.
Proof.
  unfold registriesEqual. destruct (Nat.eqb_spec (length a) (length b)) as [H|H].
  - by apply elementsEqual_true.
  - split; [done|]. intros ->. done.
Qed.

Lemma lists_differ (a : list RegistrySpec) : ∀ b,
  a ≠ b ↔
  length a ≠ length b ∨ ∃ i x y, a !! i = Some x ∧ b !! i = Some y ∧ x ≠ y.
Proof.
  induction a as [|x a IH]; intros [|y b]; simpl.
  - split; [done|]. intros [H|(i & x & y & H & _)]; done.
  - split; [by left|done].
  - split; [by left|done].
  - split.
    + intros Hne. destruct (decide (x = y)) as [->|Hxy].
      * assert (a ≠ b) as Hab by congruence.
        apply IH in Hab as [Hl|(i & x' & y' & Hx & Hy & Hd)].
        -- left. lia.
        -- right. by exists (S i), x', y'.
      * right. by exists 0, x, y.
    + intros [Hl|(i & x' & y' & Hx & Hy & Hd)] [= -> ->].
      * done.
      * apply Hd. congruence.
Qed.

(** C2: the diff check asks for an update exactly when the two sequences
    differ in length or at some index; it never does for a sequence
    against itself; and when it reports equal, [getCRIRegistriesStep]
    returns no step and no error. *)
Theorem NeedsUpdate_iff_differ (h : handler) (label : string) :
  (∀ a b, NeedsUpdate a b = true ↔
     length a ≠ length b ∨
     ∃ i x y, a !! i = Some x ∧ b !! i = Some y ∧ x ≠ y) ∧
  (∀ a, NeedsUpdate a a = false) ∧
  (∀ cluster registries,
     NeedsUpdate (StatusRegistries cluster) registries = false →
     getCRIRegistriesStep h label cluster registries
       = Go.Returned (None, None)).
Proof.
  split_and!.
  - intros a b. rewrite <- lists_differ. unfold NeedsUpdate.
    rewrite negb_true_iff, <- not_true_iff_false, registriesEqual_true. done.
  - intros a. unfold NeedsUpdate.
    by rewrite negb_false_iff, registriesEqual_true.
  - intros cluster registries Hn. unfold getCRIRegistriesStep.
    unfold NeedsUpdate in Hn. by rewrite Hn.
Qed.

Lemma NeedsUpdate_iff_differ_witness :
  getCRIRegistriesStep sampleHandler "cluster"
    (mkCluster "c1" [] [] [] [httpSpec "a"]) [httpSpec "a"]
  = Go.Returned (None, None).
Proof.
  apply (NeedsUpdate_iff_differ sampleHandler "cluster"). reflexivity.
Defined.

(** ** The update step *)

Lemma wrapLoop_panics n nodes : wrapLoop [] (n :: nodes) 0
  = Go.Panic "index out of range".
Proof. reflexivity. Qed.

(** C6: whenever the sequences differ and node discovery returns at least
    one node, [getCRIRegistriesStep] panics: [criRegistryUpdateStep] makes
    [wrapNodes] with length 0 and then assigns to [wrapNodes[0]]. *)
Theorem getCRIRegistriesStep_panics (h : handler) (label : string)
  cluster registries nodes :
  NeedsUpdate (StatusRegistries cluster) registries = true →
  ListNodes h (clusterSelector label cluster) = inl nodes →
  nodes ≠ [] →
  getCRIRegistriesStep h label cluster registries
    = Go.Panic "index out of range".
Proof.
  intros Hn Hl Hne. unfold getCRIRegistriesStep.
  unfold NeedsUpdate in Hn. rewrite Hn, Hl.
  destruct nodes as [|n nodes]; [done|].
  unfold criRegistryUpdateStep. by rewrite wrapLoop_panics.
Qed.

Lemma getCRIRegistriesStep_panics_witness :
  getCRIRegistriesStep sampleHandler "cluster"
    (mkCluster "c1" [] [] [] []) [httpSpec "a"]
  = Go.Panic "index out of range".
Proof.
  apply (getCRIRegistriesStep_panics sampleHandler "cluster" _ _
           [mkNode "n1"; mkNode "n2"]); [reflexivity|reflexivity|done].
Defined.

(** ** The loop over the explicit registry list *)

Section Reconcile.
Variable h : handler.

Lemma registryStep_cases st i reg :
  backing st !! i = Some reg →
  match classify h reg with
  | Literal =>
      registryStep h st i = inl (pushValid (setMerged st
        (appendUniqueRegistry (merged st)
           [httpSpec (InsecureRegistry reg);
            httpsSkipSpec (InsecureRegistry reg)]))
        {| InsecureRegistry := InsecureRegistry reg; RegistryRef := None |})
  | Resolved spec =>
      registryStep h st i = inl (pushValid (setMerged st
        (appendUniqueRegistry (merged st) [spec])) reg)
  | Stale => registryStep h st i = inl st
  | Broken ref e => registryStep h st i = inr (ErrGetRegistry ref e)
  end.
Proof.
  intros Hreg. unfold registryStep, classify. rewrite Hreg.
  destruct (RegistryRef reg) as [[|a ref]|]; [done| |done].
  cbn [String.eqb].
  destruct (GetRegistry h (String a ref)) as [spec|e]; [done|].
  by destruct (IsNotFound e).
Qed.

Lemma registryStep_out_of_range st i :
  backing st !! i = None → registryStep h st i = inl st.
Proof. intros Hn. unfold registryStep. by rewrite Hn. Qed.

(** The merged set stays sorted and only grows along a step. *)
Lemma registryStep_merged st i st' :
  registryStep h st i = inl st' →
  sortedBy regKey (merged st) →
  sortedBy regKey (merged st') ∧ (∀ y, y ∈ merged st → y ∈ merged st').
Proof.
  intros Hstep Hs. destruct (backing st !! i) as [reg|] eqn:Hreg.
  - pose proof (registryStep_cases st i reg Hreg) as Hc.
    destruct (classify h reg); rewrite Hc in Hstep; simplify_eq;
      cbn [merged pushValid setMerged].
    + split; [by apply appendUniqueRegistry_sortedBy|].
      intros y. apply appendUniqueRegistry_mono.
    + split; [by apply appendUniqueRegistry_sortedBy|].
      intros y. apply appendUniqueRegistry_mono.
    + done.
  - rewrite registryStep_out_of_range in Hstep by done. by simplify_eq.
Qed.

Lemma registryLoop_merged idxs : ∀ st st',
  registryLoop h st idxs = (st', None) →
  sortedBy regKey (merged st) →
  sortedBy regKey (merged st') ∧ (∀ y, y ∈ merged st → y ∈ merged st').
Proof.
  induction idxs as [|i idxs IH]; intros st st' Hloop Hs; simpl in Hloop.
  - by simplify_eq.
  - destruct (registryStep h st i) as [st1|e] eqn:Hstep; [|done].
    destruct (registryStep_merged st i st1 Hstep Hs) as [Hs1 Hm1].
    destruct (IH st1 st' Hloop Hs1) as [Hs' Hm']. split; [done|].
    intros y Hy. by apply Hm', Hm1.
Qed.

Lemma registryLoop_app idxs1 : ∀ st idxs2,
  registryLoop h st (idxs1 ++ idxs2) =
  match registryLoop h st idxs1 with
  | (st', None) => registryLoop h st' idxs2
  | r => r
  end.
Proof.
  induction idxs1 as [|i idxs1 IH]; intros st idxs2; simpl; [done|].
  destruct (registryStep h st i); [apply IH|done].
Qed.

Lemma validEntries_length l : length (validEntries h l) ≤ length l.
Proof.
  unfold validEntries. induction l as [|x l IH]; csimpl; [done|].
  destruct (validEntry h x); simpl; lia.
Qed.

Lemma validEntries_snoc l reg :
  validEntries h (l ++ [reg]) =
  validEntries h l ++ option_list (validEntry h reg).
Proof.
  unfold validEntries. rewrite omap_app. simpl.
  by destruct (validEntry h reg).
Qed.

Lemma loopInv_read orig pre reg post st :
  orig = pre ++ reg :: post → loopInv h orig pre st →
  backing st !! length pre = Some reg.
Proof.
  intros -> [Hb _ _ _]. rewrite Hb.
  pose proof (validEntries_length pre) as Hlen.
  rewrite lookup_app_r by done. rewrite lookup_drop.
  replace (length (validEntries h pre) + (length pre - length (validEntries h pre)))
    with (length pre) by lia.
  by rewrite list_lookup_middle.
Qed.

Lemma loopInv_push orig pre reg post st reg' m :
  orig = pre ++ reg :: post → loopInv h orig pre st →
  backing (pushValid (setMerged st m) reg') =
    (validEntries h pre ++ [reg']) ++
    drop (length (validEntries h pre ++ [reg'])) orig.
Proof.
  intros Ho [Hb Hv _ _]. simpl. rewrite Hb, Hv.
  pose proof (validEntries_length pre) as Hlen.
  assert (length (validEntries h pre) < length orig) as Hlt.
  { rewrite Ho, length_app. simpl. lia. }
  destruct (lookup_lt_is_Some_2 orig _ Hlt) as [y Hy].
  rewrite (drop_S _ _ _ Hy).
  replace (length (validEntries h pre)) with (length (validEntries h pre) + 0)
    at 1 by lia.
  rewrite insert_app_r. simpl. rewrite <- app_assoc. simpl.
  do 2 f_equal. rewrite length_app. simpl. f_equal. lia.
Qed.

Lemma loopInv_step orig pre reg post st :
  orig = pre ++ reg :: post → loopInv h orig pre st →
  isBroken (classify h reg) = false →
  ∃ st', registryStep h st (length pre) = inl st' ∧
         loopInv h orig (pre ++ [reg]) st'.
Proof.
  intros Ho Hinv Hnb.
  pose proof (loopInv_read _ _ _ _ _ Ho Hinv) as Hread.
  pose proof (registryStep_cases st (length pre) reg Hread) as Hc.
  pose proof (validEntries_snoc pre reg) as Hsnoc. unfold validEntry in Hsnoc.
  destruct (classify h reg) as [|spec| |ref e] eqn:Hk; [| | |done].
  - eexists. split; [exact Hc|]. simpl in Hsnoc.
    destruct Hinv as [Hb Hv Hs Hr]. split.
    + rewrite Hsnoc. by eapply loopInv_push.
    + cbn [validLen pushValid setMerged]. rewrite Hsnoc, length_app. simpl. lia.
    + cbn [merged pushValid setMerged]. by apply appendUniqueRegistry_sortedBy.
    + cbn [merged pushValid setMerged]. intros r0 spec0 [Hin|Hin%list_elem_of_singleton]%elem_of_app Hk0.
      * destruct (Hr r0 spec0 Hin Hk0) as (r & Hrin & Hkey).
        exists r. split; [by apply appendUniqueRegistry_mono|done].
      * subst r0. congruence.
  - eexists. split; [exact Hc|]. simpl in Hsnoc.
    destruct Hinv as [Hb Hv Hs Hr]. split.
    + rewrite Hsnoc. by eapply loopInv_push.
    + cbn [validLen pushValid setMerged]. rewrite Hsnoc, length_app. simpl. lia.
    + cbn [merged pushValid setMerged]. by apply appendUniqueRegistry_sortedBy.
    + cbn [merged pushValid setMerged]. intros r0 spec0 [Hin|Hin%list_elem_of_singleton]%elem_of_app Hk0.
      * destruct (Hr r0 spec0 Hin Hk0) as (r & Hrin & Hkey).
        exists r. split; [by apply appendUniqueRegistry_mono|done].
      * subst r0. assert (spec0 = spec) as -> by congruence.
        change (appendUniqueRegistry (merged st) [spec])
          with (orderedInsert regKey (merged st) spec).
        destruct (orderedInsert_present regKey (merged st) spec Hs)
          as [Hin|(y & Hy & Hkey)]; [by exists spec|].
        exists y. split; [by apply orderedInsert_mono|done].
  - exists st. split; [exact Hc|]. simpl in Hsnoc.
    destruct Hinv as [Hb Hv Hs Hr]. split.
    + by rewrite Hsnoc, app_nil_r.
    + by rewrite Hsnoc, app_nil_r.
    + done.
    + intros r0 spec0 [Hin|Hin%list_elem_of_singleton]%elem_of_app Hk0.
      * by apply (Hr r0 spec0).
      * subst r0. congruence.
Qed.

(** Running the loop over a stretch [mid] without failing lookups. *)
Lemma registryLoop_stretch mid : ∀ orig pre post st,
  orig = pre ++ mid ++ post → loopInv h orig pre st →
  Forall (fun reg => isBroken (classify h reg) = false) mid →
  ∃ st', registryLoop h st (seq (length pre) (length mid)) = (st', None) ∧
         loopInv h orig (pre ++ mid) st'.
Proof.
  induction mid as [|reg mid IH]; intros orig pre post st Ho Hinv Hok.
  - exists st. split; [done|]. by rewrite app_nil_r.
  - apply Forall_cons in Hok as [Hreg Hok]. simpl.
    destruct (loopInv_step orig pre reg (mid ++ post) st Ho Hinv Hreg)
      as (st1 & Hstep & Hinv1).
    rewrite Hstep.
    destruct (IH orig (pre ++ [reg]) post st1) as (st' & Hloop & Hinv');
      [by rewrite Ho, <- app_assoc|done|done|].
    exists st'. rewrite length_app, Nat.add_1_r in Hloop.
    split; [done|]. by rewrite <- app_assoc in Hinv'.
Qed.

End Reconcile.

(** ** [getClusterCRIRegistries] *)

Lemma insecureSpecs_foldl_sorted hosts : ∀ acc,
  sortedBy regKey acc →
  sortedBy regKey
    (foldl (fun regs host =>
              appendUniqueRegistry regs [httpSpec host; httpsSkipSpec host])
           acc hosts).
Proof.
  induction hosts as [|x hosts IH]; intros acc Hacc; [done|].
  apply IH. by apply appendUniqueRegistry_sortedBy.
Qed.

Lemma insecureSpecs_sorted hosts : sortedBy regKey (insecureSpecs hosts).
Proof. apply insecureSpecs_foldl_sorted. constructor. Qed.

Lemma loopInv_start h c :
  loopInv h (CRRegistries c) []
    {| backing := CRRegistries c; validLen := 0;
       merged := insecureSpecs (insecureHosts h c) |}.
Proof.
  split; simpl.
  - done.
  - done.
  - apply insecureSpecs_sorted.
  - intros reg spec Hin. by apply elem_of_nil in Hin.
Qed.

Lemma classify_Broken h reg ref e :
  RegistryRef reg = Some ref → ref ≠ "" →
  GetRegistry h ref = inr e → IsNotFound e = false →
  classify h reg = Broken ref e.
Proof.
  intros Hr Hne Hg Hnf. unfold classify. rewrite Hr.
  destruct (String.eqb_spec ref "") as [|_]; [done|]. by rewrite Hg, Hnf.
Qed.

(** C4: when no lookup fails for a reason other than not-found, the call
    succeeds, the cluster's explicit list is rewritten to the entries
    whose reference did not come back not-found (in order), and every
    reference that resolves is represented in the result; a lookup that
    fails otherwise, with every entry before it harmless, makes the call
    return that error, wrapped with the reference. *)
Theorem getClusterCRIRegistries_stale_refs (h : handler) (c : Cluster) :
  (Forall (fun reg => isBroken (classify h reg) = false) (CRRegistries c) →
   ∃ regs,
     getClusterCRIRegistries h c
       = (setCRRegistries c (validEntries h (CRRegistries c)), inl regs) ∧
     (∀ reg, reg ∈ CRRegistries c → classify h reg = Stale →
        validEntry h reg = None) ∧
     (∀ reg spec, reg ∈ CRRegistries c → classify h reg = Resolved spec →
        reg ∈ validEntries h (CRRegistries c) ∧
        ∃ r, r ∈ regs ∧ regKey r = regKey spec)) ∧
  (∀ pre reg post ref e,
     CRRegistries c = pre ++ reg :: post →
     Forall (fun reg => isBroken (classify h reg) = false) pre →
     RegistryRef reg = Some ref → ref ≠ "" →
     GetRegistry h ref = inr e → IsNotFound e = false →
     (getClusterCRIRegistries h c).2 = inr (ErrGetRegistry ref e)).
Proof.
  split.
  - intros Hok.
    destruct (registryLoop_stretch h (CRRegistries c) (CRRegistries c) [] []
                _ ltac:(by rewrite app_nil_r) (loopInv_start h c) Hok)
      as (st & Hloop & [Hb Hv Hs Hr]).
    simpl in Hloop, Hb, Hv, Hr.
    exists (merged st). split_and!.
    + unfold getClusterCRIRegistries. rewrite Hloop, Hb, Hv.
      by rewrite take_app_length.
    + intros reg _ Hk. unfold validEntry. by rewrite Hk.
    + intros reg spec Hin Hk. split; [|by apply (Hr reg spec)].
      apply list_elem_of_omap. exists reg. split; [done|].
      unfold validEntry. by rewrite Hk.
  - intros pre reg post ref e Hc Hok Href Hne Hget Hnf.
    pose proof (classify_Broken h reg ref e Href Hne Hget Hnf) as Hk.
    destruct (registryLoop_stretch h pre (CRRegistries c) [] (reg :: post)
                _ Hc (loopInv_start h c) Hok) as (st & Hloop & Hinv).
    simpl in Hloop, Hinv.
    pose proof (loopInv_read h _ _ _ _ _ Hc Hinv) as Hread.
    pose proof (registryStep_cases h st (length pre) reg Hread) as Hstep.
    rewrite Hk in Hstep.
    unfold getClusterCRIRegistries.
    rewrite Hc at 2. rewrite length_app. simpl length.
    rewrite seq_app, registryLoop_app, Hloop. simpl. by rewrite Hstep.
Qed.

Lemma getClusterCRIRegistries_stale_refs_witness :
  (∃ regs,
     getClusterCRIRegistries sampleHandler sampleCluster
       = (setCRRegistries sampleCluster
            [literalEntry "x"; mkCRIRegistry "" (Some "reg.local")],
          inl regs)) ∧
  (getClusterCRIRegistries sampleHandler
     (setCRRegistries sampleCluster
        [mkCRIRegistry "" (Some "gone"); mkCRIRegistry "" (Some "down");
         literalEntry "x"])).2
    = inr (ErrGetRegistry "down" (OtherError "timeout")).
Proof.
  split.
  - destruct (proj1 (getClusterCRIRegistries_stale_refs sampleHandler
                       sampleCluster)) as (regs & Heq & _).
    + repeat constructor.
    + exists regs. exact Heq.
  - apply (proj2 (getClusterCRIRegistries_stale_refs sampleHandler _)
             [mkCRIRegistry "" (Some "gone")] (mkCRIRegistry "" (Some "down"))
             [literalEntry "x"]).
    + reflexivity.
    + repeat constructor.
    + reflexivity.
    + done.
    + reflexivity.
    + reflexivity.
Defined.

(** ** Deduplication across the insecure hosts and the explicit list *)

Lemma insertString_elem x y l : y ∈ Go.insertString x l ↔ y = x ∨ y ∈ l.
Proof.
  induction l as [|z l IH]; simpl.
  - rewrite list_elem_of_singleton. split; [by left|].
    intros [H|H]; [done|by apply elem_of_nil in H].
  - destruct (String.leb x z).
    + by rewrite elem_of_cons.
    + rewrite !elem_of_cons, IH. tauto.
Qed.

Lemma sortStrings_elem y l : y ∈ Go.sortStrings l ↔ y ∈ l.
Proof.
  unfold Go.sortStrings. induction l as [|x l IH]; simpl; [done|].
  by rewrite insertString_elem, elem_of_cons, IH.
Qed.

Lemma addonStep_mono h l raw y : y ∈ l → y ∈ addonStep h l raw.
Proof.
  intros Hy. unfold addonStep. destruct (unmarshalMirror h raw) as [m|]; [|done].
  destruct (String.eqb m ""); [done|].
  rewrite insertMirror_orderedInsert. by apply orderedInsert_mono.
Qed.

Lemma addonStep_from h l raw y :
  y ∈ addonStep h l raw →
  y ∈ l ∨ (unmarshalMirror h raw = Some y ∧ y ≠ "").
Proof.
  unfold addonStep. destruct (unmarshalMirror h raw) as [m|]; [|by left].
  destruct (String.eqb_spec m "") as [|Hne]; [by left|].
  rewrite insertMirror_orderedInsert.
  intros [-> | Hy]%orderedInsert_from; [by right|by left].
Qed.

Lemma insecureHosts_mono h c y :
  y ∈ CRInsecureRegistry c → y ∈ insecureHosts h c.
Proof.
  intros Hy. unfold insecureHosts.
  apply sortStrings_elem in Hy. revert Hy.
  generalize (Go.sortStrings (CRInsecureRegistry c)).
  induction (Addons c) as [|raw raws IH]; intros l Hy; [done|].
  apply IH. by apply addonStep_mono.
Qed.

Lemma insecureHosts_from h c y : y ∈ insecureHosts h c → insecureSource h c y.
Proof.
  unfold insecureHosts, insecureSource.
  rewrite <- (sortStrings_elem y (CRInsecureRegistry c)).
  generalize (Go.sortStrings (CRInsecureRegistry c)).
  induction (Addons c) as [|raw raws IH]; intros l Hy; [by left|].
  simpl in Hy. apply IH in Hy as [Hy|(raw' & Hin & Hm)].
  - apply addonStep_from in Hy as [Hy|Hy]; [by left|].
    right. exists raw. split; [by left|done].
  - right. exists raw'. split; [by right|done].
Qed.

Lemma regKey_http a : regKey (httpSpec a) = "http" +:+ a.
Proof. reflexivity. Qed.

Lemma regKey_https a : regKey (httpsSkipSpec a) = "https" +:+ a.
Proof. reflexivity. Qed.

Lemma key_http_http a b : regKey (httpSpec a) = regKey (httpSpec b) → a = b.
Proof. rewrite !regKey_http. by intros ?%(inj _). Qed.

Lemma key_https_https a b :
  regKey (httpsSkipSpec a) = regKey (httpsSkipSpec b) → a = b.
Proof. rewrite !regKey_https. by intros ?%(inj _). Qed.

Lemma key_https_http a b :
  regKey (httpsSkipSpec a) = regKey (httpSpec b) → b = "s" +:+ a.
Proof.
  rewrite regKey_http, regKey_https.
  change ("https" +:+ a) with ("http" +:+ ("s" +:+ a)). by intros ?%(inj _).
Qed.

Section Dedup.
Variable x : string.
Variable hosts : list string.
Hypothesis no_clash : ∀ h', h' ∈ hosts → ¬ keyClash x h'.

Lemma pair_step seen acc h1 :
  (∀ h', h' ∈ seen ++ [h1] → h' ∈ hosts) →
  pairInv x seen acc →
  pairInv x (seen ++ [h1])
    (appendUniqueRegistry acc [httpSpec h1; httpsSkipSpec h1]).
Proof.
  intros Hsub [Hs Hshape Hpres].
  change (appendUniqueRegistry acc [httpSpec h1; httpsSkipSpec h1])
    with (orderedInsert regKey (orderedInsert regKey acc (httpSpec h1))
            (httpsSkipSpec h1)).
  set (acc1 := orderedInsert regKey acc (httpSpec h1)).
  assert (Hs1 : sortedBy regKey acc1) by (by apply orderedInsert_sorted).
  assert (Hshape1 : ∀ r, r ∈ acc1 →
    ∃ h', h' ∈ seen ++ [h1] ∧ (r = httpSpec h' ∨ r = httpsSkipSpec h')).
  { intros r [-> | Hr]%orderedInsert_from.
    - exists h1. split; [set_solver|by left].
    - destruct (Hshape r Hr) as (h' & Hin & Hf). exists h'.
      split; [set_solver|done]. }
  split.
  - by apply orderedInsert_sorted.
  - intros r [-> | Hr]%orderedInsert_from.
    + exists h1. split; [set_solver|by right].
    + by apply Hshape1.
  - intros [Hin | Heq%list_elem_of_singleton]%elem_of_app; [|subst h1].
    + destruct (Hpres Hin) as [Ha Hb].
      split; by do 2 apply orderedInsert_mono.
    + assert (Hhttp : httpSpec x ∈ acc1).
      { destruct (orderedInsert_present regKey acc (httpSpec x) Hs)
          as [Hin|(y & Hy & Hkey)]; [done|].
        apply orderedInsert_mono.
        destruct (Hshape y Hy) as (h' & Hh' & [-> | ->]).
        - apply key_http_http in Hkey as ->. done.
        - apply key_https_http in Hkey. exfalso.
          apply (no_clash h'); [apply Hsub; set_solver|by left]. }
      split; [by apply orderedInsert_mono|].
      destruct (orderedInsert_present regKey acc1 (httpsSkipSpec x) Hs1)
        as [Hin|(y & Hy & Hkey)]; [done|].
      apply orderedInsert_mono.
      destruct (Hshape1 y Hy) as (h' & Hh' & [-> | ->]).
      * symmetry in Hkey. apply key_https_http in Hkey. exfalso.
        apply (no_clash h'); [by apply Hsub|by right].
      * apply key_https_https in Hkey as ->. done.
Qed.

Lemma pair_loop todo : ∀ seen acc,
  (∀ h', h' ∈ seen ++ todo → h' ∈ hosts) →
  pairInv x seen acc →
  pairInv x (seen ++ todo)
    (foldl (fun regs host =>
              appendUniqueRegistry regs [httpSpec host; httpsSkipSpec host])
           acc todo).
Proof.
  induction todo as [|h1 todo IH]; intros seen acc Hsub Hinv.
  - by rewrite app_nil_r.
  - simpl. replace (seen ++ h1 :: todo) with ((seen ++ [h1]) ++ todo)
      by (by rewrite <- app_assoc).
    apply IH.
    + intros h' Hh'. apply Hsub. by rewrite <- app_assoc in Hh'.
    + apply pair_step; [|done]. intros h' Hh'. apply Hsub. set_solver.
Qed.

Lemma insecureSpecs_pair :
  x ∈ hosts →
  httpSpec x ∈ insecureSpecs hosts ∧ httpsSkipSpec x ∈ insecureSpecs hosts.
Proof.
  intros Hx.
  destruct (pair_loop hosts [] []) as [_ _ Hp]; [done| |by apply Hp].
  split; [constructor| |].
  - intros r Hr. by apply elem_of_nil in Hr.
  - intros Hin. by apply elem_of_nil in Hin.
Qed.

End Dedup.

(** In a list sorted strictly by key, a test that pins the key down is
    passed by exactly one entry as soon as it is passed by one. *)
Lemma countIf_sorted {A} (key : A → string) (p : A → bool) (k : string) l y :
  sortedBy key l → (∀ z, p z = true → key z = k) →
  y ∈ l → p y = true → countIf p l = 1.
Proof.
  intros Hs Hp. unfold countIf.
  induction Hs as [|a l Hs IH Hall]; intros Hy Hpy.
  - by apply elem_of_nil in Hy.
  - rewrite Forall_forall in Hall.
    assert (Hnone : ∀ z, z ∈ l → p a = true → p z = false).
    { intros z Hz Ha. destruct (p z) eqn:Hpz; [|done].
      specialize (Hall z Hz). rewrite (Hp a Ha), (Hp z Hpz) in Hall.
      by apply keyLt_irrefl in Hall. }
    destruct (p a) eqn:Hpa.
    + rewrite filter_cons_True by done. simpl. f_equal.
      assert (filter (λ x, p x = true) l = []) as ->; [|done].
      destruct (filter (λ x, p x = true) l) as [|z zs] eqn:Hf; [done|].
      assert (z ∈ filter (λ x, p x = true) l) as Hz by (rewrite Hf; by left).
      apply list_elem_of_filter in Hz as [Hpz Hz].
      rewrite (Hnone z Hz eq_refl) in Hpz. done.
    + rewrite filter_cons_False by (by rewrite Hpa).
      apply IH; [|done].
      apply elem_of_cons in Hy as [-> | Hy]; [congruence|done].
Qed.

Lemma isHttp_key x r : isHttp x r = true → regKey r = "http" +:+ x.
Proof.
  unfold isHttp, regKey.
  intros [Hs Hh]%andb_true_iff.
  apply String.eqb_eq in Hs, Hh. by rewrite Hs, Hh.
Qed.

Lemma isHttpsSkip_key x r : isHttpsSkip x r = true → regKey r = "https" +:+ x.
Proof.
  unfold isHttpsSkip, regKey.
  intros [[Hs Hh]%andb_true_iff _]%andb_true_iff.
  apply String.eqb_eq in Hs, Hh. by rewrite Hs, Hh.
Qed.

Lemma isHttp_httpSpec x : isHttp x (httpSpec x) = true.
Proof. unfold isHttp. simpl. by rewrite String.eqb_refl. Qed.

Lemma isHttpsSkip_httpsSkipSpec x : isHttpsSkip x (httpsSkipSpec x) = true.
Proof. unfold isHttpsSkip. simpl. by rewrite String.eqb_refl. Qed.

(** C3 (as amended): if host [x] is among the cluster's insecure hosts and
    is a literal entry of the explicit list, and no host that is expanded
    into a pair clashes with [x] on an identity key (none is "s" + x and
    [x] is "s" + none of them), then the set computed by
    [getClusterCRIRegistries] has exactly one entry with scheme http and
    host [x] and exactly one with scheme https, host [x] and
    SkipVerify set. *)
Theorem getClusterCRIRegistries_dedup (h : handler) (c : Cluster)
  (x : string) (regs : list RegistrySpec) :
  x ∈ CRInsecureRegistry c →
  (∃ reg, reg ∈ CRRegistries c ∧ classify h reg = Literal ∧
          InsecureRegistry reg = x) →
  (∀ h', insecureSource h c h' → ¬ keyClash x h') →
  (getClusterCRIRegistries h c).2 = inl regs →
  countIf (isHttp x) regs = 1 ∧ countIf (isHttpsSkip x) regs = 1.
Proof.
  intros Hx _ Hclash Hres. unfold getClusterCRIRegistries in Hres.
  destruct (registryLoop h _ _) as [st [e|]] eqn:Hloop; [done|].
  simpl in Hres. simplify_eq.
  destruct (registryLoop_merged h _ _ _ Hloop) as [Hs Hm];
    [apply insecureSpecs_sorted|]. simpl in Hm.
  destruct (insecureSpecs_pair x (insecureHosts h c)) as [Ha Hb].
  { intros h' Hh'. apply Hclash. by apply insecureHosts_from. }
  { by apply insecureHosts_mono. }
  split.
  - apply (countIf_sorted regKey _ ("http" +:+ x) _ (httpSpec x)); auto.
    + apply isHttp_key.
    + apply isHttp_httpSpec.
  - apply (countIf_sorted regKey _ ("https" +:+ x) _ (httpsSkipSpec x)); auto.
    + apply isHttpsSkip_key.
    + apply isHttpsSkip_httpsSkipSpec.
Qed.

Lemma keyClash_x_x : ¬ keyClash "x" "x".
Proof. by intros [H|H]. Qed.

Lemma getClusterCRIRegistries_dedup_witness :
  ∃ regs,
    (getClusterCRIRegistries sampleHandler sampleCluster).2 = inl regs ∧
    countIf (isHttp "x") regs = 1 ∧ countIf (isHttpsSkip "x") regs = 1.
Proof.
  eexists. split; [reflexivity|].
  apply (getClusterCRIRegistries_dedup sampleHandler sampleCluster "x").
  - by left.
  - exists (literalEntry "x"). split; [by left|done].
  - intros h' [Hin|(raw & Hin & _)].
    + apply list_elem_of_singleton in Hin as ->. apply keyClash_x_x.
    + by apply elem_of_nil in Hin.
  - reflexivity.
Defined.

(** C3 as stated fails: with insecure hosts "foo" and "sfoo", the http
    entry of "sfoo" meets the https entry of "foo" on the key "httpsfoo"
    and is not inserted. *)
Lemma getClusterCRIRegistries_key_clash :
  "sfoo" ∈ CRInsecureRegistry clashCluster ∧
  literalEntry "sfoo" ∈ CRRegistries clashCluster ∧
  (getClusterCRIRegistries sampleHandler clashCluster).2
    = inl [httpSpec "foo"; httpsSkipSpec "foo"; httpsSkipSpec "sfoo"] ∧
  countIf (isHttp "sfoo")
    [httpSpec "foo"; httpsSkipSpec "foo"; httpsSkipSpec "sfoo"] = 0.
Proof.
  split_and!.
  - right. by left.
  - by left.
  - reflexivity.
  - reflexivity.
Qed.

(** ** Calico: version table and step generation *)

Lemma CalicoTemplate_supported pkg runnable :
  Cni.Version runnable ∈ Cni.supportedVersions →
  (Cni.CalicoTemplate pkg runnable).2 = None.
Proof.
  unfold Cni.supportedVersions, Cni.CalicoTemplate.
  rewrite !elem_of_cons, elem_of_nil.
  intros [->|[->|[->|[->|[->|[->|[]]]]]]]; reflexivity.
Qed.

Lemma CalicoTemplate_unsupported pkg runnable :
  Cni.Version runnable ∉ Cni.supportedVersions →
  Cni.CalicoTemplate pkg runnable
    = ("", Some (Cni.ErrUnsupported (Cni.Version runnable))).
Proof.
  unfold Cni.supportedVersions, Cni.CalicoTemplate.
  rewrite !elem_of_cons, elem_of_nil. intros Hn.
  repeat match goal with
  | |- context [match ?s with EmptyString => _ | String _ _ => _ end] =>
      destruct s as [|? ?]; try reflexivity
  | |- context [match ?a with Ascii.Ascii _ _ _ _ _ _ _ _ => _ end] =>
      destruct a as [[] [] [] [] [] [] [] []]; try reflexivity
  end; exfalso; apply Hn; tauto.
Qed.

(** C5 (as amended): the closed table belongs to [CalicoTemplate], which
    returns a template and no error for the six versions it maps and an
    error with the empty template for any other.  [InstallSteps] does not
    consult it: when the runnable serializes, on the manifest path it
    returns exactly the render and the apply step, and on the chart path
    the chart's steps followed by the render and the release step, or the
    chart's error and no steps, whatever the calico version. *)
Theorem InstallSteps_version_dispatch (pkg : Cni.Package)
  (runnable : Cni.CalicoRunnable) (nodes : list StepNode)
  (kubernetesVersion bytes : string) :
  Cni.jsonMarshal pkg runnable = inl bytes →
  (Cni.Version runnable ∈ Cni.supportedVersions →
     (Cni.CalicoTemplate pkg runnable).2 = None) ∧
  (Cni.Version runnable ∉ Cni.supportedVersions →
     Cni.CalicoTemplate pkg runnable
       = ("", Some (Cni.ErrUnsupported (Cni.Version runnable)))) ∧
  (Cni.IsHighKubeVersion pkg kubernetesVersion = false →
     Cni.InstallSteps pkg runnable nodes kubernetesVersion
       = inl [Cni.RenderYaml pkg "calico" bytes nodes;
              Cni.ApplyYaml pkg
                (Cni.filepathJoin pkg [Cni.manifestDir pkg; "calico.yaml"])
                nodes]) ∧
  (Cni.IsHighKubeVersion pkg kubernetesVersion = true →
     match Cni.InstallStepsV2 pkg
             (Cni.mkChart "calico" (Cni.Version runnable)
                (Cni.Offline runnable)) nodes with
     | inl chartSteps =>
         ∃ release,
           Cni.InstallSteps pkg runnable nodes kubernetesVersion
             = inl (chartSteps ++
                    [Cni.RenderYaml pkg "calico" bytes nodes; release])
     | inr e =>
         Cni.InstallSteps pkg runnable nodes kubernetesVersion = inr e
     end).
Proof.
  intros Hm. split_and!.
  - apply CalicoTemplate_supported.
  - apply CalicoTemplate_unsupported.
  - intros Hlow. unfold Cni.InstallSteps. by rewrite Hm, Hlow.
  - intros Hhigh. unfold Cni.InstallSteps. rewrite Hm, Hhigh.
    destruct (Cni.InstallStepsV2 pkg _ nodes) as [chartSteps|e]; [|done].
    eexists. by rewrite <- app_assoc.
Qed.

Lemma InstallSteps_version_dispatch_witness :
  (Cni.CalicoTemplate Cni.samplePackage
     (Cni.mkCalicoRunnable "v3.26.1" false "" "/var/lib/kubelet")).2 = None ∧
  ∃ steps,
    Cni.InstallSteps Cni.samplePackage
      (Cni.mkCalicoRunnable "v3.26.1" false "" "/var/lib/kubelet")
      [mkStepNode "n1"] "v1.23.6" = inl steps ∧ length steps = 2.
Proof.
  destruct (InstallSteps_version_dispatch Cni.samplePackage
              (Cni.mkCalicoRunnable "v3.26.1" false "" "/var/lib/kubelet")
              [mkStepNode "n1"] "v1.23.6" "v3.26.1" eq_refl)
    as (Hsup & _ & Hlow & _).
  split.
  - apply Hsup. unfold Cni.supportedVersions. simpl. set_solver.
  - eexists. split; [apply Hlow; reflexivity|reflexivity].
Defined.

(** C5 as stated fails: for a version the table does not map,
    [InstallSteps] still returns two steps and no error. *)
Lemma InstallSteps_unsupported_version :
  (Cni.Version Cni.unsupportedRunnable ∉ Cni.supportedVersions) ∧
  (Cni.CalicoTemplate Cni.samplePackage Cni.unsupportedRunnable).2
    = Some (Cni.ErrUnsupported "v9.9.9") ∧
  ∃ s1 s2,
    Cni.InstallSteps Cni.samplePackage Cni.unsupportedRunnable
      [mkStepNode "n1"] "v1.23.6" = inl [s1; s2].
Proof.
  split_and!.
  - unfold Cni.supportedVersions. simpl.
    rewrite !elem_of_cons, elem_of_nil. intros H.
    repeat (destruct H as [H|H]; [discriminate H|]). done.
  - reflexivity.
  - by do 2 eexists.
Qed.

(** ** Container teardown *)

Lemma teardownOne_attempt ctr :
  K8s.attempted (K8s.teardownOne ctr).1 = [K8s.ctrID ctr].
Proof.
  unfold K8s.teardownOne, K8s.deleteCtr.
  destruct (K8s.ctrTask ctr) as [task|e].
  - destruct (K8s.waitResult task); [done|].
    destruct (K8s.killResult task) as [e|].
    + by destruct (K8s.IsNotFound e).
    + destruct (K8s.exitResult task); [|done].
      by destruct (K8s.deleteResult task), (K8s.ctrDeleteResult ctr).
  - by destruct (K8s.ctrDeleteResult ctr).
Qed.

Lemma teardownOne_return ctr e :
  (K8s.teardownOne ctr).2 = K8s.Return e →
  ∃ task, K8s.ctrTask ctr = inl task ∧ K8s.hardFailure task e.
Proof.
  unfold K8s.teardownOne, K8s.hardFailure.
  destruct (K8s.ctrTask ctr) as [task|e0]; [|done].
  destruct (K8s.waitResult task) as [e1|] eqn:Hw.
  - intros [= ->]. exists task. split; [done|tauto].
  - destruct (K8s.killResult task) as [e1|] eqn:Hk.
    + destruct (K8s.IsNotFound e1) eqn:Hnf; [done|].
      intros [= ->]. exists task. split; [done|tauto].
    + destruct (K8s.exitResult task) as [code|e1] eqn:Hr; [done|].
      intros [= ->]. exists task. split; [done|tauto].
Qed.

Lemma teardownOne_benign ctr :
  K8s.benign ctr → (K8s.teardownOne ctr).2 = K8s.Next.
Proof.
  unfold K8s.benign, K8s.teardownOne.
  destruct (K8s.ctrTask ctr) as [task|e0]; [|done].
  intros (Hw & Hk & code & Hr). rewrite Hw.
  destruct Hk as [Hk|(e & Hk & Hnf)]; rewrite Hk.
  - by rewrite Hr.
  - by rewrite Hnf.
Qed.

Lemma attempted_app l1 l2 :
  K8s.attempted (l1 ++ l2) = K8s.attempted l1 ++ K8s.attempted l2.
Proof. apply omap_app. Qed.

Lemma teardownLoop_return ctrs e :
  (K8s.teardownLoop ctrs).2 = Some e →
  ∃ ctr task, ctr ∈ ctrs ∧ K8s.ctrTask ctr = inl task ∧ K8s.hardFailure task e.
Proof.
  induction ctrs as [|ctr ctrs IH]; simpl; [done|].
  destruct (K8s.teardownOne ctr) as [evs [|e1]] eqn:Hone.
  - destruct (K8s.teardownLoop ctrs) as [evs' r]. simpl. intros Hr.
    destruct (IH Hr) as (ctr' & task & Hin & Ht & Hf).
    exists ctr', task. split; [by right|done].
  - simpl. intros [= ->].
    destruct (teardownOne_return ctr e) as (task & Ht & Hf);
      [by rewrite Hone|].
    exists ctr, task. split; [by left|done].
Qed.

Lemma teardownLoop_benign ctrs :
  Forall K8s.benign ctrs →
  (K8s.teardownLoop ctrs).2 = None ∧
  K8s.attempted (K8s.teardownLoop ctrs).1 = K8s.ctrID <$> ctrs.
Proof.
  induction 1 as [|ctr ctrs Hb _ IH]; simpl; [done|].
  pose proof (teardownOne_benign ctr Hb) as Hn.
  pose proof (teardownOne_attempt ctr) as Ha.
  destruct (K8s.teardownOne ctr) as [evs t]. simpl in Hn, Ha. subst t.
  destruct (K8s.teardownLoop ctrs) as [evs' r]. simpl in *.
  destruct IH as [-> Hatt]. split; [done|].
  by rewrite attempted_app, Ha, Hatt.
Qed.

Lemma teardownLoop_events ctrs ctr ev :
  Forall K8s.benign ctrs → ctr ∈ ctrs → ev ∈ (K8s.teardownOne ctr).1 →
  ev ∈ (K8s.teardownLoop ctrs).1.
Proof.
  induction 1 as [|c ctrs Hb Hall IH]; intros Hin Hev.
  - by apply elem_of_nil in Hin.
  - simpl. pose proof (teardownOne_benign c Hb) as Hn.
    destruct (K8s.teardownOne c) as [evs t] eqn:Hone. simpl in Hn. subst t.
    destruct (K8s.teardownLoop ctrs) as [evs' r]. simpl in *.
    apply elem_of_app. apply elem_of_cons in Hin as [->|Hin].
    + left. by rewrite Hone in Hev.
    + right. by apply IH.
Qed.

(** C7 (as amended): a container with no task is warned about and its
    deletion still attempted; a not-found answer to the kill signal is
    tolerated and ends the turn; failures to delete the exited task or
    the container are tolerated.  An error is returned only when the
    daemon cannot be reached or listed, or when for some container the
    status channel cannot be had, the kill signal fails otherwise than
    not-found, or the exit status cannot be read.  When no container does
    any of these, every container is attempted, in order, and the
    sequence returns success. *)
Theorem deleteContainer_resilience (d : K8s.Daemon) :
  (∀ e, (K8s.deleteContainer d).2 = Some e →
     (K8s.connect d = Some e ∨
     K8s.listContainers d = inr e ∨
     ∃ ctrs ctr task,
       K8s.listContainers d = inl ctrs ∧ ctr ∈ ctrs ∧
       K8s.ctrTask ctr = inl task ∧ K8s.hardFailure task e)) ∧
  (∀ ctrs,
     K8s.connect d = None → K8s.listContainers d = inl ctrs →
     Forall K8s.benign ctrs →
     (K8s.deleteContainer d).2 = None ∧
     K8s.attempted (K8s.deleteContainer d).1 = K8s.ctrID <$> ctrs ∧
     (∀ ctr e, ctr ∈ ctrs → K8s.ctrTask ctr = inr e →
        K8s.WarnNoTask (K8s.ctrID ctr) ∈ (K8s.deleteContainer d).1 ∧
        (K8s.ContainerDeleted (K8s.ctrID ctr) ∈ (K8s.deleteContainer d).1 ∨
         K8s.ContainerDeleteIgnored (K8s.ctrID ctr)
           ∈ (K8s.deleteContainer d).1)) ∧
     (∀ ctr task e, ctr ∈ ctrs → K8s.ctrTask ctr = inl task →
        K8s.killResult task = Some e →
        K8s.KillNotFound (K8s.taskID task) ∈ (K8s.deleteContainer d).1)).
Proof.
  split.
  - intros e. unfold K8s.deleteContainer.
    destruct (K8s.connect d) as [e0|]; [intros [= ->]; by left|].
    destruct (K8s.listContainers d) as [ctrs|e0];
      [|intros [= ->]; right; by left].
    intros Hr. right. right.
    destruct (teardownLoop_return ctrs e Hr) as (ctr & task & H1 & H2 & H3).
    by exists ctrs, ctr, task.
  - intros ctrs Hc Hl Hb. unfold K8s.deleteContainer. rewrite Hc, Hl.
    destruct (teardownLoop_benign ctrs Hb) as [Hnone Hatt].
    split_and!; [done|done| |].
    + intros ctr e Hin Ht.
      assert (Hone : K8s.teardownOne ctr =
        ([K8s.Attempt (K8s.ctrID ctr); K8s.WarnNoTask (K8s.ctrID ctr)] ++
         K8s.deleteCtr ctr, K8s.Next)).
      { unfold K8s.teardownOne. by rewrite Ht. }
      split.
      * apply (teardownLoop_events ctrs ctr); [done|done|].
        rewrite Hone. simpl. set_solver.
      * unfold K8s.deleteCtr in Hone.
        destruct (K8s.ctrDeleteResult ctr).
        -- right. apply (teardownLoop_events ctrs ctr); [done|done|].
           rewrite Hone. simpl. set_solver.
        -- left. apply (teardownLoop_events ctrs ctr); [done|done|].
           rewrite Hone. simpl. set_solver.
    + intros ctr task e Hin Ht Hk.
      apply (teardownLoop_events ctrs ctr); [done|done|].
      rewrite Forall_forall in Hb. specialize (Hb ctr Hin).
      unfold K8s.benign in Hb. rewrite Ht in Hb.
      destruct Hb as (Hw & [Hk'|(e' & Hk' & Hnf)] & _); [congruence|].
      assert (e' = e) as -> by congruence.
      unfold K8s.teardownOne. rewrite Ht, Hw, Hk, Hnf. simpl. set_solver.
Qed.

Lemma deleteContainer_resilience_witness :
  (K8s.deleteContainer K8s.sampleDaemon).2 = None ∧
  K8s.attempted (K8s.deleteContainer K8s.sampleDaemon).1
    = ["c1"; "c2"; "c3"; "c4"].
Proof.
  destruct (proj2 (deleteContainer_resilience K8s.sampleDaemon) _
              eq_refl eq_refl) as (Hnone & Hatt & _).
  - constructor; [|constructor; [|constructor; [|constructor; [|constructor]]]];
      unfold K8s.benign; simpl.
    + split_and!; [done|by left|by eexists].
    + done.
    + split_and!; [done|right; by eexists|by eexists].
    + split_and!; [done|by left|by eexists].
  - split; [exact Hnone|exact Hatt].
Defined.

(** C7 as stated fails: the sequence also returns an error when the
    status channel of a task cannot be had, before any kill signal is
    sent; the containers after it are not attempted. *)
Lemma deleteContainer_wait_failure :
  (K8s.deleteContainer K8s.waitFailureDaemon).2
    = Some (K8s.ErrOther "ttrpc: closed") ∧
  K8s.attempted (K8s.deleteContainer K8s.waitFailureDaemon).1 = ["c1"] ∧
  (∀ ev, ev ∈ (K8s.deleteContainer K8s.waitFailureDaemon).1 →
     ∀ t, ev ≠ K8s.KillFailed t ∧ ev ≠ K8s.KillSent t).
Proof.
  split_and!; [reflexivity|reflexivity|].
  intros ev Hev t. simpl in Hev.
  apply elem_of_cons in Hev as [->|Hev]; [done|].
  apply list_elem_of_singleton in Hev as ->. done.
Qed.

(** ** Trust-store reconciliation *)

Section TrustStore.
Variable F : Cri.Faults.

Lemma writeHosts_ok server hostDir hosts : ∀ files cfgs,
  (∀ host, Cri.writeFault F server host = false) →
  ∃ files' cfgs',
    Cri.writeHosts F server hostDir hosts files cfgs = (files', inl cfgs') ∧
    (∀ k, is_Some (cfgs !! k) → is_Some (cfgs' !! k)) ∧
    (∀ host, host ∈ hosts → is_Some (cfgs' !! Cri.hostKey host)).
Proof.
  induction hosts as [|host hosts IH]; intros files cfgs Hw; simpl.
  - exists files, cfgs. split; [done|]. split; [done|].
    intros host Hin. by apply elem_of_nil in Hin.
  - destruct (0 <? String.length (Cri.HostCA host)).
    + rewrite Hw.
      destruct (IH (<[Cri.pemName host := Cri.CertFile (Cri.HostCA host)]> files)
                  (<[Cri.hostKey host :=
                       {| Cri.HFCapabilities := Cri.Capabilities host;
                          Cri.HFCACert :=
                            if String.eqb
                                 (Cri.pathJoin hostDir (Cri.pemName host)) ""
                            then None
                            else Some (Cri.pathJoin hostDir (Cri.pemName host));
                          Cri.HFSkipVerify :=
                            if Cri.HostSkipVerify host then Some true else None
                       |}]> cfgs) Hw)
        as (files' & cfgs' & Heq & Hkeep & Hall).
      exists files', cfgs'. split; [done|]. split.
      * intros k Hk. apply Hkeep. rewrite lookup_insert_is_Some'. by right.
      * intros host' [->|Hin]%elem_of_cons; [|by apply Hall].
        apply Hkeep. rewrite lookup_insert_is_Some'. by left.
    + destruct (IH files
                  (<[Cri.hostKey host :=
                       {| Cri.HFCapabilities := Cri.Capabilities host;
                          Cri.HFCACert := None;
                          Cri.HFSkipVerify :=
                            if Cri.HostSkipVerify host then Some true else None
                       |}]> cfgs) Hw)
        as (files' & cfgs' & Heq & Hkeep & Hall).
      exists files', cfgs'. split; [done|]. split.
      * intros k Hk. apply Hkeep. rewrite lookup_insert_is_Some'. by right.
      * intros host' [->|Hin]%elem_of_cons; [|by apply Hall].
        apply Hkeep. rewrite lookup_insert_is_Some'. by left.
Qed.

Lemma renderConfigs_ok r dir entries :
  Cri.mkdirFault F (Cri.Server r) = false →
  Cri.createFault F (Cri.Server r) = false →
  Cri.encodeFault F (Cri.Server r) = false →
  (∀ host, Cri.writeFault F (Cri.Server r) host = false) →
  (∀ raw, entries !! Cri.Server r ≠ Some (Cri.File raw)) →
  ∃ files,
    Cri.renderConfigs F r dir entries
      = (<[Cri.Server r := Cri.Dir files]> entries, None) ∧
    Cri.rendered r files.
Proof.
  intros Hm Hc He Hw Hnf. unfold Cri.renderConfigs.
  destruct (entries !! Cri.Server r) as [[raw|files0]|] eqn:Hfound.
  - by destruct (Hnf raw).
  - rewrite Hm.
    destruct (writeHosts_ok (Cri.Server r)
                (Cri.pathJoin dir (Cri.Server r)) (Cri.Hosts r) files0 ∅ Hw)
      as (files' & cfgs' & -> & _ & Hall).
    rewrite Hc, He. eexists. split; [done|].
    eexists. split; [by rewrite lookup_insert_eq|]. by split.
  - rewrite Hm.
    destruct (writeHosts_ok (Cri.Server r)
                (Cri.pathJoin dir (Cri.Server r)) (Cri.Hosts r) ∅ ∅ Hw)
      as (files' & cfgs' & -> & _ & Hall).
    rewrite Hc, He. eexists. split; [done|].
    eexists. split; [by rewrite lookup_insert_eq|]. by split.
Qed.

Lemma servers_cons kr regs :
  Cri.servers (kr :: regs) = {[Cri.Server kr.2]} ∪ Cri.servers regs.
Proof. reflexivity. Qed.

Lemma elem_of_servers name regs :
  name ∈ Cri.servers regs ↔ ∃ kr, kr ∈ regs ∧ Cri.Server kr.2 = name.
Proof.
  unfold Cri.servers. rewrite elem_of_list_to_set, list_elem_of_fmap.
  split; intros (kr & H1 & H2); exists kr; by split.
Qed.

Lemma renderLoop_ok dir regs : ∀ entries old,
  Cri.renderFaultFree F regs → Cri.noFileInTheWay entries regs →
  ∃ entries',
    Cri.renderLoop F dir regs entries old
      = (entries', old ∖ Cri.servers regs, None) ∧
    (∀ name, name ∉ Cri.servers regs → entries' !! name = entries !! name) ∧
    (∀ kr, kr ∈ regs →
       ∃ files kr', entries' !! Cri.Server kr.2 = Some (Cri.Dir files) ∧
         kr' ∈ regs ∧ Cri.Server kr'.2 = Cri.Server kr.2 ∧
         Cri.rendered kr'.2 files).
Proof.
  induction regs as [|[k r] regs IH]; intros entries old Hff Hnf.
  - exists entries. split_and!.
    + simpl. f_equal. f_equal. unfold Cri.servers. simpl. set_solver.
    + done.
    + intros kr Hin. by apply elem_of_nil in Hin.
  - destruct (Hff (k, r) ltac:(by left)) as (Hm & Hc & He & Hw).
    simpl in Hm, Hc, He, Hw.
    destruct (renderConfigs_ok r dir entries Hm Hc He Hw) as (files & Hr & Hrend).
    { intros raw. apply (Hnf (k, r)). by left. }
    simpl. rewrite Hr.
    destruct (IH (<[Cri.Server r := Cri.Dir files]> entries)
                (old ∖ {[Cri.Server r]})) as (entries' & Hloop & Hother & Hall).
    { intros kr Hin. apply Hff. by right. }
    { intros kr raw Hin.
      destruct (decide (Cri.Server r = Cri.Server kr.2)) as [Heq|Hne].
      - rewrite <- Heq, lookup_insert_eq. done.
      - rewrite lookup_insert_ne by done. apply Hnf. by right. }
    exists entries'. split_and!.
    + rewrite Hloop. f_equal. f_equal. rewrite servers_cons. simpl. set_solver.
    + intros name Hn. rewrite servers_cons in Hn. simpl in Hn.
      rewrite Hother by set_solver. rewrite lookup_insert_ne by set_solver. done.
    + intros kr [->|Hin]%elem_of_cons.
      * simpl. destruct (decide (Cri.Server r ∈ Cri.servers regs)) as [Hs|Hs].
        -- apply elem_of_servers in Hs as (kr2 & Hin2 & Heq2).
           destruct (Hall kr2 Hin2) as (files2 & kr' & Hl & Hin' & Hs' & Hr').
           exists files2, kr'. rewrite <- Heq2. split_and!; try done. by right.
        -- exists files, (k, r). rewrite (Hother _ Hs), lookup_insert_eq.
           split_and!; try done. by left.
      * destruct (Hall kr Hin) as (files2 & kr' & Hl & Hin' & Hs' & Hr').
        exists files2, kr'. split_and!; try done. by right.
Qed.

Lemma clearLoop_fold dirs : ∀ entries logs,
  (∀ name,
     (foldl (Cri.clearStep F) (entries, logs) dirs).1 !! name =
     if decide (name ∈ dirs ∧ Cri.removeFault F name = false)
     then None else entries !! name) ∧
  (∀ name, name ∈ dirs → Cri.removeFault F name = true →
     Cri.LogClearFailed name ∈ (foldl (Cri.clearStep F) (entries, logs) dirs).2) ∧
  (∀ l, l ∈ logs → l ∈ (foldl (Cri.clearStep F) (entries, logs) dirs).2).
Proof.
  induction dirs as [|d dirs IH]; intros entries logs.
  - split_and!.
    + intros name. cbn [foldl fst].
      destruct (decide _) as [[H _]|]; [|done]. by apply elem_of_nil in H.
    + intros name H. by apply elem_of_nil in H.
    + done.
  - cbn [foldl]. unfold Cri.clearStep at 2 4 6. cbn [fst snd].
    destruct (Cri.removeFault F d) eqn:Hd.
    + destruct (IH entries (logs ++ [Cri.LogClearFailed d])) as (H1 & H2 & H3).
      split_and!.
      * intros name. rewrite H1.
        repeat case_decide; try done.
        -- exfalso. destruct H as [Hin Hf]. apply H0. split; [by right|done].
        -- exfalso. destruct H0 as [[->|Hin]%elem_of_cons Hf]; [congruence|].
           apply H. by split.
      * intros name [->|Hin]%elem_of_cons Hf; [|by apply H2].
        apply H3. set_solver.
      * intros l Hl. apply H3. set_solver.
    + destruct (IH (delete d entries) logs) as (H1 & H2 & H3).
      split_and!.
      * intros name. rewrite H1.
        repeat case_decide; try done.
        -- exfalso. destruct H as [Hin Hf]. apply H0. split; [by right|done].
        -- destruct H0 as [[->|Hin]%elem_of_cons Hf].
           ++ by rewrite lookup_delete_eq.
           ++ exfalso. apply H. by split.
        -- rewrite lookup_delete_ne; [done|]. intros ->. apply H0.
           split; [by left|done].
      * intros name [->|Hin]%elem_of_cons Hf; [congruence|by apply H2].
      * done.
Qed.

Lemma elem_of_dirNames name entries :
  name ∈ Cri.dirNames entries ↔ ∃ files, entries !! name = Some (Cri.Dir files).
Proof.
  unfold Cri.dirNames. rewrite elem_of_dom. split.
  - intros [e He]. apply map_lookup_filter_Some in He as [He Hd].
    simpl in Hd. destruct e as [raw|files]; [done|]. by exists files.
  - intros [files Hf]. exists (Cri.Dir files).
    apply map_lookup_filter_Some. by split.
Qed.

End TrustStore.

(** C8: when [Install] runs (not as a dry run) and the operating system
    does not fail on reading the directory or rendering, it returns
    success and afterwards every desired host has a directory holding its
    rendering, created if it was absent, and every other existing host
    directory is removed; a directory whose removal fails stays, the
    failure is logged and the result is still success.  A missing
    configuration directory is the case of no existing entries. *)
Theorem Install_reconciles (F : Cri.Faults)
  (c : Cri.ContainerdRegistryConfigure) (fs : Cri.store) :
  Cri.readDirFault F = None →
  Cri.renderFaultFree F (Cri.Registries c) →
  Cri.noFileInTheWay (Cri.entriesOf fs) (Cri.Registries c) →
  ∃ fs' logs,
    Cri.Install F c false fs = (fs', logs, None) ∧
    (∀ kr, kr ∈ Cri.Registries c →
       ∃ files kr',
         Cri.entriesOf fs' !! Cri.Server kr.2 = Some (Cri.Dir files) ∧
         kr' ∈ Cri.Registries c ∧ Cri.Server kr'.2 = Cri.Server kr.2 ∧
         Cri.rendered kr'.2 files) ∧
    (∀ name files,
       Cri.entriesOf fs !! name = Some (Cri.Dir files) →
       name ∉ Cri.servers (Cri.Registries c) →
       if Cri.removeFault F name
       then Cri.entriesOf fs' !! name = Some (Cri.Dir files) ∧
            Cri.LogClearFailed name ∈ logs
       else Cri.entriesOf fs' !! name = None).
Proof.
  intros Hrd Hff Hnf. unfold Cri.Install. rewrite Hrd.
  destruct (renderLoop_ok F (Cri.ConfigDir c) (Cri.Registries c)
              (Cri.entriesOf fs) (Cri.dirNames (Cri.entriesOf fs)) Hff Hnf)
    as (entries' & -> & Hother & Hall).
  set (old := Cri.dirNames (Cri.entriesOf fs) ∖ Cri.servers (Cri.Registries c)).
  unfold Cri.clearLoop.
  destruct (clearLoop_fold F (elements old) entries' []) as (Hlook & Hlog & _).
  destruct (foldl (Cri.clearStep F) (entries', []) (elements old))
    as [entries'' logs] eqn:Hfold.
  simpl in Hlook, Hlog.
  set (fs' := if decide (Cri.Registries c = [])
              then match fs with None => None | Some _ => Some entries'' end
              else Some entries'').
  assert (Hfs' : Cri.entriesOf fs' = entries'').
  { unfold fs'. destruct (decide (Cri.Registries c = [])) as [Hnil|]; [|done].
    destruct fs as [m|]; [done|]. simpl.
    apply map_eq. intros name. rewrite (Hlook name), lookup_empty.
    case_decide; [done|]. rewrite Hother.
    - unfold Cri.entriesOf. simpl. by rewrite lookup_empty.
    - rewrite Hnil. unfold Cri.servers. simpl. set_solver. }
  exists fs', (logs ++ Cri.mainConfigLogs F). split; [done|].
  rewrite Hfs'. split.
  - intros kr Hin. destruct (Hall kr Hin) as (files & kr' & Hl & Hrest).
    exists files, kr'. split; [|done]. rewrite Hlook.
    case_decide as Hd; [|done]. exfalso.
    destruct Hd as [Hd _]. apply elem_of_elements in Hd.
    unfold old in Hd. apply elem_of_difference in Hd as [_ Hd].
    apply Hd, elem_of_servers. by exists kr.
  - intros name files Hname Hns.
    assert (Hold : name ∈ elements old).
    { apply elem_of_elements. unfold old. apply elem_of_difference.
      split; [|done]. apply elem_of_dirNames. by exists files. }
    destruct (Cri.removeFault F name) eqn:Hrm.
    + split.
      * rewrite Hlook. case_decide as Hd; [destruct Hd; congruence|].
        by rewrite Hother.
      * apply elem_of_app. left. by apply Hlog.
    + rewrite Hlook. case_decide as Hd; [done|]. exfalso. by apply Hd.
Qed.

Lemma sampleRegistry_fault_free F regs :
  Cri.mkdirFault F = (fun _ => false) →
  Cri.createFault F = (fun _ => false) →
  Cri.encodeFault F = (fun _ => false) →
  Cri.writeFault F = (fun _ _ => false) →
  Cri.renderFaultFree F regs.
Proof. intros H1 H2 H3 H4 kr _. by rewrite H1, H2, H3, H4. Qed.

Lemma sampleStore_no_file :
  Cri.noFileInTheWay (Cri.entriesOf Cri.sampleStore)
    (Cri.Registries Cri.sampleConfigure).
Proof.
  intros kr raw Hin. simpl in Hin.
  apply elem_of_cons in Hin as [->|Hin].
  - by vm_compute.
  - apply list_elem_of_singleton in Hin as ->. by vm_compute.
Qed.

(** Existing directories a and b, desired hosts b and c: a is removed,
    b and c hold their rendering; and with removals failing, a stays and
    the call still succeeds. *)
Lemma Install_reconciles_witness :
  (∃ fs' logs,
     Cri.Install Cri.noFaults Cri.sampleConfigure false Cri.sampleStore
       = (fs', logs, None) ∧
     Cri.entriesOf fs' !! "a" = None ∧
     (∃ files, Cri.entriesOf fs' !! "b" = Some (Cri.Dir files) ∧
               is_Some (files !! "hosts.toml")) ∧
     (∃ files, Cri.entriesOf fs' !! "c" = Some (Cri.Dir files) ∧
               is_Some (files !! "hosts.toml"))) ∧
  (∃ fs' logs,
     Cri.Install Cri.removeFails Cri.sampleConfigure false Cri.sampleStore
       = (fs', logs, None) ∧
     Cri.entriesOf fs' !! "a" = Some (Cri.Dir ∅) ∧
     Cri.LogClearFailed "a" ∈ logs) ∧
  (∃ fs' logs,
     Cri.Install Cri.noFaults Cri.sampleConfigure false None
       = (fs', logs, None)).
Proof.
  split_and!.
  - destruct (Install_reconciles Cri.noFaults Cri.sampleConfigure
                Cri.sampleStore eq_refl
                (sampleRegistry_fault_free Cri.noFaults _ eq_refl eq_refl eq_refl eq_refl)
                sampleStore_no_file) as (fs' & logs & Heq & Hren & Hrem).
    exists fs', logs. split; [exact Heq|]. split_and!.
    + apply (Hrem "a" ∅); [reflexivity|].
      unfold Cri.servers. simpl. set_solver.
    + destruct (Hren ("b", Cri.sampleRegistry "b") ltac:(by left))
        as (files & kr' & Hl & _ & _ & (hf & Hhf & _)).
      exists files. split; [exact Hl|]. by rewrite Hhf.
    + destruct (Hren ("c", Cri.sampleRegistry "c") ltac:(right; by left))
        as (files & kr' & Hl & _ & _ & (hf & Hhf & _)).
      exists files. split; [exact Hl|]. by rewrite Hhf.
  - destruct (Install_reconciles Cri.removeFails Cri.sampleConfigure
                Cri.sampleStore eq_refl
                (sampleRegistry_fault_free Cri.removeFails _ eq_refl eq_refl eq_refl
                   eq_refl)
                sampleStore_no_file) as (fs' & logs & Heq & _ & Hrem).
    exists fs', logs. split; [exact Heq|].
    apply (Hrem "a" ∅); [reflexivity|].
    unfold Cri.servers. simpl. set_solver.
  - destruct (Install_reconciles Cri.noFaults Cri.sampleConfigure None eq_refl
                (sampleRegistry_fault_free Cri.noFaults _ eq_refl eq_refl eq_refl eq_refl))
      as (fs' & logs & Heq & _).
    + intros kr raw _. simpl. by rewrite lookup_empty.
    + by exists fs', logs.
Defined.

(** ** Strings *)

Lemma sapp_nil_l s : "" +:+ s = s.
Proof. reflexivity. Qed.

Lemma sapp_cons c s t : String c s +:+ t = String c (s +:+ t).
Proof. reflexivity. Qed.

Lemma sapp_nil_r s : s +:+ "" = s.
Proof. induction s as [|c s IH]; [done|]. by rewrite sapp_cons, IH. Qed.

Lemma sapp_assoc s t u : (s +:+ t) +:+ u = s +:+ (t +:+ u).
Proof. induction s as [|c s IH]; [done|]. by rewrite !sapp_cons, IH. Qed.

Lemma slength_app s t : String.length (s +:+ t) = String.length s + String.length t.
Proof. induction s as [|c s IH]; [done|]. rewrite sapp_cons. simpl. by rewrite IH. Qed.

Lemma stringsJoin_cons x l : Go.stringsJoin (x :: l) = x +:+ Go.stringsJoin l.
Proof.
  unfold Go.stringsJoin. destruct l as [|y l]; simpl.
  - by rewrite sapp_nil_r.
  - done.
Qed.

(** The pieces of [strings.Split(s, "")] put together give [s] back. *)
Lemma splitRunes_join s : ∀ pending cur,
  Go.stringsJoin (Go.splitRunes s pending cur) = cur +:+ s.
Proof.
  induction s as [|c s IH]; intros pending cur; cbn [Go.splitRunes].
  - rewrite sapp_nil_r. by destruct cur.
  - destruct (match pending with 0 => Go.runeSize (String c s) | S _ => pending end)
      as [|[|k]].
    + rewrite stringsJoin_cons, IH, sapp_assoc. done.
    + rewrite stringsJoin_cons, IH, sapp_assoc. done.
    + rewrite IH, sapp_assoc. done.
Qed.

Lemma stringsSplitEmpty_join s :
  Go.stringsJoin (Go.stringsSplitEmpty s) = s.
Proof. apply splitRunes_join. Qed.

(** ** [matchPauseVersion] *)

(** C10 (as amended): [matchPauseVersion] returns for the empty input
    (version "" and registry "k8s.gcr.io") and for an input whose form
    without 'v' and '.' has at least three characters: it then takes
    exactly the first three characters of that form, looks them up in the
    table and returns "registry.k8s.io" if they parse as an integer of at
    least 125 and "k8s.gcr.io" otherwise.  For a non-empty input whose
    stripped form has fewer than three characters, the empty form
    included, it slices past the end and panics. *)
Theorem matchPauseVersion_domain (table : gmap string string)
  (kubeVersion : string) :
  Cri.matchPauseVersion table "" = Go.Returned ("", "k8s.gcr.io") ∧
  (kubeVersion ≠ "" → 3 ≤ Cri.runeCount (Cri.stripVersion kubeVersion) →
   ∃ c1 c2 c3 more,
     Go.stringsSplitEmpty (Cri.stripVersion kubeVersion)
       = c1 :: c2 :: c3 :: more ∧
     Cri.stripVersion kubeVersion
       = (c1 +:+ c2 +:+ c3) +:+ Go.stringsJoin more ∧
     Cri.matchPauseVersion table kubeVersion
       = Go.Returned
           (default "" (table !! (c1 +:+ c2 +:+ c3)),
            if (125 <=? (Go.Atoi (c1 +:+ c2 +:+ c3)).1)%Z
            then "registry.k8s.io" else "k8s.gcr.io")) ∧
  (kubeVersion ≠ "" → Cri.runeCount (Cri.stripVersion kubeVersion) < 3 →
   Cri.matchPauseVersion table kubeVersion
     = Go.Panic "slice bounds out of range").
Proof.
  split; [reflexivity|]. split.
  - intros Hne Hlen. unfold Cri.runeCount in Hlen.
    pose proof (stringsSplitEmpty_join (Cri.stripVersion kubeVersion)) as Hjoin.
    destruct (Go.stringsSplitEmpty (Cri.stripVersion kubeVersion))
      as [|c1 [|c2 [|c3 more]]] eqn:Hsplit; simpl in Hlen; try lia.
    exists c1, c2, c3, more. split; [done|]. split.
    + rewrite <- Hjoin at 1. rewrite !stringsJoin_cons, !sapp_assoc. done.
    + unfold Cri.matchPauseVersion.
      destruct (String.eqb_spec kubeVersion "") as [|_]; [done|].
      fold (Cri.stripVersion kubeVersion). rewrite Hsplit. reflexivity.
  - intros Hne Hlen. unfold Cri.runeCount in Hlen.
    unfold Cri.matchPauseVersion.
    destruct (String.eqb_spec kubeVersion "") as [|_]; [done|].
    fold (Cri.stripVersion kubeVersion). unfold Go.sliceTo.
    destruct (Nat.ltb_spec (length (Go.stringsSplitEmpty
                (Cri.stripVersion kubeVersion))) 3); [done|lia].
Qed.

Lemma matchPauseVersion_domain_witness :
  Cri.matchPauseVersion Cri.samplePauseTable "v1.25.4"
    = Go.Returned ("3.8", "registry.k8s.io") ∧
  Cri.matchPauseVersion Cri.samplePauseTable "v1.2"
    = Go.Panic "slice bounds out of range".
Proof.
  destruct (matchPauseVersion_domain Cri.samplePauseTable "v1.25.4")
    as (_ & Hok & _).
  destruct (matchPauseVersion_domain Cri.samplePauseTable "v1.2")
    as (_ & _ & Hbad).
  split.
  - destruct Hok as (c1 & c2 & c3 & more & Hsplit & _ & Hres);
      [done|vm_compute; lia|].
    vm_compute in Hsplit. injection Hsplit as <- <- <- _. exact Hres.
  - apply Hbad; [done|vm_compute; lia].
Defined.

(** C10 as stated fails: the input "v" has the empty stripped form, which
    the claimed precondition admits, and the call panics; emptiness is
    tested on the input before the characters are removed. *)
Lemma matchPauseVersion_stripped_empty :
  Cri.stripVersion "v" = "" ∧
  Cri.matchPauseVersion Cri.samplePauseTable "v"
    = Go.Panic "slice bounds out of range".
Proof. split; reflexivity. Qed.

(** ** The matcher against the meaning of patterns *)

Lemma stripPrefix_Some p : ∀ s s', Go.stripPrefix p s = Some s' ↔ s = p +:+ s'.
Proof.
  induction p as [|a p IH]; intros s s'; simpl.
  - rewrite sapp_nil_l. split; congruence.
  - destruct s as [|b s]; [by rewrite sapp_cons|].
    rewrite sapp_cons. destruct (Ascii.eqb_spec a b) as [->|Hne].
    + rewrite IH. split; [by intros ->|by intros [= ->]].
    + split; [done|]. intros [= -> _]. done.
Qed.

Lemma allChars_app p a b :
  allChars p (a +:+ b) = allChars p a && allChars p b.
Proof.
  induction a as [|c a IH]; [done|].
  rewrite sapp_cons. simpl. by rewrite IH, andb_assoc.
Qed.

Lemma lazyAny_sound k s n :
  Go.lazyAny k s = Some n →
  ∃ a s' n', s = a +:+ s' ∧ allChars Go.isDot a = true ∧
             k s' = Some n' ∧ n = String.length a + n'.
Proof.
  revert n. induction s as [|c s IH]; intros n; simpl.
  - destruct (k "") as [n0|] eqn:Hk; [|done].
    intros [= <-]. by exists "", "", n0.
  - destruct (k (String c s)) as [n0|] eqn:Hk.
    + intros [= <-]. by exists "", (String c s), n0.
    + destruct (Go.isDot c) eqn:Hc; [|done].
      destruct (Go.lazyAny k s) as [n1|]; [|done]. simpl. intros [= <-].
      destruct (IH n1 eq_refl) as (a & s' & n' & -> & Ha & Hk' & ->).
      exists (String c a), s', n'. rewrite sapp_cons. simpl.
      by rewrite Hc, Ha.
Qed.

Lemma greedyPlus_sound cls k s n :
  Go.greedyPlus cls k s = Some n →
  ∃ a s' n', s = a +:+ s' ∧ a ≠ "" ∧ allChars (Go.inClass cls) a = true ∧
             k s' = Some n' ∧ n = String.length a + n'.
Proof.
  revert n. induction s as [|c s IH]; intros n; simpl; [done|].
  destruct (Go.inClass cls c) eqn:Hc; [|done].
  destruct (Go.greedyPlus cls k s) as [n1|].
  - intros [= <-].
    destruct (IH n1 eq_refl) as (a & s' & n' & -> & _ & Ha & Hk' & ->).
    exists (String c a), s', n'. rewrite sapp_cons. simpl.
    by rewrite Hc, Ha.
  - destruct (k s) as [n0|] eqn:Hk; [|done]. simpl. intros [= <-].
    exists (String c ""), s, n0. simpl. by rewrite Hc.
Qed.

(** What the matcher returns is the length of a prefix that matches. *)
Lemma matchHere_sound re : ∀ s n,
  Go.matchHere re s = Some n →
  ∃ m rest, s = m +:+ rest ∧ String.length m = n ∧ Matches re m.
Proof.
  induction re as [|[l| |cls] re IH]; intros s n; cbn [Go.matchHere].
  - intros [= <-]. exists "", s. split_and!; [done|done|constructor].
  - destruct (Go.stripPrefix l s) as [s'|] eqn:Hp; [|done].
    apply stripPrefix_Some in Hp as ->.
    destruct (Go.matchHere re s') as [n0|] eqn:Hm; [|done].
    simpl. intros [= <-].
    destruct (IH s' n0 Hm) as (m & rest & -> & <- & HM).
    exists (l +:+ m), rest. split_and!.
    + by rewrite sapp_assoc.
    + by rewrite slength_app.
    + by constructor.
  - intros Hl.
    destruct (lazyAny_sound _ _ _ Hl) as (a & s' & n' & -> & Ha & Hk & ->).
    destruct (IH s' n' Hk) as (m & rest & -> & <- & HM).
    exists (a +:+ m), rest. split_and!.
    + by rewrite sapp_assoc.
    + by rewrite slength_app.
    + by constructor.
  - intros Hg.
    destruct (greedyPlus_sound _ _ _ _ Hg)
      as (a & s' & n' & -> & Hne & Ha & Hk & ->).
    destruct (IH s' n' Hk) as (m & rest & -> & <- & HM).
    exists (a +:+ m), rest. split_and!.
    + by rewrite sapp_assoc.
    + by rewrite slength_app.
    + by constructor.
Qed.

Lemma lazyAny_complete k a : ∀ s,
  allChars Go.isDot a = true → is_Some (k s) →
  is_Some (Go.lazyAny k (a +:+ s)).
Proof.
  induction a as [|c a IH]; intros s Ha Hk.
  - rewrite sapp_nil_l. destruct Hk as [n Hk].
    destruct s; simpl; rewrite Hk; by eexists.
  - rewrite sapp_cons. simpl in Ha. apply andb_true_iff in Ha as [Hc Ha].
    simpl. destruct (k (String c (a +:+ s))); [by eexists|].
    rewrite Hc. destruct (IH s Ha Hk) as [n ->]. by eexists.
Qed.

Lemma greedyPlus_complete cls k a : ∀ s,
  a ≠ "" → allChars (Go.inClass cls) a = true → is_Some (k s) →
  is_Some (Go.greedyPlus cls k (a +:+ s)).
Proof.
  induction a as [|c a IH]; intros s Hne Ha Hk; [done|].
  rewrite sapp_cons. simpl in Ha. apply andb_true_iff in Ha as [Hc Ha].
  simpl. rewrite Hc.
  destruct a as [|c' a].
  - rewrite sapp_nil_l. destruct (Go.greedyPlus cls k s); [by eexists|].
    destruct Hk as [n ->]. by eexists.
  - destruct (IH s ltac:(done) Ha Hk) as [n ->]. by eexists.
Qed.

(** Where a prefix matches, the matcher finds a match. *)
Lemma matchHere_complete re m :
  Matches re m → ∀ rest, is_Some (Go.matchHere re (m +:+ rest)).
Proof.
  induction 1 as [|l re m HM IH|re a m Ha HM IH|cls re a m Hne Ha HM IH];
    intros rest; cbn [Go.matchHere].
  - by eexists.
  - rewrite sapp_assoc.
    assert (Go.stripPrefix l (l +:+ m +:+ rest) = Some (m +:+ rest)) as ->
      by (by apply stripPrefix_Some).
    destruct (IH rest) as [n ->]. by eexists.
  - rewrite sapp_assoc. by apply lazyAny_complete.
  - rewrite sapp_assoc. by apply greedyPlus_complete.
Qed.

Lemma takeString_app m rest : Go.takeString (String.length m) (m +:+ rest) = m.
Proof.
  induction m as [|c m IH].
  - rewrite sapp_nil_l. simpl. by destruct rest.
  - rewrite sapp_cons. simpl. by rewrite IH.
Qed.

(** ** [FindAllString] *)

Lemma findAllFrom_sound re s : ∀ skip x,
  x ∈ Go.findAllFrom re s skip → ∃ pre, occursAt re s pre x.
Proof.
  induction s as [|c s IH]; intros skip x.
  - destruct skip as [|k]; simpl; [|by intros ?%elem_of_nil].
    destruct (Go.matchHere re "") as [n|] eqn:Hm; [|by intros ?%elem_of_nil].
    intros Hx%list_elem_of_singleton. subst x.
    destruct (matchHere_sound re "" n Hm) as (m & rest & Hs & Hn & HM).
    destruct m; [|done]. simpl in Hn. subst n. simpl.
    exists "". split; [by exists ""|done].
  - assert (Hshift : ∀ k, x ∈ Go.findAllFrom re s k →
              ∃ pre, occursAt re (String c s) pre x).
    { intros k Hx. destruct (IH k x Hx) as (pre & [post ->] & HM).
      exists (String c pre). split; [|done]. by exists post. }
    destruct skip as [|k]; simpl; [|apply Hshift].
    destruct (Go.matchHere re (String c s)) as [n|] eqn:Hm; [|apply Hshift].
    intros [->|Hx]%elem_of_cons; [|by eapply Hshift].
    destruct (matchHere_sound re _ n Hm) as (m & rest & Hs & <- & HM).
    rewrite Hs, takeString_app. exists "". split; [|done].
    exists rest. by rewrite sapp_nil_l.
Qed.


Lemma occursAt_cons_inv re c s pre m :
  occursAt re (String c s) pre m →
  pre = "" ∨ ∃ pre', pre = String c pre' ∧ occursAt re s pre' m.
Proof.
  intros [[post Hs] HM]. destruct pre as [|c' pre]; [by left|].
  right. rewrite sapp_cons in Hs. injection Hs as -> ->.
  exists pre. split; [done|]. split; [by exists post|done].
Qed.


(** The first match found begins no later than any part that matches. *)
Lemma findAllFrom_head re s : ∀ x rest,
  Go.findAllFrom re s 0 = x :: rest → leftmostMatch re s x.
Proof.
  induction s as [|c s IH]; intros x rest; simpl.
  - destruct (Go.matchHere re "") as [n|] eqn:Hm; [|done]. intros [= <- _].
    destruct (findAllFrom_sound re "" 0 (Go.takeString n "")) as [pre Hocc].
    { simpl. rewrite Hm. by left. }
    exists pre. split; [done|]. intros pre' m' _.
    destruct Hocc as [[post Hs] _]. destruct pre; [simpl; lia|].
    by rewrite sapp_cons in Hs.
  - destruct (Go.matchHere re (String c s)) as [n|] eqn:Hm.
    + intros [= <- _].
      destruct (matchHere_sound re _ n Hm) as (m & rest' & Hs & <- & HM).
      rewrite Hs, takeString_app. exists "". split.
      * split; [|done]. exists rest'. by rewrite sapp_nil_l.
      * intros. simpl. lia.
    + intros Hf. destruct (IH x rest Hf) as (pre & [[post ->] HM] & Hleft).
      exists (String c pre). split.
      * split; [by exists post|done].
      * intros pre' m' Hocc.
        destruct (occursAt_cons_inv _ _ _ _ _ Hocc)
          as [Hpre|(pre'' & Hpre & Hocc')]; subst pre'.
        -- assert (is_Some (Go.matchHere re (String c (pre +:+ x +:+ post))))
             as [? ?]; [|congruence].
           destruct Hocc as [[post' Hs] HM']. rewrite Hs, sapp_nil_l.
           by apply matchHere_complete.
        -- simpl. specialize (Hleft pre'' m' Hocc'). lia.
Qed.

(** ** The match the search prefers *)











(** ** The successive matches *)








(** ** [extractJoinCommands] *)

Lemma Matches_lit_nonempty c l rest m :
  Matches (Go.Lit (String c l) :: rest) m → m ≠ "".
Proof. inversion 1; subst. by rewrite sapp_cons. Qed.


Lemma firstWorker_elem l :
  K8s.firstWorker l ≠ "" →
  K8s.firstWorker l ∈ l ∧
  Go.stringsContains (K8s.firstWorker l) "--control-plane" = false.
Proof.
  induction l as [|m l IH]; simpl; [done|].
  destruct (Go.stringsContains m "--control-plane") eqn:Hc; simpl.
  - intros Hne. destruct (IH Hne) as [Hin Hf]. split; [by right|done].
  - intros _. split; [by left|done].
Qed.








(** * Further properties *)

(** ** The ordered insert: idempotence and first-wins *)

Lemma orderedInsert_present_key {A} (key : A → string) l x :
  sortedBy key l → (∃ y, y ∈ l ∧ key y = key x) → orderedInsert key l x = l.
Proof.
  intros Hs (y & Hy & Hkey).
  destruct (orderedInsert_spec key l x Hs)
    as (l1 & l2 & -> & H1 & [[Heq _]|[_ H2]]); [done|].
  exfalso. rewrite Forall_forall in H1, H2.
  apply elem_of_app in Hy as [Hy|Hy].
  - specialize (H1 y Hy). rewrite Hkey in H1. by apply keyLt_irrefl in H1.
  - specialize (H2 y Hy). rewrite Hkey in H2. by apply keyLt_irrefl in H2.
Qed.

Lemma orderedInsert_new_key {A} (key : A → string) l x :
  sortedBy key l → x ∈ orderedInsert key l x →
  x ∈ l ∨ ∀ y, y ∈ l → key y ≠ key x.
Proof.
  intros Hs Hx.
  destruct (orderedInsert_spec key l x Hs)
    as (l1 & l2 & -> & H1 & [[Heq _]|[_ H2]]).
  - left. by rewrite Heq in Hx.
  - right. rewrite Forall_forall in H1, H2.
    intros y [Hy|Hy]%elem_of_app Hkey.
    + specialize (H1 y Hy). rewrite Hkey in H1. by apply keyLt_irrefl in H1.
    + specialize (H2 y Hy). rewrite Hkey in H2. by apply keyLt_irrefl in H2.
Qed.

Lemma appendUniqueRegistry_covered items : ∀ s,
  sortedBy regKey s →
  (∀ x, x ∈ items → ∃ y, y ∈ s ∧ regKey y = regKey x) →
  appendUniqueRegistry s items = s.
Proof.
  induction items as [|x items IH]; intros s Hs Hcov; [done|].
  simpl. rewrite appendUnique1_orderedInsert.
  rewrite orderedInsert_present_key; [|done|apply Hcov; by left].
  apply IH; [done|]. intros x' Hx'. apply Hcov. by right.
Qed.

Lemma appendUniqueRegistry_present items : ∀ s x,
  sortedBy regKey s → x ∈ items →
  ∃ y, y ∈ appendUniqueRegistry s items ∧ regKey y = regKey x.
Proof.
  induction items as [|x0 items IH]; intros s x Hs Hx;
    [by apply elem_of_nil in Hx|].
  simpl. rewrite appendUnique1_orderedInsert.
  pose proof (orderedInsert_sorted regKey s x0 Hs) as Hs'.
  apply elem_of_cons in Hx as [->|Hx]; [|by apply IH].
  destruct (orderedInsert_present regKey s x0 Hs) as [Hin|(y & Hy & Hkey)].
  - exists x0. split; [by apply appendUniqueRegistry_mono|done].
  - exists y. split; [|done].
    by apply appendUniqueRegistry_mono, orderedInsert_mono.
Qed.

(** X1: merging the same items a second time changes nothing. *)
Theorem appendUniqueRegistry_idempotent s items :
  NoDupKeys s → AscendingKeys s →
  appendUniqueRegistry (appendUniqueRegistry s items) items
    = appendUniqueRegistry s items.
Proof.
  intros Hnd Hasc.
  assert (Hs : sortedBy regKey s) by (by apply sortedBy_keys).
  apply appendUniqueRegistry_covered.
  - by apply appendUniqueRegistry_sortedBy.
  - intros x Hx. by apply appendUniqueRegistry_present.
Qed.

Lemma appendUniqueRegistry_idempotent_witness :
  appendUniqueRegistry
    (appendUniqueRegistry [httpSpec "a"] [httpSpec "b"; httpSpec "a"])
    [httpSpec "b"; httpSpec "a"]
  = appendUniqueRegistry [httpSpec "a"] [httpSpec "b"; httpSpec "a"].
Proof.
  apply appendUniqueRegistry_idempotent.
  - intros [|i] [|j] x y Hij Hx Hy; simplify_eq/=; try done;
      by rewrite ?lookup_nil in *.
  - intros [|i] [|j] x y Hij Hx Hy; simplify_eq/=; try done;
      by rewrite ?lookup_nil in *.
Defined.

(** X2: the first entry with a key wins.  Every entry of the start stays,
    and an entry of the result that is not from the start is an item whose
    key the start did not have. *)
Theorem appendUniqueRegistry_first_wins s items :
  NoDupKeys s → AscendingKeys s →
  (∀ r, r ∈ s → r ∈ appendUniqueRegistry s items) ∧
  (∀ r, r ∈ appendUniqueRegistry s items →
     r ∈ s ∨ (r ∈ items ∧ ∀ y, y ∈ s → regKey y ≠ regKey r)).
Proof.
  intros Hnd Hasc.
  assert (Hs : sortedBy regKey s) by (by apply sortedBy_keys).
  clear Hnd Hasc. split; [intros r; apply appendUniqueRegistry_mono|].
  revert s Hs. induction items as [|x items IH]; intros s Hs r Hr; [by left|].
  simpl in Hr. rewrite appendUnique1_orderedInsert in Hr.
  pose proof (orderedInsert_sorted regKey s x Hs) as Hs'.
  destruct (IH _ Hs' r Hr) as [Hin|[Hin Hfresh]].
  - destruct (orderedInsert_from regKey s x r Hin) as [->|Hin']; [|by left].
    destruct (orderedInsert_new_key regKey s x Hs Hin) as [Hold|Hnew];
      [by left|].
    right. split; [by left|done].
  - right. split; [by right|].
    intros y Hy. apply Hfresh. by apply orderedInsert_mono.
Qed.

Lemma appendUniqueRegistry_first_wins_witness :
  httpsSkipSpec "x" ∈
    appendUniqueRegistry [httpsSkipSpec "x"]
      [mkRegistrySpec "https" "x" false "PEM" None] ∧
  mkRegistrySpec "https" "x" false "PEM" None ∉
    appendUniqueRegistry [httpsSkipSpec "x"]
      [mkRegistrySpec "https" "x" false "PEM" None].
Proof.
  destruct (appendUniqueRegistry_first_wins [httpsSkipSpec "x"]
              [mkRegistrySpec "https" "x" false "PEM" None]) as [Hkeep Hnew].
  - intros [|i] [|j] x y Hij Hx Hy; simplify_eq/=; try done;
      by rewrite ?lookup_nil in *.
  - intros [|i] [|j] x y Hij Hx Hy; simplify_eq/=; try done;
      by rewrite ?lookup_nil in *.
  - split; [apply Hkeep; by left|].
    intros Hin. destruct (Hnew _ Hin) as [Hold|[_ Hfresh]].
    + apply list_elem_of_singleton in Hold. discriminate Hold.
    + by apply (Hfresh (httpsSkipSpec "x")); [left|].
Defined.

(** ** [getClusterCRIRegistries]: shape and origin of the result *)

(** X3: whenever the reconciliation succeeds, the result has no two
    entries with one identity key and is in ascending key order. *)
Theorem getClusterCRIRegistries_canonical (h : handler) (c : Cluster) regs :
  (getClusterCRIRegistries h c).2 = inl regs →
  NoDupKeys regs ∧ AscendingKeys regs.
Proof.
  intros Hres. unfold getClusterCRIRegistries in Hres.
  destruct (registryLoop h _ _) as [st [e|]] eqn:Hloop; [done|].
  simpl in Hres. simplify_eq.
  apply sortedBy_keys.
  apply (registryLoop_merged h _ _ _ Hloop). apply insecureSpecs_sorted.
Qed.

Lemma getClusterCRIRegistries_canonical_witness :
  ∃ regs, (getClusterCRIRegistries sampleHandler sampleCluster).2 = inl regs ∧
          NoDupKeys regs ∧ AscendingKeys regs.
Proof.
  eexists. split; [reflexivity|].
  apply (getClusterCRIRegistries_canonical sampleHandler sampleCluster).
  reflexivity.
Defined.

Lemma elem_of_insert_inv {A} (l : list A) i x y :
  y ∈ <[i:=x]> l → y = x ∨ y ∈ l.
Proof.
  revert i. induction l as [|a l IH]; intros i Hy; [by right|].
  destruct i as [|i]; simpl in Hy.
  - apply elem_of_cons in Hy as [->|Hy]; [by left|right; by right].
  - apply elem_of_cons in Hy as [->|Hy]; [right; by left|].
    destruct (IH i Hy) as [->|Hin]; [by left|right; by right].
Qed.

Section Provenance.
Variable h : handler.
Variable c : Cluster.

Lemma derived_literal reg0 reg :
  derivedFrom h reg0 reg → classify h reg = Literal →
  classify h reg0 = Literal ∧ InsecureRegistry reg0 = InsecureRegistry reg.
Proof. intros [->|[Hk ->]] Hl; [done|]. by split. Qed.

Lemma derived_resolved reg0 reg spec :
  derivedFrom h reg0 reg → classify h reg = Resolved spec → reg = reg0.
Proof. intros [->|[Hk ->]] Hl; [done|]. by vm_compute in Hl. Qed.

Lemma insecureSpecs_origin hosts : ∀ acc r,
  r ∈ foldl (fun regs host =>
               appendUniqueRegistry regs [httpSpec host; httpsSkipSpec host])
            acc hosts →
  r ∈ acc ∨ ∃ host, host ∈ hosts ∧ fromPair host r.
Proof.
  induction hosts as [|x hosts IH]; intros acc r Hr; [by left|].
  cbn [foldl] in Hr. destruct (IH _ _ Hr) as [Hin|(host & Hh & Hf)].
  - apply appendUniqueRegistry_from in Hin as [Hin|Hin]; [|by left].
    right. exists x. split; [by left|].
    apply elem_of_cons in Hin as [->|Hin]; [by left|].
    apply list_elem_of_singleton in Hin as ->. by right.
  - right. exists host. split; [by right|done].
Qed.

Lemma registryStep_origin st i st' :
  registryStep h st i = inl st' →
  derivedEntries h c (backing st) → (∀ r, r ∈ merged st → entryOrigin h c r) →
  derivedEntries h c (backing st') ∧ (∀ r, r ∈ merged st' → entryOrigin h c r).
Proof.
  intros Hstep Hd Hp. destruct (backing st !! i) as [reg|] eqn:Hreg.
  - pose proof (registryStep_cases h st i reg Hreg) as Hc.
    destruct (Hd reg (list_elem_of_lookup_2 _ _ _ Hreg)) as (reg0 & Hin0 & Hder).
    destruct (classify h reg) as [|spec| |ref e] eqn:Hk;
      rewrite Hc in Hstep; simplify_eq; cbn [merged backing pushValid setMerged].
    + destruct (derived_literal reg0 reg Hder Hk) as [Hk0 Hhost].
      split.
      * intros reg' [->|Hin]%elem_of_insert_inv; [|by apply Hd].
        exists reg0. split; [done|]. right. by rewrite Hhost.
      * intros r [Hin|Hin]%appendUniqueRegistry_from; [|by apply Hp].
        left. exists (InsecureRegistry reg). split.
        -- right. by exists reg0.
        -- apply elem_of_cons in Hin as [->|Hin]; [by left|].
           apply list_elem_of_singleton in Hin as ->. by right.
    + pose proof (derived_resolved reg0 reg spec Hder Hk) as ->.
      split.
      * intros reg' [->|Hin]%elem_of_insert_inv; [|by apply Hd].
        exists reg0. split; [done|by left].
      * intros r [Hin|Hin]%appendUniqueRegistry_from; [|by apply Hp].
        apply list_elem_of_singleton in Hin as ->.
        right. by exists reg0.
    + done.
  - rewrite registryStep_out_of_range in Hstep by done. by simplify_eq.
Qed.

Lemma registryLoop_origin idxs : ∀ st st',
  registryLoop h st idxs = (st', None) →
  derivedEntries h c (backing st) → (∀ r, r ∈ merged st → entryOrigin h c r) →
  ∀ r, r ∈ merged st' → entryOrigin h c r.
Proof.
  induction idxs as [|i idxs IH]; intros st st' Hloop Hd Hp; simpl in Hloop.
  - by simplify_eq.
  - destruct (registryStep h st i) as [st1|e] eqn:Hstep; [|done].
    destruct (registryStep_origin st i st1 Hstep Hd Hp) as [Hd1 Hp1].
    by apply (IH st1 st').
Qed.

(** X4: nothing is invented.  Every entry of the result is the http or
    https entry of a host that is declared insecure, mirrored by an addon
    or listed literally, or it is the registry a reference of the
    explicit list resolved to. *)
Theorem getClusterCRIRegistries_origin regs r :
  (getClusterCRIRegistries h c).2 = inl regs → r ∈ regs →
  (∃ host, pairHost h c host ∧ fromPair host r) ∨
  (∃ reg, reg ∈ CRRegistries c ∧ classify h reg = Resolved r).
Proof.
  intros Hres Hr. change (entryOrigin h c r).
  unfold getClusterCRIRegistries in Hres.
  destruct (registryLoop h _ _) as [st [e|]] eqn:Hloop; [done|].
  simpl in Hres. simplify_eq.
  apply (registryLoop_origin _ _ _ Hloop); [| |done]; simpl.
  - intros reg Hin. exists reg. split; [done|by left].
  - intros r' Hr'. left.
    apply insecureSpecs_origin in Hr' as [Hnil|(host & Hh & Hf)];
      [by apply elem_of_nil in Hnil|].
    exists host. split; [|done]. left. by apply insecureHosts_from.
Qed.

End Provenance.

Lemma getClusterCRIRegistries_origin_witness :
  (∃ host, pairHost sampleHandler sampleCluster host ∧
           fromPair host (httpSpec "x")) ∨
  (∃ reg, reg ∈ CRRegistries sampleCluster ∧
          classify sampleHandler reg = Resolved (httpSpec "x")).
Proof.
  eapply (getClusterCRIRegistries_origin sampleHandler sampleCluster).
  - reflexivity.
  - vm_compute. right. right. by left.
Defined.

(** X5: a lookup failure leaves its mark on the caller's list.  When the
    first failing lookup comes after the entries [pre], the call returns
    the error, and the cluster's explicit list, which shares its array
    with the list of valid entries, begins with the valid entries of
    [pre] and continues with the original from there on: it keeps its
    length but not its contents. *)
Theorem getClusterCRIRegistries_error_overwrites (h : handler) (c : Cluster)
  pre reg post ref e :
  CRRegistries c = pre ++ reg :: post →
  Forall (fun reg => isBroken (classify h reg) = false) pre →
  classify h reg = Broken ref e →
  CRRegistries (getClusterCRIRegistries h c).1
    = validEntries h pre ++
      drop (length (validEntries h pre)) (CRRegistries c) ∧
  length (CRRegistries (getClusterCRIRegistries h c).1)
    = length (CRRegistries c).
Proof.
  intros Hc Hok Hk.
  destruct (registryLoop_stretch h pre (CRRegistries c) [] (reg :: post)
              _ Hc (loopInv_start h c) Hok) as (st & Hloop & Hinv).
  simpl in Hloop, Hinv.
  pose proof (loopInv_read h _ _ _ _ _ Hc Hinv) as Hread.
  pose proof (registryStep_cases h st (length pre) reg Hread) as Hstep.
  rewrite Hk in Hstep.
  assert (Hlist : CRRegistries (getClusterCRIRegistries h c).1
            = validEntries h pre ++
              drop (length (validEntries h pre)) (CRRegistries c)).
  { unfold getClusterCRIRegistries.
    rewrite Hc at 2. rewrite length_app. simpl length.
    rewrite seq_app, registryLoop_app, Hloop. simpl. rewrite Hstep. simpl.
    by destruct Hinv. }
  split; [done|]. rewrite Hlist, length_app, length_drop.
  pose proof (validEntries_length h pre). rewrite Hc, !length_app. simpl. lia.
Qed.

Lemma getClusterCRIRegistries_error_overwrites_witness :
  CRRegistries (getClusterCRIRegistries sampleHandler brokenCluster).1
    = [literalEntry "x"; literalEntry "x"; mkCRIRegistry "" (Some "down")].
Proof.
  destruct (getClusterCRIRegistries_error_overwrites sampleHandler
              brokenCluster [mkCRIRegistry "" (Some "gone"); literalEntry "x"]
              (mkCRIRegistry "" (Some "down")) [] "down"
              (OtherError "timeout") eq_refl) as [Hlist _].
  - repeat constructor.
  - reflexivity.
  - exact Hlist.
Defined.

(** ** [getCRIRegistriesStep]: when a step comes back *)

(** X6: a step is returned only when the sequences differ and node
    discovery returned no node at all; the step is then the one the
    controller builds for the empty node list. *)
Theorem getCRIRegistriesStep_step_needs_no_nodes (h : handler)
  (label : string) cluster registries step err :
  getCRIRegistriesStep h label cluster registries
    = Go.Returned (Some step, err) →
  NeedsUpdate (StatusRegistries cluster) registries = true ∧
  ListNodes h (clusterSelector label cluster) = inl [] ∧
  CRIRegistryUpdateStep h cluster registries [] = inl step ∧
  err = None.
Proof.
  unfold getCRIRegistriesStep, NeedsUpdate.
  destruct (negb (registriesEqual _ _)); [|done].
  destruct (ListNodes h _) as [[|n nodes]|e]; [|done|done].
  unfold criRegistryUpdateStep. simpl.
  destruct (CRIRegistryUpdateStep h cluster registries []) as [s|e]; [|done].
  by intros [= -> <-].
Qed.

Lemma getCRIRegistriesStep_step_needs_no_nodes_witness :
  ListNodes emptyNodesHandler (clusterSelector "cluster" sampleCluster)
    = inl [].
Proof.
  eapply (getCRIRegistriesStep_step_needs_no_nodes emptyNodesHandler
            "cluster" sampleCluster [httpSpec "a"]).
  reflexivity.
Defined.

(** ** [ToContainerdRegistryConfig] and [FilterRegistryWithAuth] *)

Lemma addRegistry_lookup cfgs r k :
  Containerd.addRegistry cfgs r !! k =
  if decide (Host r = k)
  then Some {| Cri.Server :=
                 Cri.Server (default {| Cri.Server := Host r; Cri.Hosts := [] |}
                               (cfgs !! Host r));
               Cri.Hosts :=
                 Cri.Hosts (default {| Cri.Server := Host r; Cri.Hosts := [] |}
                              (cfgs !! Host r)) ++ [Containerd.hostOf r] |}
  else cfgs !! k.
Proof.
  unfold Containerd.addRegistry. rewrite lookup_insert.
  destruct (decide (Host r = k)); [|done]. by destruct (cfgs !! Host r).
Qed.

Lemma ToContainerdRegistryConfig_fold registries : ∀ cfgs k,
  (∀ k cfg, cfgs !! k = Some cfg → Cri.Server cfg = k ∧ Cri.Hosts cfg ≠ []) →
  foldl Containerd.addRegistry cfgs registries !! k =
  match cfgs !! k, filter (fun r => Host r = k) registries with
  | None, [] => None
  | None, rs => Some {| Cri.Server := k;
                        Cri.Hosts := Containerd.hostOf <$> rs |}
  | Some cfg, rs => Some {| Cri.Server := k;
                            Cri.Hosts := Cri.Hosts cfg ++
                                         (Containerd.hostOf <$> rs) |}
  end.
Proof.
  induction registries as [|r registries IH]; intros cfgs k Hwf.
  - simpl. destruct (cfgs !! k) as [cfg|] eqn:Hk; [|done].
    destruct (Hwf k cfg Hk) as [<- _]. rewrite app_nil_r. by destruct cfg.
  - cbn [foldl]. rewrite IH.
    + rewrite addRegistry_lookup.
      destruct (decide (Host r = k)) as [Heq|Hne].
      * rewrite filter_cons_True by done. subst k.
        destruct (cfgs !! Host r) as [cfg|] eqn:Hk; simpl.
        -- by rewrite <- app_assoc.
        -- by destruct (filter _ registries).
      * rewrite filter_cons_False by done. done.
    + intros k' cfg'. rewrite addRegistry_lookup.
      destruct (decide (Host r = k')) as [Heq|Hne]; [|apply Hwf].
      intros [= <-]. simpl. split.
      * destruct (cfgs !! Host r) as [cfg|] eqn:Hk; simpl; [|done].
        by destruct (Hwf _ cfg Hk) as [-> _].
      * by destruct (Cri.Hosts _).
Qed.

(** X7: [ToContainerdRegistryConfig] groups the registries by host.  The
    map has a registry for exactly the hosts that occur; its server is
    the host and its endpoints are those of the registries with that
    host, in their order, each with the three capabilities. *)
Theorem ToContainerdRegistryConfig_groups (registries : list RegistrySpec)
  (k : string) :
  Containerd.ToContainerdRegistryConfig registries !! k =
  match filter (fun r => Host r = k) registries with
  | [] => None
  | rs => Some {| Cri.Server := k; Cri.Hosts := Containerd.hostOf <$> rs |}
  end.
Proof.
  unfold Containerd.ToContainerdRegistryConfig.
  rewrite ToContainerdRegistryConfig_fold.
  - by rewrite lookup_empty.
  - intros k' cfg. by rewrite lookup_empty.
Qed.

Lemma FilterRegistryWithAuth_fold registries : ∀ acc,
  foldl (fun list r =>
           match RegistryAuth r with
           | Some _ => list ++ [r]
           | None => list
           end) acc registries
  = acc ++ filter (fun r => RegistryAuth r ≠ None) registries.
Proof.
  induction registries as [|r registries IH]; intros acc; simpl.
  - by rewrite app_nil_r.
  - rewrite IH. destruct (RegistryAuth r) eqn:Ha.
    + rewrite filter_cons_True by (by rewrite Ha). by rewrite <- app_assoc.
    + rewrite filter_cons_False by (by rewrite Ha; intros []). done.
Qed.

Lemma sortedBy_filter {A} (key : A → string) (P : A → Prop)
  `{∀ x, Decision (P x)} l :
  sortedBy key l → sortedBy key (filter P l).
Proof.
  induction 1 as [|a l Hs IH Hall]; [constructor|].
  destruct (decide (P a)).
  - rewrite filter_cons_True by done. constructor; [done|].
    rewrite Forall_forall in *. intros y [_ Hy]%list_elem_of_filter. auto.
  - by rewrite filter_cons_False.
Qed.

(** X8: filtering the registries with credentials keeps exactly the
    entries whose [RegistryAuth] is set and keeps the canonical order: a
    list without duplicate keys in ascending order stays so. *)
Theorem FilterRegistryWithAuth_canonical (registries : list RegistrySpec) :
  NoDupKeys registries → AscendingKeys registries →
  NoDupKeys (Containerd.FilterRegistryWithAuth registries) ∧
  AscendingKeys (Containerd.FilterRegistryWithAuth registries) ∧
  ∀ r, r ∈ Containerd.FilterRegistryWithAuth registries ↔
       r ∈ registries ∧ RegistryAuth r ≠ None.
Proof.
  intros Hnd Hasc. unfold Containerd.FilterRegistryWithAuth.
  rewrite FilterRegistryWithAuth_fold, app_nil_l.
  assert (Hs : sortedBy regKey
            (filter (fun r => RegistryAuth r ≠ None) registries)).
  { apply sortedBy_filter. by apply sortedBy_keys. }
  apply sortedBy_keys in Hs as [H1 H2]. split_and!; [done|done|].
  intros r. rewrite list_elem_of_filter. tauto.
Qed.

Lemma FilterRegistryWithAuth_canonical_witness :
  NoDupKeys (Containerd.FilterRegistryWithAuth
               (appendUniqueRegistry [] Containerd.sampleRegistries)) ∧
  AscendingKeys (Containerd.FilterRegistryWithAuth
                   (appendUniqueRegistry [] Containerd.sampleRegistries)).
Proof.
  destruct (FilterRegistryWithAuth_canonical
              (appendUniqueRegistry [] Containerd.sampleRegistries))
    as (H1 & H2 & _).
  - apply sortedBy_keys, appendUniqueRegistry_sortedBy. constructor.
  - apply sortedBy_keys, appendUniqueRegistry_sortedBy. constructor.
  - by split.
Defined.

(** ** What [renderConfigs] writes *)

Lemma pathJoin_nonempty dir name : Cri.pathJoin dir name ≠ "".
Proof. unfold Cri.pathJoin. by destruct dir. Qed.

Lemma pemName_not_toml host : Cri.pemName host ≠ "hosts.toml".
Proof.
  unfold Cri.pemName. generalize (Cri.HostName host). intros x H.
  repeat (destruct x as [|? x];
          [by rewrite ?sapp_nil_l in H|
           rewrite sapp_cons in H;
           first [discriminate H | injection H as _ H]]).
Qed.

Lemma sapp_cancel_r s : ∀ a b, a +:+ s = b +:+ s → a = b.
Proof.
  induction a as [|x a IH]; intros [|y b] H.
  - done.
  - apply (f_equal String.length) in H.
    rewrite sapp_nil_l, sapp_cons in H. simpl in H.
    rewrite slength_app in H. lia.
  - apply (f_equal String.length) in H.
    rewrite sapp_nil_l, sapp_cons in H. simpl in H.
    rewrite slength_app in H. lia.
  - rewrite !sapp_cons in H. injection H as -> H. f_equal. by apply IH.
Qed.

Lemma length_pos_nonempty s : (0 <? String.length s) = true ↔ s ≠ "".
Proof. destruct s; simpl; split; done. Qed.

Section RenderContent.
Variable F : Cri.Faults.

(** A successful run of the loop of [renderConfigs] is the fold of its
    two writes. *)
Lemma writeHosts_fold server hostDir hosts : ∀ files cfgs files' cfgs',
  Cri.writeHosts F server hostDir hosts files cfgs = (files', inl cfgs') →
  foldl (Containerd.writeStep hostDir) (files, cfgs) hosts = (files', cfgs').
Proof.
  induction hosts as [|host hosts IH]; intros files cfgs files' cfgs' Hw.
  - simpl in Hw. by simplify_eq.
  - cbn [Cri.writeHosts] in Hw. cbn [foldl].
    unfold Containerd.writeStep at 2. unfold Containerd.sectionOf. cbn [fst snd].
    destruct (0 <? String.length (Cri.HostCA host)).
    + destruct (Cri.writeFault F server (Cri.HostName host)); [done|].
      destruct (String.eqb_spec (Cri.pathJoin hostDir (Cri.pemName host)) "")
        as [?%pathJoin_nonempty|_]; [done|].
      by apply IH.
    + by apply IH.
Qed.

Lemma writeStep_sections hostDir hosts : ∀ files cfgs,
  (∀ host, host ∈ hosts →
     ∃ host', host' ∈ hosts ∧ Cri.hostKey host' = Cri.hostKey host ∧
       (foldl (Containerd.writeStep hostDir) (files, cfgs) hosts).2
         !! Cri.hostKey host = Some (Containerd.sectionOf hostDir host')) ∧
  (∀ k c, (foldl (Containerd.writeStep hostDir) (files, cfgs) hosts).2 !! k
            = Some c →
     (∃ host, host ∈ hosts ∧ k = Cri.hostKey host ∧
              c = Containerd.sectionOf hostDir host) ∨ cfgs !! k = Some c).
Proof.
  induction hosts as [|host hosts IH] using rev_ind; intros files cfgs.
  - split; [intros host Hin; by apply elem_of_nil in Hin|]. intros; by right.
  - rewrite foldl_app. cbn [foldl]. unfold Containerd.writeStep at 1 3.
    cbn [fst snd]. destruct (IH files cfgs) as [H1 H2]. split.
    + intros h0 Hin.
      destruct (decide (Cri.hostKey host = Cri.hostKey h0)) as [Heq|Hne].
      * exists host. split; [apply elem_of_app; right; by left|].
        split; [done|]. by rewrite <- Heq, lookup_insert_eq.
      * apply elem_of_app in Hin as [Hin|Hin%list_elem_of_singleton];
          [|by subst].
        destruct (H1 h0 Hin) as (h' & Hin' & Hk & Hl).
        exists h'. split; [apply elem_of_app; by left|]. split; [done|].
        by rewrite lookup_insert_ne.
    + intros k c Hk.
      apply lookup_insert_Some in Hk as [[<- <-]|[_ Hk]].
      * left. exists host. split; [apply elem_of_app; right; by left|done].
      * destruct (H2 k c Hk) as [(h' & Hin & -> & ->)|Hold]; [|by right].
        left. exists h'. split; [apply elem_of_app; by left|done].
Qed.

Lemma writeStep_files hostDir hosts : ∀ files cfgs,
  (∀ host, host ∈ hosts → Cri.HostCA host ≠ "" →
     ∃ host', host' ∈ hosts ∧ Cri.HostName host' = Cri.HostName host ∧
       Cri.HostCA host' ≠ "" ∧
       (foldl (Containerd.writeStep hostDir) (files, cfgs) hosts).1
         !! Cri.pemName host = Some (Cri.CertFile (Cri.HostCA host'))) ∧
  (∀ n, (∀ host, host ∈ hosts → Cri.HostCA host ≠ "" → Cri.pemName host ≠ n) →
     (foldl (Containerd.writeStep hostDir) (files, cfgs) hosts).1 !! n
       = files !! n).
Proof.
  induction hosts as [|host hosts IH] using rev_ind; intros files cfgs.
  - split; [intros host Hin; by apply elem_of_nil in Hin|done].
  - rewrite foldl_app. cbn [foldl]. unfold Containerd.writeStep at 1 3.
    cbn [fst snd]. destruct (IH files cfgs) as [H1 H2]. split.
    + intros h0 Hin Hca0.
      assert (Hold : h0 ∈ hosts →
        ∃ host', host' ∈ hosts ++ [host] ∧
          Cri.HostName host' = Cri.HostName h0 ∧ Cri.HostCA host' ≠ "" ∧
          (foldl (Containerd.writeStep hostDir) (files, cfgs) hosts).1
            !! Cri.pemName h0 = Some (Cri.CertFile (Cri.HostCA host'))).
      { intros Hin0. destruct (H1 h0 Hin0 Hca0) as (h' & Hin' & Hn & Hc & Hl).
        exists h'. split; [apply elem_of_app; by left|done]. }
      destruct (0 <? String.length (Cri.HostCA host)) eqn:Hca.
      * apply length_pos_nonempty in Hca.
        destruct (decide (Cri.pemName host = Cri.pemName h0)) as [Heq|Hne].
        -- exists host. split; [apply elem_of_app; right; by left|].
           split; [|split; [done|by rewrite <- Heq, lookup_insert_eq]].
           unfold Cri.pemName in Heq. by apply sapp_cancel_r in Heq.
        -- rewrite lookup_insert_ne by done. apply Hold.
           apply elem_of_app in Hin as [Hin|Hin%list_elem_of_singleton];
             [done|by subst].
      * apply Hold.
        apply elem_of_app in Hin as [Hin|Hin%list_elem_of_singleton]; [done|].
        subst h0. apply length_pos_nonempty in Hca0. congruence.
    + intros n Hn.
      assert (Hrest : (foldl (Containerd.writeStep hostDir) (files, cfgs) hosts).1
                        !! n = files !! n).
      { apply H2. intros h1 Hin1. apply Hn. apply elem_of_app. by left. }
      destruct (0 <? String.length (Cri.HostCA host)) eqn:Hca; [|done].
      apply length_pos_nonempty in Hca.
      rewrite lookup_insert_ne; [done|].
      apply Hn; [apply elem_of_app; right; by left|done].
Qed.

Lemma renderConfigs_written (r : Cri.ContainerdRegistry) (dir : string)
  (entries entries' : gmap string Cri.dirent) :
  Cri.renderConfigs F r dir entries = (entries', None) →
  ∃ files hf,
    entries' !! Cri.Server r = Some (Cri.Dir files) ∧
    files !! "hosts.toml" = Some (Cri.HostsToml hf) ∧
    Cri.HFServer hf = Cri.Server r ∧
    (∀ host, host ∈ Cri.Hosts r →
       ∃ host', host' ∈ Cri.Hosts r ∧ Cri.hostKey host' = Cri.hostKey host ∧
         Cri.HostConfigs hf !! Cri.hostKey host
           = Some (Containerd.sectionOf (Cri.pathJoin dir (Cri.Server r)) host')) ∧
    (∀ k c, Cri.HostConfigs hf !! k = Some c →
       ∃ host, host ∈ Cri.Hosts r ∧ k = Cri.hostKey host ∧
         c = Containerd.sectionOf (Cri.pathJoin dir (Cri.Server r)) host) ∧
    (∀ host, host ∈ Cri.Hosts r → Cri.HostCA host ≠ "" →
       ∃ host', host' ∈ Cri.Hosts r ∧
         Cri.HostName host' = Cri.HostName host ∧ Cri.HostCA host' ≠ "" ∧
         files !! Cri.pemName host = Some (Cri.CertFile (Cri.HostCA host'))) ∧
    (∀ n old, entries !! Cri.Server r = Some (Cri.Dir old) →
       n ≠ "hosts.toml" →
       (∀ host, host ∈ Cri.Hosts r → Cri.pemName host ≠ n) →
       files !! n = old !! n) ∧
    (∀ name, name ≠ Cri.Server r → entries' !! name = entries !! name).
Proof.
  unfold Cri.renderConfigs.
  set (hostDir := Cri.pathJoin dir (Cri.Server r)).
  set (files0 := match entries !! Cri.Server r with
                 | Some (Cri.Dir files) => files
                 | _ => ∅
                 end).
  assert (Hgo :
    (if Cri.mkdirFault F (Cri.Server r)
     then (entries, Some (Cri.ErrMkdir hostDir))
     else
       match Cri.writeHosts F (Cri.Server r) hostDir (Cri.Hosts r) files0 ∅ with
       | (files1, inr e) => (<[Cri.Server r := Cri.Dir files1]> entries, Some e)
       | (files1, inl cfgs) =>
           if Cri.createFault F (Cri.Server r)
           then (<[Cri.Server r := Cri.Dir files1]> entries,
                 Some (Cri.ErrCreate (Cri.pathJoin hostDir "hosts.toml")))
           else if Cri.encodeFault F (Cri.Server r)
           then (<[Cri.Server r :=
                     Cri.Dir (<["hosts.toml" := Cri.Truncated]> files1)]>
                   entries,
                 Some (Cri.ErrEncode (Cri.pathJoin hostDir "hosts.toml")))
           else (<[Cri.Server r :=
                     Cri.Dir (<["hosts.toml" :=
                                Cri.HostsToml {| Cri.HFServer := Cri.Server r;
                                                 Cri.HostConfigs := cfgs |}]>
                                files1)]> entries, None)
       end) = (entries', None) →
    ∃ files hf,
      entries' !! Cri.Server r = Some (Cri.Dir files) ∧
      files !! "hosts.toml" = Some (Cri.HostsToml hf) ∧
      Cri.HFServer hf = Cri.Server r ∧
      (∀ host, host ∈ Cri.Hosts r →
         ∃ host', host' ∈ Cri.Hosts r ∧ Cri.hostKey host' = Cri.hostKey host ∧
           Cri.HostConfigs hf !! Cri.hostKey host
             = Some (Containerd.sectionOf hostDir host')) ∧
      (∀ k c, Cri.HostConfigs hf !! k = Some c →
         ∃ host, host ∈ Cri.Hosts r ∧ k = Cri.hostKey host ∧
           c = Containerd.sectionOf hostDir host) ∧
      (∀ host, host ∈ Cri.Hosts r → Cri.HostCA host ≠ "" →
         ∃ host', host' ∈ Cri.Hosts r ∧
           Cri.HostName host' = Cri.HostName host ∧ Cri.HostCA host' ≠ "" ∧
           files !! Cri.pemName host = Some (Cri.CertFile (Cri.HostCA host'))) ∧
      (∀ n, n ≠ "hosts.toml" →
         (∀ host, host ∈ Cri.Hosts r → Cri.pemName host ≠ n) →
         files !! n = files0 !! n) ∧
      (∀ name, name ≠ Cri.Server r → entries' !! name = entries !! name)).
  { destruct (Cri.mkdirFault F (Cri.Server r)); [done|].
    destruct (Cri.writeHosts F _ hostDir (Cri.Hosts r) files0 ∅)
      as [files1 [cfgs|e]] eqn:Hw; [|done].
    destruct (Cri.createFault F (Cri.Server r)); [done|].
    destruct (Cri.encodeFault F (Cri.Server r)); [done|].
    intros [= <-]. apply writeHosts_fold in Hw.
    destruct (writeStep_sections hostDir (Cri.Hosts r) files0 ∅) as [Hs1 Hs2].
    destruct (writeStep_files hostDir (Cri.Hosts r) files0 ∅) as [Hf1 Hf2].
    rewrite Hw in Hs1, Hs2, Hf1, Hf2. cbn [fst snd] in *.
    eexists _, _. split; [by rewrite lookup_insert_eq|].
    split; [by rewrite lookup_insert_eq|]. split; [done|]. split_and!.
    - done.
    - intros k c Hk. destruct (Hs2 k c Hk) as [?|Hnil]; [done|].
      by rewrite lookup_empty in Hnil.
    - intros host Hin Hca.
      destruct (Hf1 host Hin Hca) as (h' & Hin' & Hn & Hc & Hl).
      exists h'. split_and!; try done.
      rewrite lookup_insert_ne; [done|]. intros Heq.
      by apply (pemName_not_toml host).
    - intros n Hn Hpem. rewrite lookup_insert_ne by done.
      apply Hf2. intros host Hin _. by apply Hpem.
    - intros name Hne. by rewrite lookup_insert_ne. }
  destruct (entries !! Cri.Server r) as [[raw|old]|] eqn:Hfound.
  - done.
  - intros Hr. destruct (Hgo Hr) as (files & hf & H1 & H2 & H3 & H4 & H5 & H6 & H7 & H8).
    exists files, hf. split_and!; try done.
    intros n old' [= <-] Hn Hpem. by apply H7.
  - intros Hr. destruct (Hgo Hr) as (files & hf & H1 & H2 & H3 & H4 & H5 & H6 & H7 & H8).
    exists files, hf. split_and!; try done.
Qed.

(** A successful [renderConfigs] as the fold of the writes of its loop. *)
Lemma renderConfigs_fold (r : Cri.ContainerdRegistry) (dir : string)
  (entries entries' : gmap string Cri.dirent) :
  Cri.renderConfigs F r dir entries = (entries', None) →
  entries'
  = <[Cri.Server r :=
        Cri.Dir
          (<["hosts.toml" :=
             Cri.HostsToml
               {| Cri.HFServer := Cri.Server r;
                  Cri.HostConfigs :=
                    (foldl (Containerd.writeStep
                              (Cri.pathJoin dir (Cri.Server r)))
                       (filesAt entries (Cri.Server r), ∅) (Cri.Hosts r)).2 |}]>
             (foldl (Containerd.writeStep (Cri.pathJoin dir (Cri.Server r)))
                (filesAt entries (Cri.Server r), ∅) (Cri.Hosts r)).1)]>
      entries.
Proof.
  unfold Cri.renderConfigs, filesAt.
  destruct (entries !! Cri.Server r) as [[raw|old]|]; [done| |];
    (destruct (Cri.mkdirFault F (Cri.Server r)); [done|];
     destruct (Cri.writeHosts F _ _ (Cri.Hosts r) _ ∅)
       as [files1 [cfgs|e]] eqn:Hw; [|done];
     destruct (Cri.createFault F (Cri.Server r)); [done|];
     destruct (Cri.encodeFault F (Cri.Server r)); [done|];
     intros [= <-]; apply writeHosts_fold in Hw; by rewrite Hw).
Qed.

(** Endpoints after the last one of a key, or of a CA file, leave its
    section, or the file, alone. *)
Lemma writeStep_later hostDir hosts : ∀ st,
  (∀ k, (∀ h, h ∈ hosts → Cri.hostKey h ≠ k) →
        (foldl (Containerd.writeStep hostDir) st hosts).2 !! k = st.2 !! k) ∧
  (∀ n, (∀ h, h ∈ hosts → Cri.HostCA h ≠ "" → Cri.pemName h ≠ n) →
        (foldl (Containerd.writeStep hostDir) st hosts).1 !! n = st.1 !! n).
Proof.
  induction hosts as [|host hosts IH]; intros st; [done|].
  cbn [foldl]. destruct (IH (Containerd.writeStep hostDir st host)) as [H1 H2].
  split.
  - intros k Hk. rewrite H1 by (intros h Hin; apply Hk; by right).
    unfold Containerd.writeStep. cbn [snd].
    rewrite lookup_insert_ne; [done|]. apply Hk. by left.
  - intros n Hn. rewrite H2 by (intros h Hin; apply Hn; by right).
    unfold Containerd.writeStep. cbn [fst].
    destruct (0 <? String.length (Cri.HostCA host)) eqn:Hca; [|done].
    apply length_pos_nonempty in Hca.
    rewrite lookup_insert_ne; [done|]. apply Hn; [by left|done].
Qed.

Lemma writeStep_last hostDir pre host post st :
  ((∀ h, h ∈ post → Cri.hostKey h ≠ Cri.hostKey host) →
   (foldl (Containerd.writeStep hostDir) st (pre ++ host :: post)).2
     !! Cri.hostKey host = Some (Containerd.sectionOf hostDir host)) ∧
  (Cri.HostCA host ≠ "" →
   (∀ h, h ∈ post → Cri.HostCA h ≠ "" → Cri.HostName h ≠ Cri.HostName host) →
   (foldl (Containerd.writeStep hostDir) st (pre ++ host :: post)).1
     !! Cri.pemName host = Some (Cri.CertFile (Cri.HostCA host))).
Proof.
  rewrite foldl_app. cbn [foldl].
  destruct (writeStep_later hostDir post
              (Containerd.writeStep hostDir
                 (foldl (Containerd.writeStep hostDir) st pre) host))
    as [H1 H2].
  split.
  - intros Hk. rewrite H1 by done. unfold Containerd.writeStep. cbn [snd].
    by rewrite lookup_insert_eq.
  - intros Hca Hn. rewrite H2.
    + unfold Containerd.writeStep. cbn [fst].
      apply length_pos_nonempty in Hca. rewrite Hca.
      by rewrite lookup_insert_eq.
    + intros h Hin Hcah Heq. apply (Hn h Hin Hcah).
      unfold Cri.pemName in Heq. by apply sapp_cancel_r in Heq.
Qed.

(** Of the endpoints that share a key, or a CA file, the last one is the
    one written. *)
Lemma renderConfigs_later_wins (r : Cri.ContainerdRegistry) (dir : string)
  (entries entries' : gmap string Cri.dirent)
  (files : gmap string Cri.fileData) (hf : Cri.HostFile) :
  Cri.renderConfigs F r dir entries = (entries', None) →
  entries' !! Cri.Server r = Some (Cri.Dir files) →
  files !! "hosts.toml" = Some (Cri.HostsToml hf) →
  (∀ pre host post, Cri.Hosts r = pre ++ host :: post →
     (∀ h, h ∈ post → Cri.hostKey h ≠ Cri.hostKey host) →
     Cri.HostConfigs hf !! Cri.hostKey host
       = Some (Containerd.sectionOf (Cri.pathJoin dir (Cri.Server r)) host)) ∧
  (∀ pre host post, Cri.Hosts r = pre ++ host :: post →
     Cri.HostCA host ≠ "" →
     (∀ h, h ∈ post → Cri.HostCA h ≠ "" →
           Cri.HostName h ≠ Cri.HostName host) →
     files !! Cri.pemName host = Some (Cri.CertFile (Cri.HostCA host))).
Proof.
  intros Hrun Hdir Htoml. apply renderConfigs_fold in Hrun. subst entries'.
  rewrite lookup_insert_eq in Hdir. injection Hdir as <-.
  rewrite lookup_insert_eq in Htoml. injection Htoml as <-. cbn [Cri.HostConfigs].
  split.
  - intros pre host post -> Hk. by apply writeStep_last.
  - intros pre host post -> Hca Hn.
    rewrite lookup_insert_ne by (intros Heq; by apply (pemName_not_toml host)).
    by apply writeStep_last.
Qed.

(** X9: what a successful [renderConfigs] leaves in the host directory.
    [hosts.toml] names the server and has one section per endpoint key,
    holding the capabilities, skip_verify only when set, and the path of
    the CA file only when the endpoint has CA material; when two endpoints
    share a key, the later one wins: the section of a key is that of the
    last endpoint with the key.  The CA of an endpoint is in [<host>.pem]
    of the directory, which holds the CA of the last endpoint with that
    host name that has one; the other files of the directory and the
    other entries of the configuration directory are untouched. *)
Theorem renderConfigs_content (r : Cri.ContainerdRegistry) (dir : string)
  (entries entries' : gmap string Cri.dirent) :
  Cri.renderConfigs F r dir entries = (entries', None) →
  ∃ files hf,
    entries' !! Cri.Server r = Some (Cri.Dir files) ∧
    files !! "hosts.toml" = Some (Cri.HostsToml hf) ∧
    Cri.HFServer hf = Cri.Server r ∧
    (∀ host, host ∈ Cri.Hosts r →
       ∃ host', host' ∈ Cri.Hosts r ∧ Cri.hostKey host' = Cri.hostKey host ∧
         Cri.HostConfigs hf !! Cri.hostKey host
           = Some (Containerd.sectionOf (Cri.pathJoin dir (Cri.Server r)) host')) ∧
    (∀ pre host post, Cri.Hosts r = pre ++ host :: post →
       (∀ h, h ∈ post → Cri.hostKey h ≠ Cri.hostKey host) →
       Cri.HostConfigs hf !! Cri.hostKey host
         = Some (Containerd.sectionOf (Cri.pathJoin dir (Cri.Server r)) host)) ∧
    (∀ k c, Cri.HostConfigs hf !! k = Some c →
       ∃ host, host ∈ Cri.Hosts r ∧ k = Cri.hostKey host ∧
         c = Containerd.sectionOf (Cri.pathJoin dir (Cri.Server r)) host) ∧
    (∀ host, host ∈ Cri.Hosts r → Cri.HostCA host ≠ "" →
       ∃ host', host' ∈ Cri.Hosts r ∧
         Cri.HostName host' = Cri.HostName host ∧ Cri.HostCA host' ≠ "" ∧
         files !! Cri.pemName host = Some (Cri.CertFile (Cri.HostCA host'))) ∧
    (∀ pre host post, Cri.Hosts r = pre ++ host :: post →
       Cri.HostCA host ≠ "" →
       (∀ h, h ∈ post → Cri.HostCA h ≠ "" →
             Cri.HostName h ≠ Cri.HostName host) →
       files !! Cri.pemName host = Some (Cri.CertFile (Cri.HostCA host))) ∧
    (∀ n old, entries !! Cri.Server r = Some (Cri.Dir old) →
       n ≠ "hosts.toml" →
       (∀ host, host ∈ Cri.Hosts r → Cri.pemName host ≠ n) →
       files !! n = old !! n) ∧
    (∀ name, name ≠ Cri.Server r → entries' !! name = entries !! name).
Proof.
  intros Hrun.
  destruct (renderConfigs_written r dir entries entries' Hrun)
    as (files & hf & Hdir & Htoml & Hsrv & Hsec & Honly & Hca & Hold & Hrest).
  destruct (renderConfigs_later_wins r dir entries entries' files hf
              Hrun Hdir Htoml) as [Hlast Hlastca].
  exists files, hf. by split_and!.
Qed.

End RenderContent.

Lemma renderConfigs_content_witness :
  ∃ files hf,
    (Cri.renderConfigs Cri.noFaults Containerd.sharedKeyRegistry "/certs.d"
       ∅).1 !! "reg.local" = Some (Cri.Dir files) ∧
    files !! "reg.local.pem" = Some (Cri.CertFile "PEM") ∧
    files !! "hosts.toml" = Some (Cri.HostsToml hf) ∧
    Cri.HostConfigs hf !! "https://reg.local"
      = Some (Containerd.sectionOf "/certs.d/reg.local" Containerd.caHost).
Proof.
  assert (Hrun :
    Cri.renderConfigs Cri.noFaults Containerd.sharedKeyRegistry "/certs.d" ∅
    = ((Cri.renderConfigs Cri.noFaults Containerd.sharedKeyRegistry
          "/certs.d" ∅).1, None)).
  { unfold Cri.renderConfigs. rewrite lookup_empty. reflexivity. }
  destruct (renderConfigs_content Cri.noFaults Containerd.sharedKeyRegistry
              "/certs.d" ∅ _ Hrun)
    as (files & hf & Hdir & Htoml & _ & _ & Hlast & _ & _ & Hca & _).
  exists files, hf. split; [exact Hdir|]. split_and!.
  - apply (Hca [Containerd.skipHost] Containerd.caHost []); [done|done|].
    by intros h ?%elem_of_nil.
  - exact Htoml.
  - apply (Hlast [Containerd.skipHost] Containerd.caHost []); [done|].
    by intros h ?%elem_of_nil.
Defined.

(** ** [renderRegistryConfig] *)

Section RenderRegistry.
Variable F : Cri.Faults.

(** Whatever its outcome, [renderConfigs] touches the entry of its own
    server only, removes nothing and leaves a plain file as it is. *)
Lemma renderConfigs_frame r dir entries entries' o :
  Cri.renderConfigs F r dir entries = (entries', o) →
  ∀ name, name ≠ Cri.Server r → entries' !! name = entries !! name.
Proof.
  unfold Cri.renderConfigs. intros H name Hne.
  repeat case_match; simplify_eq; by rewrite ?lookup_insert_ne.
Qed.

Lemma renderConfigs_keeps r dir entries entries' o :
  Cri.renderConfigs F r dir entries = (entries', o) →
  ∀ name,
    (is_Some (entries !! name) → is_Some (entries' !! name)) ∧
    (∀ raw, entries !! name = Some (Cri.File raw) →
            entries' !! name = Some (Cri.File raw)).
Proof.
  intros H name.
  destruct (decide (name = Cri.Server r)) as [->|Hne];
    [|by rewrite (renderConfigs_frame _ _ _ _ _ H name Hne)].
  revert H. unfold Cri.renderConfigs.
  destruct (entries !! Cri.Server r) as [[raw0|files0]|] eqn:Hl.
  - intros [= <- <-]. by rewrite Hl.
  - intros H. split; [|done]. intros _.
    repeat case_match; simplify_eq; by rewrite ?lookup_insert_eq, ?Hl.
  - intros _. split; [by intros [? ?]|done].
Qed.

Lemma renderConfigs_file r dir entries raw :
  entries !! Cri.Server r = Some (Cri.File raw) →
  Cri.renderConfigs F r dir entries
  = (entries, Some (Cri.ErrMkdir (Cri.pathJoin dir (Cri.Server r)))).
Proof. intros H. unfold Cri.renderConfigs. by rewrite H. Qed.

Lemma renderEach_frame dir cfgs : ∀ entries entries' o,
  Containerd.renderEach F dir cfgs entries = (entries', o) →
  ∀ name, (∀ kc, kc ∈ cfgs → Cri.Server kc.2 ≠ name) →
          entries' !! name = entries !! name.
Proof.
  induction cfgs as [|[k cfg] cfgs IH]; intros entries entries' o H name Hn.
  - simpl in H. by simplify_eq.
  - cbn [Containerd.renderEach] in H.
    destruct (Cri.renderConfigs F cfg dir entries) as [e1 [err|]] eqn:Hr.
    + simplify_eq.
      apply (renderConfigs_frame _ _ _ _ _ Hr).
      intros ->. by apply (Hn (k, cfg)); [left|].
    + rewrite (IH _ _ _ H name).
      * apply (renderConfigs_frame _ _ _ _ _ Hr).
        intros ->. by apply (Hn (k, cfg)); [left|].
      * intros kc Hin. apply Hn. by right.
Qed.

Lemma renderEach_keeps dir cfgs : ∀ entries entries' o,
  Containerd.renderEach F dir cfgs entries = (entries', o) →
  ∀ name,
    (is_Some (entries !! name) → is_Some (entries' !! name)) ∧
    (∀ raw, entries !! name = Some (Cri.File raw) →
            entries' !! name = Some (Cri.File raw)).
Proof.
  induction cfgs as [|[k cfg] cfgs IH]; intros entries entries' o H name.
  - simpl in H. by simplify_eq.
  - cbn [Containerd.renderEach] in H.
    destruct (Cri.renderConfigs F cfg dir entries) as [e1 [err|]] eqn:Hr.
    + simplify_eq. apply (renderConfigs_keeps _ _ _ _ _ Hr).
    + destruct (renderConfigs_keeps _ _ _ _ _ Hr name) as [H1 H2].
      destruct (IH _ _ _ H name) as [H3 H4]. split; [tauto|].
      intros raw Hraw. eauto.
Qed.

(** A plain file where a host directory is to be made stops the loop
    with an error. *)
Lemma renderEach_file dir cfgs : ∀ entries entries' o kc raw,
  Containerd.renderEach F dir cfgs entries = (entries', o) →
  kc ∈ cfgs → entries !! Cri.Server kc.2 = Some (Cri.File raw) →
  o ≠ None.
Proof.
  induction cfgs as [|[k cfg] cfgs IH]; intros entries entries' o kc raw H Hin Hf.
  - by apply elem_of_nil in Hin.
  - cbn [Containerd.renderEach] in H.
    destruct (Cri.renderConfigs F cfg dir entries) as [e1 [err|]] eqn:Hr.
    + by simplify_eq.
    + apply elem_of_cons in Hin as [->|Hin].
      * simpl in Hf. rewrite (renderConfigs_file _ _ _ _ Hf) in Hr. done.
      * apply (IH _ _ _ kc raw H Hin).
        by apply (renderConfigs_keeps _ _ _ _ _ Hr).
Qed.

(** After a successful loop over registries with distinct servers, the
    entry of every server is the one its own [renderConfigs] left. *)
Lemma renderEach_success dir cfgs : ∀ entries entries',
  NoDup ((λ kc, Cri.Server kc.2) <$> cfgs) →
  Containerd.renderEach F dir cfgs entries = (entries', None) →
  ∀ kc, kc ∈ cfgs →
    ∃ entries1 entries2,
      Cri.renderConfigs F kc.2 dir entries1 = (entries2, None) ∧
      entries1 !! Cri.Server kc.2 = entries !! Cri.Server kc.2 ∧
      entries' !! Cri.Server kc.2 = entries2 !! Cri.Server kc.2.
Proof.
  induction cfgs as [|[k cfg] cfgs IH]; intros entries entries' Hnd H kc Hin.
  - by apply elem_of_nil in Hin.
  - cbn [Containerd.renderEach] in H. rewrite fmap_cons in Hnd.
    apply NoDup_cons in Hnd as [Hnotin Hnd].
    destruct (Cri.renderConfigs F cfg dir entries) as [e1 [err|]] eqn:Hr;
      [done|].
    apply elem_of_cons in Hin as [->|Hin].
    + exists entries, e1. split; [done|]. split; [done|].
      apply (renderEach_frame _ _ _ _ _ H). intros kc Hin Heq.
      apply Hnotin. apply list_elem_of_fmap. by exists kc.
    + destruct (IH _ _ Hnd H kc Hin) as (en1 & en2 & Hrun & H1 & H2).
      exists en1, en2. split; [done|]. split; [|done].
      rewrite H1. apply (renderConfigs_frame _ _ _ _ _ Hr).
      intros Heq. apply Hnotin. apply list_elem_of_fmap. by exists kc.
Qed.

Lemma writeHosts_succeeds_iff server hostDir hosts : ∀ files cfgs,
  (∃ cfgs', (Cri.writeHosts F server hostDir hosts files cfgs).2 = inl cfgs') ↔
  (∀ host, host ∈ hosts → Cri.HostCA host ≠ "" →
           Cri.writeFault F server (Cri.HostName host) = false).
Proof.
  induction hosts as [|host hosts IH]; intros files cfgs.
  - simpl. split; [intros _ host Hin; by apply elem_of_nil in Hin|eauto].
  - cbn [Cri.writeHosts].
    destruct (0 <? String.length (Cri.HostCA host)) eqn:Hca.
    + destruct (Cri.writeFault F server (Cri.HostName host)) eqn:Hw.
      * split; [by intros [? ?]|]. intros Hall.
        rewrite Hall in Hw; [done|by left|by apply length_pos_nonempty].
      * rewrite IH. split.
        -- intros Hall h0 [->|Hin]%elem_of_cons; [done|by apply Hall].
        -- intros Hall h0 Hin. apply Hall. by right.
    + rewrite IH. split.
      * intros Hall h0 [->|Hin]%elem_of_cons; [|by apply Hall].
        intros Hne%length_pos_nonempty. congruence.
      * intros Hall h0 Hin. apply Hall. by right.
Qed.

Lemma renderConfigs_succeeds_iff r dir entries :
  (Cri.renderConfigs F r dir entries).2 = None ↔
  (∀ raw, entries !! Cri.Server r ≠ Some (Cri.File raw)) ∧
  Containerd.hostFaultFree F r.
Proof.
  unfold Containerd.hostFaultFree.
  rewrite <- (writeHosts_succeeds_iff (Cri.Server r) (Cri.pathJoin dir (Cri.Server r))
                (Cri.Hosts r)
                match entries !! Cri.Server r with
                | Some (Cri.Dir files) => files
                | _ => ∅
                end ∅).
  unfold Cri.renderConfigs.
  destruct (entries !! Cri.Server r) as [[raw|old]|] eqn:Hfound.
  - simpl. split; [done|]. intros [Hno _]. by destruct (Hno raw).
  - destruct (Cri.mkdirFault F (Cri.Server r)); [simpl; naive_solver|].
    destruct (Cri.writeHosts F _ _ _ _ _) as [files1 [cfgs|e]];
      [|simpl; split; [done|by intros (_ & _ & _ & _ & [? ?])]].
    destruct (Cri.createFault F (Cri.Server r)); [simpl; naive_solver|].
    destruct (Cri.encodeFault F (Cri.Server r)); simpl; naive_solver.
  - destruct (Cri.mkdirFault F (Cri.Server r)); [simpl; naive_solver|].
    destruct (Cri.writeHosts F _ _ _ _ _) as [files1 [cfgs|e]];
      [|simpl; split; [done|by intros (_ & _ & _ & _ & [? ?])]].
    destruct (Cri.createFault F (Cri.Server r)); [simpl; naive_solver|].
    destruct (Cri.encodeFault F (Cri.Server r)); simpl; naive_solver.
Qed.

Lemma renderConfigs_file_iff r dir entries entries' :
  Cri.renderConfigs F r dir entries = (entries', None) →
  ∀ name, (∃ raw, entries' !! name = Some (Cri.File raw)) ↔
          (∃ raw, entries !! name = Some (Cri.File raw)).
Proof.
  intros H name. split.
  - intros [raw Hraw].
    destruct (decide (name = Cri.Server r)) as [->|Hne].
    + destruct (renderConfigs_written F _ _ _ _ H) as (files & hf & Hd & _).
      congruence.
    + exists raw. by rewrite <- (renderConfigs_frame _ _ _ _ _ H name Hne).
  - intros [raw Hraw]. exists raw.
    by apply (renderConfigs_keeps _ _ _ _ _ H).
Qed.

Lemma renderEach_succeeds_iff dir cfgs : ∀ entries,
  (Containerd.renderEach F dir cfgs entries).2 = None ↔
  (∀ kc, kc ∈ cfgs →
     (∀ raw, entries !! Cri.Server kc.2 ≠ Some (Cri.File raw)) ∧
     Containerd.hostFaultFree F kc.2).
Proof.
  induction cfgs as [|[k cfg] cfgs IH]; intros entries.
  - simpl. split; [intros _ kc Hin; by apply elem_of_nil in Hin|done].
  - cbn [Containerd.renderEach].
    pose proof (renderConfigs_succeeds_iff cfg dir entries) as Hok.
    destruct (Cri.renderConfigs F cfg dir entries) as [e1 [err|]] eqn:Hr.
    + simpl in *. split; [done|]. intros Hall.
      apply Hok. apply (Hall (k, cfg)). by left.
    + simpl in Hok. rewrite IH. split.
      * intros Hall kc [->|Hin]%elem_of_cons; [by apply Hok|].
        destruct (Hall kc Hin) as [Hno Hff]. split; [|done].
        intros raw Hraw.
        destruct (proj2 (renderConfigs_file_iff _ _ _ _ Hr (Cri.Server kc.2))
                    (ex_intro _ raw Hraw)) as [raw' Hraw'].
        by destruct (Hno raw').
      * intros Hall kc Hin.
        destruct (Hall kc ltac:(by right)) as [Hno Hff]. split; [|done].
        intros raw Hraw.
        destruct (proj1 (renderConfigs_file_iff _ _ _ _ Hr (Cri.Server kc.2))
                    (ex_intro _ raw Hraw)) as [raw' Hraw'].
        by destruct (Hno raw').
Qed.

End RenderRegistry.

(** The registries that a range order visits. *)
Lemma ToContainerdRegistryConfig_Some registries k cfg :
  Containerd.ToContainerdRegistryConfig registries !! k = Some cfg →
  cfg = {| Cri.Server := k;
           Cri.Hosts := Containerd.hostOf
                          <$> filter (fun r => Host r = k) registries |} ∧
  ∃ r, r ∈ registries ∧ Host r = k.
Proof.
  unfold Containerd.ToContainerdRegistryConfig.
  rewrite ToContainerdRegistryConfig_fold
    by (intros ? ?; by rewrite lookup_empty).
  rewrite lookup_empty.
  destruct (filter _ registries) as [|r rs] eqn:Hf; [done|].
  intros [= <-]. split; [done|]. exists r.
  assert (Hin : r ∈ filter (fun r => Host r = k) registries)
    by (rewrite Hf; by left).
  apply list_elem_of_filter in Hin. tauto.
Qed.

Lemma ToContainerdRegistryConfig_host registries r :
  r ∈ registries →
  Containerd.ToContainerdRegistryConfig registries !! Host r
  = Some {| Cri.Server := Host r;
            Cri.Hosts := Containerd.hostOf
                           <$> filter (fun r' => Host r' = Host r) registries |}.
Proof.
  intros Hin. unfold Containerd.ToContainerdRegistryConfig.
  rewrite ToContainerdRegistryConfig_fold
    by (intros ? ?; by rewrite lookup_empty).
  rewrite lookup_empty.
  destruct (filter _ registries) as [|r0 rs] eqn:Hf; [|done].
  assert (r ∈ filter (fun r' => Host r' = Host r) registries) as Hin'
    by by apply list_elem_of_filter.
  rewrite Hf in Hin'. by apply elem_of_nil in Hin'.
Qed.

Lemma rangeOrder_elem visit registries kc :
  Containerd.rangeOrder visit →
  kc ∈ visit (Containerd.ToContainerdRegistryConfig registries) ↔
  Containerd.ToContainerdRegistryConfig registries !! kc.1 = Some kc.2.
Proof.
  intros Hv. rewrite (Hv _). destruct kc as [k cfg].
  by rewrite elem_of_map_to_list.
Qed.

Lemma rangeOrder_servers visit registries :
  Containerd.rangeOrder visit →
  NoDup ((λ kc, Cri.Server kc.2)
           <$> visit (Containerd.ToContainerdRegistryConfig registries)).
Proof.
  intros Hv.
  assert (Heq : (λ kc : string * Cri.ContainerdRegistry, Cri.Server kc.2)
                  <$> visit (Containerd.ToContainerdRegistryConfig registries)
                = (visit (Containerd.ToContainerdRegistryConfig registries)).*1).
  { apply Forall_fmap_ext, Forall_forall. intros [k cfg] Hin.
    apply (rangeOrder_elem _ _ _ Hv) in Hin.
    apply ToContainerdRegistryConfig_Some in Hin as [-> _]. done. }
  rewrite Heq, (Hv _). apply NoDup_fst_map_to_list.
Qed.

Section RenderRegistryConfig.
Variable F : Cri.Faults.
Variable visit : gmap string Cri.ContainerdRegistry →
                 list (string * Cri.ContainerdRegistry).
Hypothesis Hvisit : Containerd.rangeOrder visit.

Lemma renderRegistryConfig_ok registries dir entries :
  (Containerd.renderRegistryConfig F visit registries dir false entries).2
    = None ↔ Containerd.renderable F entries registries.
Proof.
  unfold Containerd.renderRegistryConfig, Containerd.renderable.
  rewrite renderEach_succeeds_iff. split.
  - intros Hall r Hin.
    pose proof (ToContainerdRegistryConfig_host registries r Hin) as Hl.
    apply (rangeOrder_elem visit registries (Host r, _) Hvisit) in Hl.
    destruct (Hall _ Hl) as (Hno & Hm & Hc & He & Hw). cbn [fst snd] in *.
    split_and!; try done.
    intros Hca. apply (Hw (Containerd.hostOf r)); [|done].
    simpl. apply list_elem_of_fmap. exists r. split; [done|].
    by apply list_elem_of_filter.
  - intros Hren [k cfg] Hin.
    apply (rangeOrder_elem visit registries _ Hvisit) in Hin.
    apply ToContainerdRegistryConfig_Some in Hin as [-> (r & Hr & <-)].
    destruct (Hren r Hr) as (Hno & Hm & Hc & He & Hw).
    split; [done|]. split_and!; try done.
    intros host [r' [-> [Hh Hr']%list_elem_of_filter]]%list_elem_of_fmap Hca.
    simpl in *. destruct (Hren r' Hr') as (_ & _ & _ & _ & Hw').
    rewrite Hh in Hw' |- *. by apply Hw'.
Qed.

(** X10: what a successful [renderRegistryConfig] leaves in the
    configuration directory, in whatever order the map of registries is
    ranged over.  Every registry has its host directory with a
    [hosts.toml] that names the host as server; the section of its
    endpoint is that of a registry with the same scheme and host (the
    later one when several share them), every section comes from a
    registry of that host, and the CA of a registry with CA material is in
    [<host>.pem] (that of the last such registry of the host).  Other
    files of a host directory that existed before are left as they
    were. *)
Theorem renderRegistryConfig_renders (registries : list RegistrySpec)
  (dir : string) (entries entries' : gmap string Cri.dirent) :
  Containerd.renderRegistryConfig F visit registries dir false entries
    = (entries', None) →
  ∀ r, r ∈ registries →
    ∃ files hf,
      entries' !! Host r = Some (Cri.Dir files) ∧
      files !! "hosts.toml" = Some (Cri.HostsToml hf) ∧
      Cri.HFServer hf = Host r ∧
      (∃ r', r' ∈ registries ∧ Host r' = Host r ∧ Scheme r' = Scheme r ∧
         Cri.HostConfigs hf !! (Scheme r +:+ "://" +:+ Host r)
           = Some (Containerd.sectionOf (Cri.pathJoin dir (Host r))
                     (Containerd.hostOf r'))) ∧
      (∀ k c, Cri.HostConfigs hf !! k = Some c →
         ∃ r', r' ∈ registries ∧ Host r' = Host r ∧
           k = Scheme r' +:+ "://" +:+ Host r' ∧
           c = Containerd.sectionOf (Cri.pathJoin dir (Host r))
                 (Containerd.hostOf r')) ∧
      (CA r ≠ "" →
         ∃ r', r' ∈ registries ∧ Host r' = Host r ∧ CA r' ≠ "" ∧
           files !! (Host r +:+ ".pem") = Some (Cri.CertFile (CA r'))) ∧
      (∀ n old, entries !! Host r = Some (Cri.Dir old) →
         n ≠ "hosts.toml" → n ≠ Host r +:+ ".pem" → files !! n = old !! n).
Proof.
  unfold Containerd.renderRegistryConfig. intros Hrun r Hin.
  pose proof (ToContainerdRegistryConfig_host registries r Hin) as Hl.
  apply (rangeOrder_elem visit registries (Host r, _) Hvisit) in Hl.
  destruct (renderEach_success F dir _ _ _
              (rangeOrder_servers visit registries Hvisit) Hrun _ Hl)
    as (en1 & en2 & Hr & Hsame & Hfinal).
  cbn [fst snd Cri.Server] in *.
  destruct (renderConfigs_written F _ _ _ _ Hr)
    as (files & hf & Hd & Ht & Hs & Hsec & Hkeys & Hca & Hold & _).
  cbn [Cri.Server Cri.Hosts] in *.
  assert (Hmem : ∀ host,
            host ∈ Containerd.hostOf
                     <$> filter (fun r' => Host r' = Host r) registries →
            ∃ r', r' ∈ registries ∧ Host r' = Host r ∧
                  host = Containerd.hostOf r').
  { intros host [r' [-> [Hh Hr']%list_elem_of_filter]]%list_elem_of_fmap.
    by exists r'. }
  assert (Hself : Containerd.hostOf r ∈ Containerd.hostOf
                    <$> filter (fun r' => Host r' = Host r) registries).
  { apply list_elem_of_fmap. exists r. split; [done|].
    by apply list_elem_of_filter. }
  exists files, hf. split; [by rewrite Hfinal|]. split; [done|].
  split; [done|]. split_and!.
  - destruct (Hsec _ Hself) as (host' & Hin' & Hk & Hlook).
    destruct (Hmem _ Hin') as (r' & Hr' & Hh & ->).
    exists r'. split; [done|]. split; [done|].
    unfold Cri.hostKey in Hk. simpl in Hk. rewrite Hh in Hk.
    apply sapp_cancel_r in Hk. split; [done|].
    unfold Cri.hostKey in Hlook. simpl in Hlook. done.
  - intros k c Hk. destruct (Hkeys k c Hk) as (host & Hin' & -> & ->).
    destruct (Hmem _ Hin') as (r' & Hr' & Hh & ->). by exists r'.
  - intros Hne. destruct (Hca _ Hself Hne) as (host' & Hin' & _ & Hc & Hlook).
    destruct (Hmem _ Hin') as (r' & Hr' & Hh & ->). by exists r'.
  - intros n old Hentry Hn Hpem. apply (Hold n old); [congruence|done|].
    intros host Hin'. destruct (Hmem _ Hin') as (r' & Hr' & Hh & ->).
    unfold Cri.pemName. simpl. by rewrite Hh.
Qed.

(** X11: what [renderRegistryConfig] never does, whatever its outcome:
    no entry of the configuration directory disappears, a plain file is
    left as it is, and an entry whose name is not the host of a registry
    is not touched; a dry run touches nothing and reports no error. *)
Theorem renderRegistryConfig_preserves (registries : list RegistrySpec)
  (dir : string) (dryRun : bool) (entries entries' : gmap string Cri.dirent)
  (o : option Cri.renderError) :
  Containerd.renderRegistryConfig F visit registries dir dryRun entries
    = (entries', o) →
  (∀ name, is_Some (entries !! name) → is_Some (entries' !! name)) ∧
  (∀ name raw, entries !! name = Some (Cri.File raw) →
               entries' !! name = Some (Cri.File raw)) ∧
  (∀ name, (∀ r, r ∈ registries → Host r ≠ name) →
           entries' !! name = entries !! name) ∧
  (dryRun = true → entries' = entries ∧ o = None).
Proof.
  unfold Containerd.renderRegistryConfig. destruct dryRun.
  - intros [= <- <-]. done.
  - intros Hrun. split_and!.
    + intros name. by apply (renderEach_keeps F _ _ _ _ _ Hrun name).
    + intros name. by apply (renderEach_keeps F _ _ _ _ _ Hrun name).
    + intros name Hname. apply (renderEach_frame F _ _ _ _ _ Hrun).
      intros [k cfg] Hin.
      apply (rangeOrder_elem visit registries _ Hvisit) in Hin.
      apply ToContainerdRegistryConfig_Some in Hin as [-> (r & Hr & <-)].
      by apply Hname.
    + done.
Qed.

(** X12: whether [renderRegistryConfig] succeeds does not depend on the
    order in which the map of registries is ranged over: it returns no
    error exactly when, for every registry, no plain file sits where its
    host directory goes, making the directory and creating and encoding
    [hosts.toml] do not fail, and writing its CA file, if it has CA
    material, does not fail. *)
Theorem renderRegistryConfig_succeeds_iff (registries : list RegistrySpec)
  (dir : string) (entries : gmap string Cri.dirent) :
  (Containerd.renderRegistryConfig F visit registries dir false entries).2
    = None ↔ Containerd.renderable F entries registries.
Proof. apply renderRegistryConfig_ok. Qed.

End RenderRegistryConfig.

Lemma rangeOrder_map_to_list : Containerd.rangeOrder map_to_list.
Proof. intros m. done. Qed.

Lemma sampleRegistries_renderable entries :
  (∀ r raw, r ∈ Containerd.sampleRegistries →
            entries !! Host r ≠ Some (Cri.File raw)) →
  Containerd.renderable Cri.noFaults entries Containerd.sampleRegistries.
Proof. intros Hno r Hin. split; [intros raw; by apply Hno|done]. Qed.

Lemma renderRegistryConfig_renders_witness :
  ∃ files,
    (Containerd.renderRegistryConfig Cri.noFaults map_to_list
       Containerd.sampleRegistries "/certs.d" false ∅).1
      !! "reg.local" = Some (Cri.Dir files) ∧
    files !! "reg.local.pem" = Some (Cri.CertFile "PEM").
Proof.
  assert (Hren : Containerd.renderable Cri.noFaults ∅
                   Containerd.sampleRegistries).
  { apply sampleRegistries_renderable. intros r raw _.
    by rewrite lookup_empty. }
  pose proof (proj2 (renderRegistryConfig_ok Cri.noFaults map_to_list
                       rangeOrder_map_to_list Containerd.sampleRegistries
                       "/certs.d" ∅) Hren) as Hok.
  destruct (Containerd.renderRegistryConfig Cri.noFaults map_to_list
              Containerd.sampleRegistries "/certs.d" false ∅)
    as [entries' o] eqn:Hrun.
  simpl in Hok. subst o.
  destruct (renderRegistryConfig_renders Cri.noFaults map_to_list
              rangeOrder_map_to_list Containerd.sampleRegistries "/certs.d"
              ∅ entries' Hrun
              (mkRegistrySpec "https" "reg.local" false "PEM" (Some 1%positive))
              ltac:(right; right; by left))
    as (files & hf & Hd & _ & _ & _ & _ & Hca & _).
  exists files. split; [exact Hd|].
  destruct (Hca ltac:(done)) as (r' & Hr' & Hh & Hc & Hl).
  unfold Containerd.sampleRegistries in Hr'.
  apply elem_of_cons in Hr' as [->|Hr']; [done|].
  apply elem_of_cons in Hr' as [->|Hr']; [done|].
  apply list_elem_of_singleton in Hr' as ->. exact Hl.
Defined.

Lemma renderRegistryConfig_preserves_witness :
  (Containerd.renderRegistryConfig Cri.noFaults map_to_list
     Containerd.sampleRegistries "/certs.d" false
     (<["x" := Cri.File "note"]> ∅)).1 !! "x" = Some (Cri.File "note").
Proof.
  destruct (Containerd.renderRegistryConfig Cri.noFaults map_to_list
              Containerd.sampleRegistries "/certs.d" false
              (<["x" := Cri.File "note"]> ∅))
    as [entries' o] eqn:Hrun.
  destruct (renderRegistryConfig_preserves Cri.noFaults map_to_list
              rangeOrder_map_to_list Containerd.sampleRegistries "/certs.d"
              false _ entries' o Hrun) as (_ & Hfile & _).
  apply Hfile. by rewrite lookup_insert_eq.
Defined.

Lemma renderRegistryConfig_succeeds_iff_witness :
  (Containerd.renderRegistryConfig Cri.noFaults map_to_list
     Containerd.sampleRegistries "/certs.d" false ∅).2 = None.
Proof.
  apply (renderRegistryConfig_succeeds_iff Cri.noFaults map_to_list
           rangeOrder_map_to_list).
  apply sampleRegistries_renderable. intros r raw _.
  by rewrite lookup_empty.
Defined.

(** ** Container teardown: where the sequence stops and what it deletes *)

Lemma teardownOne_next ctr :
  (K8s.teardownOne ctr).2 = K8s.Next ↔ tolerated ctr.
Proof.
  unfold K8s.teardownOne, tolerated.
  destruct (K8s.ctrTask ctr) as [task|e0]; [|done].
  destruct (K8s.waitResult task) as [e1|]; [simpl; split; [done|by intros [? _]]|].
  destruct (K8s.killResult task) as [e1|].
  - destruct (K8s.IsNotFound e1) eqn:Hnf; simpl.
    + split; [|done]. intros _. split; [done|]. left. by exists e1.
    + split; [done|]. intros [_ [(e & [= <-] & Hnf')|[? _]]]; congruence.
  - destruct (K8s.exitResult task) as [code|e1]; simpl.
    + split; [|done]. intros _. split; [done|]. right. split; [done|].
      by exists code.
    + split; [done|]. intros [_ [(e & ? & _)|[_ [code ?]]]]; done.
Qed.

Lemma teardownLoop_trace ctrs :
  match (K8s.teardownLoop ctrs).2 with
  | None =>
      Forall tolerated ctrs ∧
      K8s.attempted (K8s.teardownLoop ctrs).1 = K8s.ctrID <$> ctrs
  | Some e =>
      ∃ pre ctr post task,
        ctrs = pre ++ ctr :: post ∧ Forall tolerated pre ∧
        K8s.ctrTask ctr = inl task ∧ K8s.hardFailure task e ∧
        K8s.attempted (K8s.teardownLoop ctrs).1 = K8s.ctrID <$> (pre ++ [ctr])
  end.
Proof.
  induction ctrs as [|ctr ctrs IH]; [simpl; by split|].
  cbn [K8s.teardownLoop].
  pose proof (teardownOne_attempt ctr) as Ha.
  pose proof (teardownOne_next ctr) as Hn.
  pose proof (teardownOne_return ctr) as Hr.
  destruct (K8s.teardownOne ctr) as [evs [|e1]]; cbn [fst snd] in *.
  - destruct (K8s.teardownLoop ctrs) as [evs' [e|]]; cbn [fst snd] in *.
    + destruct IH as (pre & c & post & task & -> & Hpre & Ht & Hf & Hatt).
      exists (ctr :: pre), c, post, task. split; [done|].
      split; [constructor; [by apply Hn|done]|]. split; [done|].
      split; [done|]. by rewrite attempted_app, Ha, Hatt.
    + destruct IH as [Hall Hatt]. split; [constructor; [by apply Hn|done]|].
      by rewrite attempted_app, Ha, Hatt.
  - destruct (Hr e1 eq_refl) as (task & Ht & Hf).
    exists [], ctr, ctrs, task. split; [done|]. split; [constructor|].
    split; [done|]. split; [done|]. by rewrite Ha.
Qed.

Lemma teardownOne_deletes ctr ev :
  ev ∈ (K8s.teardownOne ctr).1 →
  match ev with
  | K8s.ContainerDeleted id | K8s.ContainerDeleteIgnored id =>
      id = K8s.ctrID ctr ∧ settled ctr
  | K8s.TaskDeleted t | K8s.TaskDeleteIgnored t =>
      K8s.KillSent t ∈ (K8s.teardownOne ctr).1
  | _ => True
  end.
Proof.
  unfold K8s.teardownOne, K8s.deleteCtr, settled.
  destruct (K8s.ctrTask ctr) as [task|e0].
  - destruct (K8s.waitResult task) as [e1|].
    { cbn [fst]. rewrite !elem_of_cons, elem_of_nil.
      intros [->|[->|[]]]; done. }
    destruct (K8s.killResult task) as [e1|].
    { destruct (K8s.IsNotFound e1); cbn [fst];
        rewrite !elem_of_cons, elem_of_nil; intros [->|[->|[]]]; done. }
    destruct (K8s.exitResult task) as [code|e1].
    + cbn [fst app].
      destruct (K8s.deleteResult task), (K8s.ctrDeleteResult ctr);
        rewrite !elem_of_cons, elem_of_nil;
        intros [->|[->|[->|[->|[]]]]];
        repeat first [done | split | by eexists | by right; left].
    + cbn [fst]. rewrite !elem_of_cons, elem_of_nil.
      intros [->|[->|[->|[]]]]; done.
  - cbn [fst app]. destruct (K8s.ctrDeleteResult ctr);
      rewrite !elem_of_cons, elem_of_nil; intros [->|[->|[->|[]]]]; done.
Qed.

Lemma teardownLoop_elem ctrs ev :
  ev ∈ (K8s.teardownLoop ctrs).1 →
  ∃ ctr, ctr ∈ ctrs ∧ ev ∈ (K8s.teardownOne ctr).1 ∧
         ∀ ev', ev' ∈ (K8s.teardownOne ctr).1 →
                ev' ∈ (K8s.teardownLoop ctrs).1.
Proof.
  induction ctrs as [|ctr ctrs IH]; [by intros ?%elem_of_nil|].
  cbn [K8s.teardownLoop].
  destruct (K8s.teardownOne ctr) as [evs [|e1]] eqn:Hone.
  - destruct (K8s.teardownLoop ctrs) as [evs' r]. cbn [fst snd] in *.
    intros [Hin|Hin]%elem_of_app.
    + exists ctr. rewrite Hone. split; [by left|]. split; [done|].
      intros ev' Hin'. apply elem_of_app. by left.
    + destruct (IH Hin) as (c & Hc & Hev & Hall).
      exists c. split; [by right|]. split; [done|].
      intros ev' Hin'. apply elem_of_app. right. by apply Hall.
  - cbn [fst]. intros Hin. exists ctr. rewrite Hone.
    split; [by left|done].
Qed.

(** X13: where [deleteContainer] stops.  Once the containers are
    listed, the sequence returns no error exactly when the turn of every
    container is tolerated, and then every container was reached, in
    order; it returns an error exactly at the first container with a
    hard failure, with that failure's error, having reached the
    containers up to that one and none after it. *)
Theorem deleteContainer_stops_at_first_failure (d : K8s.Daemon)
  (ctrs : list K8s.Container) :
  K8s.connect d = None → K8s.listContainers d = inl ctrs →
  match (K8s.deleteContainer d).2 with
  | None =>
      Forall tolerated ctrs ∧
      K8s.attempted (K8s.deleteContainer d).1 = K8s.ctrID <$> ctrs
  | Some e =>
      ∃ pre ctr post task,
        ctrs = pre ++ ctr :: post ∧ Forall tolerated pre ∧
        K8s.ctrTask ctr = inl task ∧ K8s.hardFailure task e ∧
        K8s.attempted (K8s.deleteContainer d).1 = K8s.ctrID <$> (pre ++ [ctr])
  end.
Proof.
  intros Hc Hl. unfold K8s.deleteContainer. rewrite Hc, Hl.
  apply teardownLoop_trace.
Qed.

Lemma deleteContainer_stops_at_first_failure_witness :
  ∃ pre ctr post task,
    K8s.listContainers killFailureDaemon = inl (pre ++ ctr :: post) ∧
    K8s.hardFailure task (K8s.ErrOther "permission denied") ∧
    K8s.attempted (K8s.deleteContainer killFailureDaemon).1
      = K8s.ctrID <$> (pre ++ [ctr]).
Proof.
  pose proof (deleteContainer_stops_at_first_failure killFailureDaemon _
                eq_refl eq_refl) as H.
  change ((K8s.deleteContainer killFailureDaemon).2)
    with (Some (K8s.ErrOther "permission denied")) in H.
  destruct H as (pre & ctr & post & task & Hsplit & _ & _ & Hf & Hatt).
  exists pre, ctr, post, task. split; [|done].
  unfold killFailureDaemon at 1. cbn [K8s.listContainers]. by rewrite Hsplit.
Defined.

(** X14: what [deleteContainer] deletes.  The deletion of a container
    is issued only for a listed container that has no task or whose task
    was killed and reported its exit status; the deletion of a task is
    issued only after the kill signal was sent to it.  When the daemon
    cannot be reached or the containers cannot be listed, nothing is
    issued at all. *)
Theorem deleteContainer_deletes_only_settled (d : K8s.Daemon)
  (ev : K8s.event) :
  ev ∈ (K8s.deleteContainer d).1 →
  K8s.connect d = None ∧
  ∃ ctrs, K8s.listContainers d = inl ctrs ∧
    match ev with
    | K8s.ContainerDeleted id | K8s.ContainerDeleteIgnored id =>
        ∃ ctr, ctr ∈ ctrs ∧ K8s.ctrID ctr = id ∧ settled ctr
    | K8s.TaskDeleted t | K8s.TaskDeleteIgnored t =>
        K8s.KillSent t ∈ (K8s.deleteContainer d).1
    | _ => True
    end.
Proof.
  unfold K8s.deleteContainer.
  destruct (K8s.connect d) as [e0|]; [by intros ?%elem_of_nil|].
  destruct (K8s.listContainers d) as [ctrs|e0]; [|by intros ?%elem_of_nil].
  intros Hin. split; [done|]. exists ctrs. split; [done|].
  destruct (teardownLoop_elem ctrs ev Hin) as (ctr & Hc & Hev & Hall).
  pose proof (teardownOne_deletes ctr ev Hev) as Hd.
  destruct ev; try done.
  - by apply Hall.
  - by apply Hall.
  - destruct Hd as [-> Hs]. by exists ctr.
  - destruct Hd as [-> Hs]. by exists ctr.
Qed.

Lemma deleteContainer_deletes_only_settled_witness :
  ∃ ctr, K8s.ctrID ctr = "c2" ∧ settled ctr.
Proof.
  destruct (deleteContainer_deletes_only_settled K8s.sampleDaemon
              (K8s.ContainerDeleted "c2"))
    as (_ & ctrs & _ & ctr & _ & Hid & Hs).
  - cbv. do 6 right. by left.
  - by exists ctr.
Defined.

(** ** The shape of the extracted join commands *)

Lemma isPrefix_app p s : Go.isPrefix p (p +:+ s) = true.
Proof.
  induction p as [|c p IH]; [done|].
  rewrite sapp_cons. simpl. by rewrite Ascii.eqb_refl, IH.
Qed.

Lemma stringsContains_here sub post :
  Go.stringsContains (sub +:+ post) sub = true.
Proof.
  destruct (sub +:+ post) eqn:Heq; simpl; rewrite <- Heq, isPrefix_app; done.
Qed.

Lemma stringsContains_skip pre s sub :
  Go.stringsContains s sub = true →
  Go.stringsContains (pre +:+ s) sub = true.
Proof.
  intros H. induction pre as [|c pre IH]; [by rewrite sapp_nil_l|].
  rewrite sapp_cons. simpl. rewrite IH. by rewrite orb_true_r.
Qed.

Ltac invert_matches :=
  repeat match goal with
         | H : Matches (_ :: _) _ |- _ => inversion H; clear H; subst
         | H : Matches [] _ |- _ => inversion H; clear H; subst
         end.

Lemma masterPattern_shape m :
  Matches K8s.masterPattern m →
  Go.isPrefix "kubeadm join" m = true ∧
  Go.stringsContains m "--control-plane" = true ∧
  Go.stringsContains m "--certificate-key" = true.
Proof.
  unfold K8s.masterPattern. intros H. invert_matches. split_and!.
  - apply isPrefix_app.
  - do 2 apply stringsContains_skip. apply stringsContains_here.
  - do 4 apply stringsContains_skip. apply stringsContains_here.
Qed.

Lemma workerPattern_shape m :
  Matches K8s.workerPattern m →
  Go.isPrefix "kubeadm join" m = true ∧
  Go.stringsContains m "--token" = true ∧
  Go.stringsContains m "--discovery-token-ca-cert-hash" = true.
Proof.
  unfold K8s.workerPattern. intros H. invert_matches. split_and!.
  - apply isPrefix_app.
  - do 2 apply stringsContains_skip. apply stringsContains_here.
  - do 6 apply stringsContains_skip. apply stringsContains_here.
Qed.

(** X15: the shape of what [extractJoinCommands] returns, whatever the
    output.  A master command that is not empty begins with
    "kubeadm join" and carries the flags --control-plane and
    --certificate-key; a worker command that is not empty begins with
    "kubeadm join", carries --token and --discovery-token-ca-cert-hash
    and does not carry --control-plane; so the two are never the same
    command. *)
Theorem extractJoinCommands_shape (output : string) :
  ((K8s.extractJoinCommands output).1 ≠ "" →
     Go.isPrefix "kubeadm join" (K8s.extractJoinCommands output).1 = true ∧
     Go.stringsContains (K8s.extractJoinCommands output).1 "--control-plane"
       = true ∧
     Go.stringsContains (K8s.extractJoinCommands output).1 "--certificate-key"
       = true ∧
     (K8s.extractJoinCommands output).1 ≠ (K8s.extractJoinCommands output).2) ∧
  ((K8s.extractJoinCommands output).2 ≠ "" →
     Go.isPrefix "kubeadm join" (K8s.extractJoinCommands output).2 = true ∧
     Go.stringsContains (K8s.extractJoinCommands output).2 "--token" = true ∧
     Go.stringsContains (K8s.extractJoinCommands output).2
       "--discovery-token-ca-cert-hash" = true ∧
     Go.stringsContains (K8s.extractJoinCommands output).2 "--control-plane"
       = false).
Proof.
  unfold K8s.extractJoinCommands. cbn [fst snd].
  set (cleaned := K8s.sanitizeCommand output).
  assert (Hworker : K8s.firstWorker (Go.FindAllString K8s.workerPattern cleaned)
                      ≠ "" →
            Matches K8s.workerPattern
              (K8s.firstWorker (Go.FindAllString K8s.workerPattern cleaned)) ∧
            Go.stringsContains
              (K8s.firstWorker (Go.FindAllString K8s.workerPattern cleaned))
              "--control-plane" = false).
  { intros Hne. destruct (firstWorker_elem _ Hne) as [Hin Hfree].
    split; [|done].
    destruct (findAllFrom_sound _ _ _ _ Hin) as (pre & _ & HM). done. }
  split.
  - change (Go.FindAllString K8s.masterPattern cleaned)
      with (Go.findAllFrom K8s.masterPattern cleaned 0).
    destruct (Go.findAllFrom K8s.masterPattern cleaned 0) as [|m l] eqn:Hf;
      [done|].
    intros _. destruct (findAllFrom_head _ _ _ _ Hf) as (pre & [_ HM] & _).
    destruct (masterPattern_shape m HM) as (H1 & H2 & H3).
    split_and!; try done.
    intros Heq.
    destruct (decide (K8s.firstWorker
                        (Go.FindAllString K8s.workerPattern cleaned) = ""))
      as [Hempty|Hne].
    + rewrite Hempty in Heq. apply Matches_lit_nonempty in HM. congruence.
    + destruct (Hworker Hne) as [_ Hfree]. congruence.
  - intros Hne. destruct (Hworker Hne) as [HM Hfree].
    destruct (workerPattern_shape _ HM) as (H1 & H2 & H3). done.
Qed.

Lemma extractJoinCommands_shape_witness :
  Go.stringsContains (K8s.extractJoinCommands controlPlaneFirstOutput).1
    "--certificate-key" = true ∧
  Go.stringsContains (K8s.extractJoinCommands controlPlaneFirstOutput).2
    "--control-plane" = false.
Proof.
  destruct (extractJoinCommands_shape controlPlaneFirstOutput) as [Hm Hw].
  destruct Hm as (_ & _ & Hkey & _); [by vm_compute|].
  destruct Hw as (_ & _ & _ & Hfree); [by vm_compute|].
  by split.
Defined.

(** ** [sanitizeCommand] *)

Lemma inRange_high lo hi c :
  (0x80 <= lo)%N → Go.inRange lo hi c = true → isHighByte c = true.
Proof.
  unfold Go.inRange, isHighByte. intros Hlo [H1 _]%andb_true_iff.
  apply N.leb_le in H1. apply N.leb_le. lia.
Qed.

Lemma contBytes_high lo hi n s :
  (0x80 <= lo)%N → Go.contBytes lo hi n s = true → highPrefix n s = true.
Proof.
  intros Hlo. unfold Go.contBytes.
  destruct n as [|[|[|[|n]]]]; try done.
  - destruct s as [|c1 s]; [done|]. intros H. simpl.
    by rewrite (inRange_high _ _ _ Hlo H).
  - destruct s as [|c1 [|c2 s]]; try done.
    intros [H1 H2]%andb_true_iff. simpl.
    rewrite (inRange_high _ _ _ Hlo H1).
    by rewrite (inRange_high 0x80 0xBF c2 ltac:(lia) H2).
  - destruct s as [|c1 [|c2 [|c3 s]]]; try done.
    intros [[H1 H2]%andb_true_iff H3]%andb_true_iff. simpl.
    rewrite (inRange_high _ _ _ Hlo H1).
    rewrite (inRange_high 0x80 0xBF c2 ltac:(lia) H2).
    by rewrite (inRange_high 0x80 0xBF c3 ltac:(lia) H3).
Qed.

Lemma runeSize_multi c rest k :
  Go.runeSize (String c rest) = S (S k) →
  isHighByte c = true ∧ highPrefix (S k) rest = true.
Proof.
  unfold Go.runeSize, isHighByte.
  destruct (N.ltb_spec (Go.byteOf c) 0x80) as [|Hhigh]; [done|].
  intros H. split; [by apply N.leb_le|]. revert H.
  repeat match goal with
         | |- context [if (?a <? ?b)%N then _ else _] =>
             destruct (a <? b)%N
         | |- context [if (?a =? ?b)%N then _ else _] =>
             destruct (a =? b)%N
         end; try done;
  match goal with
  | |- context [Go.contBytes ?lo ?hi ?n rest] =>
      destruct (Go.contBytes lo hi n rest) eqn:Hc; [|done];
      intros [= <-]; by apply (contBytes_high lo hi n rest)
  end.
Qed.

Lemma splitRunes_runes s : ∀ pending cur,
  match pending with
  | O => cur = ""
  | S _ => cur ≠ "" ∧ allChars isHighByte cur = true ∧
           highPrefix pending s = true
  end →
  Forall runeOk (Go.splitRunes s pending cur).
Proof.
  induction s as [|c rest IH]; intros pending cur Hinv.
  - destruct pending as [|p]; [subst; constructor|].
    by destruct Hinv as (_ & _ & ?).
  - cbn [Go.splitRunes].
    assert (Hemit : ∀ r, runeOk r → Forall runeOk (r :: Go.splitRunes rest 0 "")).
    { intros r Hr. constructor; [done|]. by apply IH. }
    assert (Hne : ∀ a, a +:+ String c "" ≠ "").
    { intros [|? ?] ?; by rewrite ?sapp_nil_l, ?sapp_cons in *. }
    destruct pending as [|p].
    + subst cur. rewrite sapp_nil_l.
      destruct (Go.runeSize (String c rest)) as [|[|k]] eqn:Hsize.
      * apply Hemit. split; [done|]. right. by exists c.
      * apply Hemit. split; [done|]. right. by exists c.
      * destruct (runeSize_multi _ _ _ Hsize) as [Hc Hrest].
        apply IH. split; [done|]. split; [|done]. simpl. by rewrite Hc.
    + destruct Hinv as (Hcur & Hhigh & Hpre). cbn [highPrefix] in Hpre.
      apply andb_true_iff in Hpre as [Hc Hrest].
      assert (Hall : allChars isHighByte (cur +:+ String c "") = true).
      { rewrite allChars_app, Hhigh. simpl. by rewrite Hc. }
      destruct p as [|k].
      * apply Hemit. split; [apply Hne|by left].
      * apply IH. split; [apply Hne|]. by split.
Qed.

Lemma highByte_not_space c : isHighByte c = true → isAsciiSpace c = false.
Proof.
  unfold isHighByte, isAsciiSpace, Go.inRange. intros H%N.leb_le.
  apply orb_false_iff. split.
  - apply andb_false_iff. right. apply N.leb_gt. lia.
  - apply N.eqb_neq. lia.
Qed.

Lemma allChars_impl (p q : Ascii.ascii → bool) s :
  (∀ c, p c = true → q c = true) → allChars p s = true → allChars q s = true.
Proof.
  intros Hpq. induction s as [|c s IH]; [done|]. simpl.
  intros [Hc Hs]%andb_true_iff. by rewrite (Hpq c Hc), IH.
Qed.

Lemma isSpaceRune_single c :
  Go.isSpaceRune (String c "") = isAsciiSpace c.
Proof.
  unfold Go.isSpaceRune, Go.bytesOf, isAsciiSpace, Go.inRange. cbn.
  generalize (Go.byteOf c). intros b.
  repeat match goal with
         | |- match ?p with _ => _ end = _ => destruct p
         end; reflexivity.
Qed.

Lemma runeOk_not_space r :
  runeOk r → Go.isSpaceRune r = false →
  allChars (fun c => negb (isAsciiSpace c)) r = true.
Proof.
  intros [Hne [Hhigh|[c ->]]] Hsp.
  - apply (allChars_impl isHighByte); [|done].
    intros c Hc. by rewrite (highByte_not_space c Hc).
  - rewrite isSpaceRune_single in Hsp. simpl. by rewrite Hsp.
Qed.

Lemma fieldsOf_words runes : ∀ cur,
  Forall runeOk runes → (∀ f, cur = Some f → isWord f) →
  Forall isWord (Go.fieldsOf runes cur).
Proof.
  induction runes as [|r runes IH]; intros cur Hrunes Hcur.
  - simpl. destruct cur as [f|]; [|constructor].
    constructor; [by apply Hcur|constructor].
  - apply Forall_cons in Hrunes as [Hr Hrunes]. cbn [Go.fieldsOf].
    destruct (Go.isSpaceRune r) eqn:Hsp.
    + apply Forall_app. split.
      * destruct cur as [f|]; [|constructor].
        constructor; [by apply Hcur|constructor].
      * by apply IH.
    + apply IH; [done|]. intros f [= <-].
      pose proof (runeOk_not_space r Hr Hsp) as Hfree.
      destruct Hr as [Hne _]. split.
      * destruct cur as [f|]; simpl.
        -- destruct f; [by destruct (Hcur "" eq_refl)|by rewrite sapp_cons].
        -- by rewrite sapp_nil_l.
      * rewrite allChars_app, Hfree, andb_true_r.
        destruct cur as [f|]; [|done]. by destruct (Hcur f eq_refl).
Qed.

Lemma stringsFields_words s : Forall isWord (Go.stringsFields s).
Proof.
  unfold Go.stringsFields, Go.stringsSplitEmpty.
  apply fieldsOf_words; [by apply splitRunes_runes|done].
Qed.

Lemma allChars_concat p sep fields :
  allChars p sep = true → Forall (fun f => allChars p f = true) fields →
  allChars p (String.concat sep fields) = true.
Proof.
  intros Hsep. induction 1 as [|f fields Hf Hall IH]; [done|].
  cbn [String.concat]. destruct fields as [|g fields]; [done|].
  change (String.append f (String.append sep (String.concat sep (g :: fields))))
    with (f +:+ sep +:+ String.concat sep (g :: fields)).
  by rewrite !allChars_app, Hf, Hsep, IH.
Qed.

(** X16: the result of [sanitizeCommand] is one line of words: it is
    the words of the input, each not empty and free of white space,
    joined by single blanks; so it has no line feed, tab or other control
    white space, no blank at either end and no two blanks in a row. *)
Theorem sanitizeCommand_single_line (input : string) :
  (∃ words, K8s.sanitizeCommand input = String.concat " " words ∧
            Forall isWord words) ∧
  allChars (fun c => negb (Go.inRange 9 13 c)) (K8s.sanitizeCommand input)
    = true ∧
  allChars Go.isDot (K8s.sanitizeCommand input) = true.
Proof.
  unfold K8s.sanitizeCommand, Go.stringsJoinSep.
  set (cleaned := Go.stringsReplaceAll input _ " ").
  pose proof (stringsFields_words cleaned) as Hw.
  assert (Hctl : allChars (fun c => negb (Go.inRange 9 13 c))
                   (String.concat " " (Go.stringsFields cleaned)) = true).
  { apply allChars_concat; [done|].
    eapply Forall_impl; [exact Hw|]. intros f [_ Hf]. simpl.
    revert Hf. apply allChars_impl. intros c. unfold isAsciiSpace.
    intros H%negb_true_iff%orb_false_iff. by rewrite (proj1 H). }
  split; [by exists (Go.stringsFields cleaned)|]. split; [done|].
  revert Hctl. apply allChars_impl. intros c. unfold Go.isDot, Go.inRange.
  intros H%negb_true_iff. apply negb_true_iff, N.eqb_neq. intros Heq.
  rewrite Heq in H. done.
Qed.

(** ** [matchPauseVersion] on decimal digits *)

Lemma stringsReplaceAll_char c s :
  Go.stringsReplaceAll s (String c "") "" = dropChar c s.
Proof.
  unfold Go.stringsReplaceAll. induction s as [|x s IH]; [done|].
  cbn [Go.replaceFrom Go.isPrefix dropChar String.length].
  destruct (Ascii.eqb c x); cbn [andb Nat.sub].
  - destruct s; by rewrite sapp_nil_l, IH.
  - by rewrite IH.
Qed.

Lemma digitOf_Some c v :
  Go.digitOf c = Some v →
  (48 <= Go.byteOf c <= 57)%N ∧ v = (Z.of_N (Go.byteOf c) - 48)%Z.
Proof.
  unfold Go.digitOf, Go.inRange.
  destruct (N.leb_spec 48 (Go.byteOf c)), (N.leb_spec (Go.byteOf c) 57);
    simpl; intros [= <-]; split; lia.
Qed.

Lemma splitRunes_ascii c rest :
  (Go.byteOf c < 0x80)%N →
  Go.splitRunes (String c rest) 0 "" = String c "" :: Go.splitRunes rest 0 "".
Proof.
  intros Hc. cbn [Go.splitRunes Go.runeSize].
  destruct (N.ltb_spec (Go.byteOf c) 0x80); [|lia]. by rewrite sapp_nil_l.
Qed.

(** X17: [matchPauseVersion] on a version whose form without 'v' and
    '.' begins with three decimal digits.  The two replacements delete
    the characters 'v' and '.'; the first three digits are the key looked
    up in the table, and the registry is "registry.k8s.io" exactly when
    the number they spell is at least 125, whatever follows them. *)
Theorem matchPauseVersion_digits (table : gmap string string)
  (kubeVersion : string) (c1 c2 c3 : Ascii.ascii) (rest : string)
  (v1 v2 v3 : Z) :
  dropChar dot (dropChar letterV kubeVersion) = three c1 c2 c3 +:+ rest →
  Go.digitOf c1 = Some v1 → Go.digitOf c2 = Some v2 →
  Go.digitOf c3 = Some v3 →
  Cri.stripVersion kubeVersion = three c1 c2 c3 +:+ rest ∧
  Cri.matchPauseVersion table kubeVersion
    = Go.Returned
        (default "" (table !! three c1 c2 c3),
         if (125 <=? 100 * v1 + 10 * v2 + v3)%Z
         then "registry.k8s.io" else "k8s.gcr.io").
Proof.
  intros Hstrip H1 H2 H3.
  assert (Hs : Cri.stripVersion kubeVersion = three c1 c2 c3 +:+ rest).
  { unfold Cri.stripVersion.
    by rewrite (stringsReplaceAll_char letterV), (stringsReplaceAll_char dot). }
  split; [done|].
  destruct (digitOf_Some _ _ H1) as [Hb1 ->].
  destruct (digitOf_Some _ _ H2) as [Hb2 ->].
  destruct (digitOf_Some _ _ H3) as [Hb3 ->].
  unfold Cri.matchPauseVersion.
  destruct (String.eqb_spec kubeVersion "") as [->|_]; [done|].
  fold (Cri.stripVersion kubeVersion). rewrite Hs.
  unfold three. rewrite !sapp_cons, sapp_nil_l.
  unfold Go.stringsSplitEmpty.
  rewrite !splitRunes_ascii by lia.
  cbn [Go.sliceTo length Nat.ltb Nat.leb take].
  assert (Hatoi : (Go.Atoi (String c1 (String c2 (String c3 "")))).1
                  = (100 * (Z.of_N (Go.byteOf c1) - 48)
                     + 10 * (Z.of_N (Go.byteOf c2) - 48)
                     + (Z.of_N (Go.byteOf c3) - 48))%Z).
  { unfold Go.Atoi.
    destruct (N.eqb_spec (Go.byteOf c1) 45) as [|_]; [lia|].
    destruct (N.eqb_spec (Go.byteOf c1) 43) as [|_]; [lia|].
    cbn [Go.parseDigits]. rewrite H1, H2, H3. cbn [Go.parseDigits].
    unfold Go.maxInt, Go.minInt.
    do 2 match goal with
         | |- context [(?a <? ?b)%Z] => destruct (Z.ltb_spec a b); [lia|]
         end.
    cbn [fst]. lia. }
  rewrite take_0.
  change (Go.stringsJoin [String c1 ""; String c2 ""; String c3 ""])
    with (String c1 (String c2 (String c3 ""))).
  by rewrite Hatoi.
Qed.

Lemma matchPauseVersion_digits_witness :
  Cri.matchPauseVersion Cri.samplePauseTable "v1.9.3"
    = Go.Returned ("", "registry.k8s.io").
Proof.
  destruct (matchPauseVersion_digits Cri.samplePauseTable "v1.9.3"
              (digitChar 1) (digitChar 9) (digitChar 3) "" 1 9 3
              eq_refl eq_refl eq_refl eq_refl)
    as [_ H].
  exact H.
Defined.

(** ** [ContainerdRunnable.Install] and [Uninstall] *)

Section RuntimeNode.
Variable env : Runtime.Env.
Hypothesis Hrange : Containerd.rangeOrder (Runtime.rangeOver env).

Lemma renderRegistry_outcome runnable dryRun log entries :
  match Runtime.renderRegistry env runnable dryRun (log, entries) with
  | ((log', entries'), res) =>
      log' = log ++ [Runtime.RenderRegistryConfig
                       (Runtime.RegistryConfigDir runnable) dryRun] ∧
      (dryRun = true → entries' = entries) ∧
      match res with
      | inl _ =>
          ¬ Runtime.stops env entries runnable
              (Runtime.RenderRegistryConfig
                 (Runtime.RegistryConfigDir runnable) dryRun)
      | inr e =>
          (∃ re, e = Runtime.RenderFailed re) ∧
          Runtime.stops env entries runnable
            (Runtime.RenderRegistryConfig
               (Runtime.RegistryConfigDir runnable) dryRun)
      end
  end.
Proof.
  unfold Runtime.renderRegistry. cbn [fst snd Runtime.stops].
  destruct dryRun.
  - cbn [Containerd.renderRegistryConfig]. split; [done|]. split; [done|].
    by intros [? _].
  - pose proof (renderRegistryConfig_ok (Runtime.faults env)
                  (Runtime.rangeOver env) Hrange (Runtime.Registies runnable)
                  (Runtime.RegistryConfigDir runnable) entries) as Hok.
    destruct (Containerd.renderRegistryConfig _ _ _ _ false entries)
      as [entries' [re|]]; cbn [snd] in Hok.
    + split; [done|]. split; [done|]. split; [by exists re|].
      split; [done|]. intros Hren. by apply Hok in Hren.
    + split; [done|]. split; [done|]. intros [_ Hno]. apply Hno.
      by apply Hok.
Qed.

Lemma configured_Registies runnable :
  Runtime.Registies (Runtime.configured env runnable)
  = Runtime.Registies runnable.
Proof. unfold Runtime.configured. by repeat case_match. Qed.

Ltac stop_here :=
  lazymatch goal with
  | |- ∃ done o rest, ?plan = _ ∧ ?log = _ ∧ _ =>
      let n := eval cbv in (length log - 1) in
      lazymatch eval cbn in (last log) with
      | Some ?o => exists (take n log), o, (drop (S n) plan)
      end
  end.

Ltac no_stop :=
  repeat first
    [ apply Forall_nil_2
    | apply Forall_cons_2;
      [cbn [Runtime.stops]; first [congruence | done | tauto]|] ].

Ltac stopped :=
  stop_here; cbn; split_and!; first [done | by no_stop].

(** X18: [Install] carries out its operations in a fixed order and
    returns at the first one that fails, with that operation's error:
    the package instance, the download, the configuration directory,
    [config.toml], the registry configuration, then, unless it is a dry
    run, the reload of systemd and the enabling and restart of the unit,
    and at last the crictl configuration.  [config.toml] is written from
    the runnable with the cgroup flag set, the repository mirror filled
    in when the runnable is online without a local registry, and the
    default registry directory when none is given.  The registry
    configuration fails exactly when the registries are not renderable;
    a dry run leaves the registry directory as it was. *)
Theorem Install_fail_fast (runnable : Runtime.ContainerdRunnable)
  (dryRun : bool) (entries : gmap string Cri.dirent) :
  Runtime.follows (Runtime.installPlan env runnable dryRun)
    (Runtime.stops env entries runnable)
    (Runtime.Install env runnable dryRun ([], entries)).1.1
    (Runtime.Install env runnable dryRun ([], entries)).2 ∧
  (dryRun = true →
     (Runtime.Install env runnable dryRun ([], entries)).1.2 = entries).
Proof.
  unfold Runtime.Install, Runtime.setupContainerdConfig,
    Runtime.enableContainerdService, Runtime.installPlan.
  fold (Runtime.configured env runnable).
  set (cfg := Runtime.configured env runnable).
  pose proof (renderRegistry_outcome cfg dryRun
                [Runtime.NewInstance (Runtime.Version runnable)
                   (negb (Runtime.Offline runnable)) dryRun;
                 Runtime.DownloadAndUnpackConfigs;
                 Runtime.MkdirAll (Runtime.containerdDefaultConfigDir env);
                 Runtime.WriteConfig
                   (Cri.pathJoin (Runtime.containerdDefaultConfigDir env)
                      "config.toml") cfg dryRun]
                entries) as Hren.
  unfold Runtime.stops in Hren. unfold cfg in Hren.
  rewrite configured_Registies in Hren. fold cfg in Hren.
  unfold mbind, Runtime.M_bind, mret, Runtime.M_ret, Runtime.call.
  cbn [fst snd app].
  repeat match goal with
         | |- context [Runtime.fails env ?o] =>
             lazymatch o with
             | Runtime.ReloadDeamon => fail
             | Runtime.EnableUnit _ => fail
             | Runtime.RestartUnit _ => fail
             | Runtime.RunCmd _ _ => fail
             | _ => destruct (Runtime.fails env o) eqn:?;
                    [cbn; split; [|done]; stopped|]
             end
         end.
  cbn [fst snd].
  destruct (Runtime.renderRegistry env cfg dryRun _)
    as [[log' entries'] [[]|e]]; destruct Hren as (-> & Hdry & Hres).
  - destruct dryRun.
    + cbn [fst snd app].
      destruct (Runtime.fails env (Runtime.RunCmd true Runtime.crictlConfig))
        eqn:?.
      * cbn. split; [|intros _; by apply Hdry]. stopped.
      * cbn. split; [|intros _; by apply Hdry]. split; [done|]. no_stop.
    + cbn [fst snd app].
      repeat match goal with
             | |- context [Runtime.fails env ?o] =>
                 destruct (Runtime.fails env o) eqn:?;
                 [cbn; split; [|done]; stopped|]
             end.
      cbn. split; [|done]. split; [done|]. no_stop.
  - cbn. split; [|done]. destruct Hres as ([re ->] & Hfalse & Hno).
    stop_here. cbn. split_and!; try done; [no_stop|by exists re].
Qed.

End RuntimeNode.

Lemma Install_fail_fast_witness :
  (Runtime.Install (Runtime.sampleEnv Runtime.enableFails)
     Runtime.sampleRunnable false ([], ∅)).2 ≠ inl ().
Proof.
  intros Heq.
  destruct (Install_fail_fast (Runtime.sampleEnv Runtime.enableFails)
              rangeOrder_map_to_list Runtime.sampleRunnable false ∅)
    as [Hf _].
  rewrite Heq in Hf. destruct Hf as [_ Hall]. rewrite Forall_forall in Hall.
  apply (Hall (Runtime.EnableUnit Runtime.containerdSystemdUnitName)).
  - unfold Runtime.installPlan. cbn [app]. do 6 right. by left.
  - reflexivity.
Defined.

Lemma Uninstall_run (env : Runtime.Env)
  (runnable : Runtime.ContainerdRunnable) (dryRun : bool)
  (entries : gmap string Cri.dirent) :
  Runtime.Uninstall env runnable dryRun ([], entries)
  = (((if dryRun then []
       else [Runtime.StopUnit Runtime.containerdSystemdUnitName;
             Runtime.DisableUnit Runtime.containerdSystemdUnitName]) ++
      Runtime.NewInstance (Runtime.Version runnable)
        (negb (Runtime.Offline runnable)) dryRun ::
      (if Runtime.fails env
            (Runtime.NewInstance (Runtime.Version runnable)
               (negb (Runtime.Offline runnable)) dryRun)
       then [] else Runtime.uninstallRemovals env runnable),
      entries),
     if Runtime.fails env
          (Runtime.NewInstance (Runtime.Version runnable)
             (negb (Runtime.Offline runnable)) dryRun)
     then inr (Runtime.OpFailed
                 (Runtime.NewInstance (Runtime.Version runnable)
                    (negb (Runtime.Offline runnable)) dryRun))
     else inl ()).
Proof.
  unfold Runtime.Uninstall, Runtime.disableContainerdService,
    Runtime.uninstallRemovals.
  unfold mbind, Runtime.M_bind, mret, Runtime.M_ret, Runtime.call,
    Runtime.attempt.
  destruct dryRun; cbn [fst snd app];
    destruct (Runtime.fails env (Runtime.NewInstance _ _ _)); reflexivity.
Qed.

Ltac not_in :=
  let H := fresh in
  intros H;
  repeat (apply elem_of_cons in H as [H|H]; [discriminate H|]);
  by apply elem_of_nil in H.

(** X19: [Uninstall] returns an error exactly when the package instance
    cannot be made, and then it has removed nothing.  Otherwise it ends
    with the removal of the unpacked configuration, the run directory,
    the data root directory, the configuration directory and the data
    directory and the reload of systemd, in this order, whatever fails on
    the way and also in a dry run; a dry run only leaves the systemd unit
    alone. *)
Theorem Uninstall_outcome (env : Runtime.Env)
  (runnable : Runtime.ContainerdRunnable) (dryRun : bool)
  (entries : gmap string Cri.dirent) :
  (Runtime.fails env
     (Runtime.NewInstance (Runtime.Version runnable)
        (negb (Runtime.Offline runnable)) dryRun) = true →
   (Runtime.Uninstall env runnable dryRun ([], entries)).2
     = inr (Runtime.OpFailed
              (Runtime.NewInstance (Runtime.Version runnable)
                 (negb (Runtime.Offline runnable)) dryRun)) ∧
   (Runtime.RemoveConfigs
      ∉ (Runtime.Uninstall env runnable dryRun ([], entries)).1.1) ∧
   ∀ path, Runtime.RemoveAll path
             ∉ (Runtime.Uninstall env runnable dryRun ([], entries)).1.1) ∧
  (Runtime.fails env
     (Runtime.NewInstance (Runtime.Version runnable)
        (negb (Runtime.Offline runnable)) dryRun) = false →
   (Runtime.Uninstall env runnable dryRun ([], entries)).2 = inl () ∧
   ∃ before,
     (Runtime.Uninstall env runnable dryRun ([], entries)).1.1
       = before ++ Runtime.uninstallRemovals env runnable) ∧
  (dryRun = true →
   ∀ unit,
     (Runtime.StopUnit unit
        ∉ (Runtime.Uninstall env runnable dryRun ([], entries)).1.1) ∧
     (Runtime.DisableUnit unit
        ∉ (Runtime.Uninstall env runnable dryRun ([], entries)).1.1)).
Proof.
  rewrite Uninstall_run. cbn [fst snd]. split_and!.
  - intros ->. split; [done|].
    destruct dryRun; cbn [app]; (split; [|intros path]); not_in.
  - intros ->. split; [done|].
    exists ((if dryRun then []
             else [Runtime.StopUnit Runtime.containerdSystemdUnitName;
                   Runtime.DisableUnit Runtime.containerdSystemdUnitName]) ++
            [Runtime.NewInstance (Runtime.Version runnable)
               (negb (Runtime.Offline runnable)) dryRun]).
    by rewrite <- app_assoc.
  - intros -> unit. cbn [app]. unfold Runtime.uninstallRemovals.
    destruct (Runtime.fails env _); split; not_in.
Qed.

Lemma Uninstall_outcome_witness :
  Runtime.RemoveAll "/run/containerd"
    ∈ (Runtime.Uninstall (Runtime.sampleEnv (λ _, false))
         Runtime.sampleRunnable true ([], ∅)).1.1.
Proof.
  destruct (Uninstall_outcome (Runtime.sampleEnv (λ _, false))
              Runtime.sampleRunnable true ∅) as (_ & Hok & _).
  destruct (Hok eq_refl) as [_ [before ->]].
  apply elem_of_app. right. unfold Runtime.uninstallRemovals.
  right. by left.
Defined.

(** ** [ContainerdRunnable.InitStep] *)

Lemma matchPauseVersion_panics table v msg :
  Cri.matchPauseVersion table v = Go.Panic msg ↔
  Runtime.tooShort v ∧ msg = "slice bounds out of range".
Proof.
  unfold Cri.matchPauseVersion, Runtime.tooShort, Cri.runeCount.
  destruct (String.eqb_spec v "") as [->|Hne].
  - split; [done|]. by intros [[? _] _].
  - fold (Cri.stripVersion v). unfold Go.sliceTo.
    destruct (Nat.ltb_spec (length (Go.stringsSplitEmpty (Cri.stripVersion v)))
                3) as [Hlt|Hge].
    + split; [by intros [= <-]|]. by intros [_ ->].
    + split; [done|]. intros [[_ Hlt] _]. lia.
Qed.

(** X20: [InitStep] never returns an error, but it does not always
    return: it panics, slicing past the end, exactly when the
    Kubernetes version of the metadata is too short for
    [matchPauseVersion], or when that version has no pause image in the
    table and the Kubernetes version of the cluster is too short. *)
Theorem InitStep_panics (pkg : Runtime.Package) (env : Runtime.Env)
  (runnable : Runtime.ContainerdRunnable) (metadata : Runtime.ExtraMetadata)
  (cluster : Runtime.ClusterRuntime) (nodes : list StepNode)
  (registries : list RegistrySpec) (msg : string) :
  Runtime.InitStep pkg env runnable metadata cluster nodes registries
    = Go.Panic msg ↔
  msg = "slice bounds out of range" ∧
  (Runtime.tooShort (Runtime.MetaKubeVersion metadata) ∨
   ((∃ registry,
       Cri.matchPauseVersion (Runtime.k8sMatchPauseVersion pkg)
         (Runtime.MetaKubeVersion metadata) = Go.Returned ("", registry)) ∧
    Runtime.tooShort (Runtime.KubernetesVersion cluster))).
Proof.
  unfold Runtime.InitStep.
  pose proof (matchPauseVersion_panics (Runtime.k8sMatchPauseVersion pkg)
                (Runtime.MetaKubeVersion metadata)) as H1.
  pose proof (matchPauseVersion_panics (Runtime.k8sMatchPauseVersion pkg)
                (Runtime.KubernetesVersion cluster)) as H2.
  destruct (Cri.matchPauseVersion _ (Runtime.MetaKubeVersion metadata))
    as [[pv pr]|msg1].
  - cbn [Runtime.setPause Runtime.PauseVersion Runtime.PauseRegistry fst snd].
    assert (Hfirst : ¬ Runtime.tooShort (Runtime.MetaKubeVersion metadata)).
    { intros Hshort.
      by pose proof (proj2 (H1 "slice bounds out of range")
                       (conj Hshort eq_refl)). }
    destruct (String.eqb_spec pv "") as [->|Hne].
    + destruct (Cri.matchPauseVersion _ (Runtime.KubernetesVersion cluster))
        as [p'|msg2].
      * match goal with
        | |- ?X = Go.Panic msg ↔ _ =>
            assert (∃ r, X = Go.Returned r) as [r ->]
              by (repeat case_match; by eexists)
        end.
        split; [done|].
        intros [_ [?|[_ Hshort]]]; [done|].
        by pose proof (proj2 (H2 "slice bounds out of range")
                         (conj Hshort eq_refl)).
      * split.
        -- intros [= <-]. destruct (proj1 (H2 msg2) eq_refl) as [Hshort ->].
           split; [done|]. right. split; [by exists pr|done].
        -- intros [-> _]. by destruct (proj1 (H2 msg2) eq_refl) as [_ ->].
    + match goal with
      | |- ?X = Go.Panic msg ↔ _ =>
          assert (∃ r, X = Go.Returned r) as [r ->]
            by (repeat case_match; by eexists)
      end.
      split; [done|].
      intros [_ [?|[[reg [= -> _]] _]]]; done.
  - split.
    + intros [= <-]. destruct (proj1 (H1 msg1) eq_refl) as [Hshort ->].
      split; [done|]. by left.
    + intros [-> _]. by destruct (proj1 (H1 msg1) eq_refl) as [_ ->].
Qed.

Lemma InitStep_panics_witness :
  Runtime.InitStep Runtime.samplePackage (Runtime.sampleEnv (λ _, false))
    Runtime.sampleRunnable (Runtime.mkExtraMetadata false "" "")
    (Runtime.mkClusterRuntime "1.6.4" "" "v1") [] []
  = Go.Panic "slice bounds out of range".
Proof.
  apply InitStep_panics. split; [done|]. right. split.
  - by exists "k8s.gcr.io".
  - split; [done|]. vm_compute. lia.
Defined.

(** X21: what [InitStep] leaves when it returns.  The runnable is
    encoded once, after the first pause lookup and before the fallback
    to the cluster's Kubernetes version: the steps made by the call carry
    the encoding of the runnable with the pause image of the first lookup,
    even when the fallback then sets another one in the runnable itself.
    Steps the runnable came with are kept as they are, the upgrade steps
    are never made, and the registries with credentials are those of the
    registries given. *)
Theorem InitStep_payload (pkg : Runtime.Package) (env : Runtime.Env)
  (runnable after : Runtime.ContainerdRunnable)
  (metadata : Runtime.ExtraMetadata) (cluster : Runtime.ClusterRuntime)
  (nodes : list StepNode) (registries : list RegistrySpec) :
  Runtime.InitStep pkg env runnable metadata cluster nodes registries
    = Go.Returned after →
  ∃ first,
    Cri.matchPauseVersion (Runtime.k8sMatchPauseVersion pkg)
      (Runtime.MetaKubeVersion metadata) = Go.Returned first ∧
    (first.1 ≠ "" →
       Runtime.PauseVersion after = first.1 ∧
       Runtime.PauseRegistry after = first.2) ∧
    (first.1 = "" →
       Cri.matchPauseVersion (Runtime.k8sMatchPauseVersion pkg)
         (Runtime.KubernetesVersion cluster)
       = Go.Returned (Runtime.PauseVersion after,
                      Runtime.PauseRegistry after)) ∧
    (Runtime.installSteps runnable = [] →
       ∃ id,
         Runtime.GetActionSteps after ActionInstall
         = [Runtime.runtimeStep id "installRuntime" nodes ActionInstall
              (Runtime.stepKey pkg)
              (default "" (Runtime.jsonMarshal pkg
                             (Runtime.encoded runnable after first)))]) ∧
    (Runtime.installSteps runnable ≠ [] →
       Runtime.GetActionSteps after ActionInstall
       = Runtime.installSteps runnable) ∧
    (Runtime.uninstallSteps runnable = [] →
       ∃ id,
         Runtime.GetActionSteps after ActionUninstall
         = [Runtime.runtimeStep id "uninstallRuntime" nodes ActionUninstall
              (Runtime.templateKey pkg)
              (default "" (Runtime.jsonMarshal pkg
                             (Runtime.encoded runnable after first)))]) ∧
    (Runtime.uninstallSteps runnable ≠ [] →
       Runtime.GetActionSteps after ActionUninstall
       = Runtime.uninstallSteps runnable) ∧
    Runtime.GetActionSteps after ActionUpgrade
      = Runtime.upgradeSteps runnable ∧
    Runtime.RegistryWithAuth after
      = filter (fun r => RegistryAuth r ≠ None) registries.
Proof.
  unfold Runtime.InitStep.
  destruct (Cri.matchPauseVersion _ (Runtime.MetaKubeVersion metadata))
    as [[pv pr]|msg1]; [|done].
  cbn [Runtime.setPause Runtime.PauseVersion Runtime.PauseRegistry fst snd].
  intros Hrun. exists (pv, pr). split; [done|]. cbn [fst snd].
  assert (Hauth : Containerd.FilterRegistryWithAuth registries
                  = filter (fun r => RegistryAuth r ≠ None) registries).
  { unfold Containerd.FilterRegistryWithAuth.
    by rewrite FilterRegistryWithAuth_fold. }
  destruct (String.eqb_spec pv "") as [->|Hne].
  - destruct (Cri.matchPauseVersion _ (Runtime.KubernetesVersion cluster))
      as [[pv' pr']|msg2]; [|done].
    cbn [Runtime.setPause Runtime.installSteps Runtime.uninstallSteps
         fst snd] in Hrun.
    destruct (Runtime.installSteps runnable) as [|s1 l1] eqn:Hi;
      destruct (Runtime.uninstallSteps runnable) as [|s2 l2] eqn:Hu;
      cbn in Hrun; injection Hrun as <-; cbn;
      unfold Runtime.encoded; cbn; rewrite ?Hi, ?Hu;
      split_and!; try done; intros _; by eexists.
  - cbn [Runtime.setPause Runtime.installSteps Runtime.uninstallSteps
         fst snd] in Hrun.
    destruct (Runtime.installSteps runnable) as [|s1 l1] eqn:Hi;
      destruct (Runtime.uninstallSteps runnable) as [|s2 l2] eqn:Hu;
      cbn in Hrun; injection Hrun as <-; cbn;
      unfold Runtime.encoded; cbn; rewrite ?Hi, ?Hu;
      split_and!; try done; intros _; by eexists.
Qed.

Lemma InitStep_payload_witness :
  ∃ after,
    Runtime.InitStep Runtime.samplePackage (Runtime.sampleEnv (λ _, false))
      Runtime.sampleRunnable (Runtime.mkExtraMetadata false "" "")
      (Runtime.mkClusterRuntime "1.6.4" "" "v1.25.4") [] []
      = Go.Returned after ∧
    Runtime.PauseVersion after = "3.8" ∧
    (CustomCommand <$> (Runtime.GetActionSteps after ActionInstall
                          ≫= Commands)) = ["pause="].
Proof.
  eexists. split; [reflexivity|].
  match goal with
  | |- Runtime.PauseVersion ?a = _ ∧ _ =>
      destruct (InitStep_payload Runtime.samplePackage
                  (Runtime.sampleEnv (λ _, false)) Runtime.sampleRunnable a
                  (Runtime.mkExtraMetadata false "" "")
                  (Runtime.mkClusterRuntime "1.6.4" "" "v1.25.4") [] []
                  eq_refl)
        as (first & Hfirst & _ & _ & Hinstall & _)
  end.
  change (Go.Returned ("", "k8s.gcr.io") = Go.Returned first) in Hfirst.
  assert (first = ("", "k8s.gcr.io")) as -> by congruence.
  destruct (Hinstall eq_refl) as [id Hsteps].
  split; [reflexivity|]. rewrite Hsteps. reflexivity.
Defined.

(** ** Calico: image steps and [InitStep] *)

(** X22: the image steps of install and uninstall mirror each other.
    [LoadImage] and [UninstallSteps] fail together, with the encoder's
    error; otherwise, when the runnable is offline and has no local
    registry, the one returns exactly the load step and the other exactly
    the remove step, for the same payload and nodes, and in every other
    case both return no step. *)
Theorem LoadImage_UninstallSteps_mirror (pkg : Cni.Package)
  (runnable : Cni.CalicoRunnable) (nodes : list StepNode) :
  match Cni.jsonMarshal pkg runnable with
  | inr e =>
      Cni.LoadImageSteps pkg runnable nodes = inr e ∧
      Cni.UninstallSteps pkg runnable nodes = inr e
  | inl bytes =>
      (Cni.Offline runnable = true ∧ Cni.LocalRegistry runnable = "" ∧
       Cni.LoadImageSteps pkg runnable nodes
         = inl [Cni.LoadImage pkg "calico" bytes nodes] ∧
       Cni.UninstallSteps pkg runnable nodes
         = inl [Cni.RemoveImage pkg "calico" bytes nodes]) ∨
      ((Cni.Offline runnable = false ∨ Cni.LocalRegistry runnable ≠ "") ∧
       Cni.LoadImageSteps pkg runnable nodes = inl [] ∧
       Cni.UninstallSteps pkg runnable nodes = inl [])
  end.
Proof.
  unfold Cni.LoadImageSteps, Cni.UninstallSteps.
  destruct (Cni.jsonMarshal pkg runnable) as [bytes|e]; [|done].
  destruct (Cni.Offline runnable); simpl.
  - destruct (String.eqb_spec (Cni.LocalRegistry runnable) "") as [->|Hne].
    + by left.
    + right. split; [by right|done].
  - right. split; [by left|done].
Qed.

(** X23: when the calico [InitStep] returns.  It panics on the second
    CIDR block when the family is dual-stack and fewer than two blocks
    are given, else on the first block when none is given, else on the
    calico configuration when it is nil.  Otherwise it returns a stepper
    of type "calico" whose IPv4 CIDR is the first block, and whose IPv6
    CIDR is the second block for the dual-stack family and empty for any
    other family, whatever blocks are given. *)
Theorem CalicoInitStep_domain (dualStack : string)
  (parse : string → CalicoInit.NodeAddressDetection)
  (metadata : CalicoInit.ExtraMetadata) (cni : CalicoInit.CNI)
  (networking : CalicoInit.Networking) :
  let dual := String.eqb (CalicoInit.IPFamily networking) dualStack in
  let blocks := CalicoInit.CIDRBlocks networking in
  let run := CalicoInit.InitStep dualStack parse metadata cni networking in
  (dual = true → length blocks < 2 →
     run = Go.Panic "index out of range [1]") ∧
  ((dual = true → 2 ≤ length blocks) → blocks = [] →
     run = Go.Panic "index out of range [0]") ∧
  ((dual = true → 2 ≤ length blocks) → blocks ≠ [] →
     CalicoInit.CniCalico cni = None →
     run = Go.Panic "invalid memory address or nil pointer dereference") ∧
  ((dual = true → 2 ≤ length blocks) → blocks ≠ [] →
     CalicoInit.CniCalico cni ≠ None →
     ∃ stepper,
       run = Go.Returned stepper ∧
       CalicoInit.Type_ stepper = "calico" ∧
       CalicoInit.DualStack stepper = dual ∧
       Some (CalicoInit.PodIPv4CIDR stepper) = blocks !! 0 ∧
       (dual = true → Some (CalicoInit.PodIPv6CIDR stepper) = blocks !! 1) ∧
       (dual = false → CalicoInit.PodIPv6CIDR stepper = "")).
Proof.
  intros dual blocks run. subst run. unfold CalicoInit.InitStep.
  fold dual. fold blocks. split_and!.
  - intros -> Hlen. rewrite lookup_ge_None_2 by lia. done.
  - intros Hlen ->. destruct dual; [specialize (Hlen eq_refl); simpl in Hlen; lia|].
    done.
  - intros Hlen Hne Hnil. rewrite Hnil.
    destruct blocks as [|b0 blocks']; [done|]. cbn [lookup list_lookup].
    destruct dual; [|done].
    specialize (Hlen eq_refl). destruct blocks' as [|b1 ?]; [simpl in Hlen; lia|].
    done.
  - intros Hlen Hne Hcal.
    destruct (CalicoInit.CniCalico cni) as [calico|]; [|done].
    destruct blocks as [|b0 blocks']; [done|]. cbn [lookup list_lookup].
    destruct dual.
    + specialize (Hlen eq_refl).
      destruct blocks' as [|b1 ?]; [simpl in Hlen; lia|].
      eexists. split; [done|]. by split_and!.
    + eexists. split; [done|]. by split_and!.
Qed.

Lemma CalicoInitStep_domain_witness :
  CalicoInit.InitStep "IPv4+IPv6" CalicoInit.sampleParse
    (CalicoInit.mkExtraMetadata "/var/lib/kubelet" "containerd")
    CalicoInit.sampleCNI
    (CalicoInit.mkNetworking "IPv4+IPv6" ["10.244.0.0/16"])
  = Go.Panic "index out of range [1]".
Proof.
  apply (CalicoInitStep_domain "IPv4+IPv6" CalicoInit.sampleParse
           (CalicoInit.mkExtraMetadata "/var/lib/kubelet" "containerd")
           CalicoInit.sampleCNI
           (CalicoInit.mkNetworking "IPv4+IPv6" ["10.244.0.0/16"])).
  - reflexivity.
  - simpl. lia.
Defined.

(** ** Re-running [ContainerdRegistryConfigure.Install] *)

Section Rerun.
Variable F : Cri.Faults.

Lemma writeStep_union hostDir hosts : ∀ base files cfgs,
  foldl (Containerd.writeStep hostDir) (base ∪ files, cfgs) hosts
  = ((foldl (Containerd.writeStep hostDir) (base, cfgs) hosts).1 ∪ files,
     (foldl (Containerd.writeStep hostDir) (base, cfgs) hosts).2).
Proof.
  induction hosts as [|host hosts IH]; intros base files cfgs; [done|].
  cbn [foldl]. unfold Containerd.writeStep at 2 4 6. cbn [fst snd].
  destruct (0 <? String.length (Cri.HostCA host)).
  - by rewrite <- IH, insert_union_l.
  - by rewrite <- IH.
Qed.

Lemma renderConfigs_success r dir entries :
  (Cri.renderConfigs F r dir entries).2 = None →
  (Cri.renderConfigs F r dir entries).1
  = <[Cri.Server r := Cri.Dir (writes dir r ∪ filesAt entries (Cri.Server r))]>
      entries.
Proof.
  unfold Cri.renderConfigs, filesAt, writes.
  set (hostDir := Cri.pathJoin dir (Cri.Server r)).
  assert (Hgo : ∀ files0,
    (if Cri.mkdirFault F (Cri.Server r)
     then (entries, Some (Cri.ErrMkdir hostDir))
     else
       match Cri.writeHosts F (Cri.Server r) hostDir (Cri.Hosts r) files0 ∅ with
       | (files1, inr e) => (<[Cri.Server r := Cri.Dir files1]> entries, Some e)
       | (files1, inl cfgs) =>
           if Cri.createFault F (Cri.Server r)
           then (<[Cri.Server r := Cri.Dir files1]> entries,
                 Some (Cri.ErrCreate (Cri.pathJoin hostDir "hosts.toml")))
           else if Cri.encodeFault F (Cri.Server r)
           then (<[Cri.Server r :=
                     Cri.Dir (<["hosts.toml" := Cri.Truncated]> files1)]>
                   entries,
                 Some (Cri.ErrEncode (Cri.pathJoin hostDir "hosts.toml")))
           else (<[Cri.Server r :=
                     Cri.Dir (<["hosts.toml" :=
                                Cri.HostsToml {| Cri.HFServer := Cri.Server r;
                                                 Cri.HostConfigs := cfgs |}]>
                                files1)]> entries, None)
       end).2 = None →
    (if Cri.mkdirFault F (Cri.Server r)
     then (entries, Some (Cri.ErrMkdir hostDir))
     else
       match Cri.writeHosts F (Cri.Server r) hostDir (Cri.Hosts r) files0 ∅ with
       | (files1, inr e) => (<[Cri.Server r := Cri.Dir files1]> entries, Some e)
       | (files1, inl cfgs) =>
           if Cri.createFault F (Cri.Server r)
           then (<[Cri.Server r := Cri.Dir files1]> entries,
                 Some (Cri.ErrCreate (Cri.pathJoin hostDir "hosts.toml")))
           else if Cri.encodeFault F (Cri.Server r)
           then (<[Cri.Server r :=
                     Cri.Dir (<["hosts.toml" := Cri.Truncated]> files1)]>
                   entries,
                 Some (Cri.ErrEncode (Cri.pathJoin hostDir "hosts.toml")))
           else (<[Cri.Server r :=
                     Cri.Dir (<["hosts.toml" :=
                                Cri.HostsToml {| Cri.HFServer := Cri.Server r;
                                                 Cri.HostConfigs := cfgs |}]>
                                files1)]> entries, None)
       end).1
    = <[Cri.Server r :=
          Cri.Dir (<["hosts.toml" :=
                     Cri.HostsToml
                       {| Cri.HFServer := Cri.Server r;
                          Cri.HostConfigs :=
                            (foldl (Containerd.writeStep hostDir) (∅, ∅)
                               (Cri.Hosts r)).2 |}]>
                     (foldl (Containerd.writeStep hostDir) (∅, ∅)
                        (Cri.Hosts r)).1 ∪ files0)]> entries).
  { intros files0.
    destruct (Cri.mkdirFault F (Cri.Server r)); [done|].
    destruct (Cri.writeHosts F _ hostDir (Cri.Hosts r) files0 ∅)
      as [files1 [cfgs|e]] eqn:Hw; [|done].
    destruct (Cri.createFault F (Cri.Server r)); [done|].
    destruct (Cri.encodeFault F (Cri.Server r)); [done|].
    intros _. cbn [fst]. apply writeHosts_fold in Hw.
    pose proof (writeStep_union hostDir (Cri.Hosts r) ∅ files0 ∅) as Hu.
    rewrite (left_id_L ∅ (∪)) in Hu. rewrite Hw in Hu.
    injection Hu as -> ->. by rewrite insert_union_l. }
  destruct (entries !! Cri.Server r) as [[raw|old]|]; [done|apply Hgo..].
Qed.

Lemma overlay_absent dir s regs :
  s ∉ Cri.servers regs → overlay dir s regs = ∅.
Proof.
  induction regs as [|kr regs IH]; [done|].
  rewrite servers_cons. intros Hn. cbn [overlay].
  destruct (decide (Cri.Server kr.2 = s)) as [<-|_]; [set_solver|].
  apply IH. set_solver.
Qed.

Lemma renderEach_success_lookup dir regs : ∀ entries,
  (Containerd.renderEach F dir regs entries).2 = None →
  ∀ s, (Containerd.renderEach F dir regs entries).1 !! s
       = if decide (s ∈ Cri.servers regs)
         then Some (Cri.Dir (overlay dir s regs ∪ filesAt entries s))
         else entries !! s.
Proof.
  induction regs as [|[k r] regs IH]; intros entries Hok s.
  - cbn [Containerd.renderEach fst].
    by rewrite decide_False by (unfold Cri.servers; set_solver).
  - cbn [Containerd.renderEach] in *.
    pose proof (renderConfigs_success r dir entries) as Hr.
    destruct (Cri.renderConfigs F r dir entries) as [e1 [err|]]; [done|].
    cbn [fst snd] in Hr. specialize (Hr eq_refl). subst e1.
    rewrite (IH _ Hok s). rewrite servers_cons. cbn [snd overlay].
    destruct (decide (Cri.Server r = s)) as [<-|Hne].
    + rewrite (decide_True (P := Cri.Server r ∈ {[Cri.Server r]} ∪ _))
        by set_solver.
      unfold filesAt at 1. rewrite lookup_insert_eq.
      destruct (decide (Cri.Server r ∈ Cri.servers regs)) as [Hin|Hin].
      * by rewrite (assoc_L (∪)).
      * rewrite overlay_absent by done.
        by rewrite (left_id_L ∅ (∪)).
    + unfold filesAt at 1. rewrite lookup_insert_ne by done.
      fold (filesAt entries s).
      destruct (decide (s ∈ Cri.servers regs)) as [Hin|Hin].
      * by rewrite decide_True by set_solver.
      * by rewrite decide_False by set_solver.
Qed.

Lemma renderLoop_renderEach dir regs : ∀ entries old,
  (Cri.renderLoop F dir regs entries old).1.1
    = (Containerd.renderEach F dir regs entries).1 ∧
  (Cri.renderLoop F dir regs entries old).2
    = (Containerd.renderEach F dir regs entries).2 ∧
  ((Cri.renderLoop F dir regs entries old).2 = None →
   (Cri.renderLoop F dir regs entries old).1.2 = old ∖ Cri.servers regs).
Proof.
  induction regs as [|[k r] regs IH]; intros entries old.
  - simpl. split_and!; try done. intros _. unfold Cri.servers. set_solver.
  - cbn [Cri.renderLoop Containerd.renderEach].
    destruct (Cri.renderConfigs F r dir entries) as [e1 [err|]]; [done|].
    destruct (IH e1 (old ∖ {[Cri.Server r]})) as (H1 & H2 & H3).
    split_and!; try done. intros Hok. rewrite (H3 Hok), servers_cons.
    set_solver.
Qed.

(** The store that a successful [Install] leaves, entry by entry. *)
Lemma Install_success c fs fs' logs :
  Cri.Install F c false fs = (fs', logs, None) →
  Cri.readDirFault F = None ∧
  renderableOver F (Cri.entriesOf fs) (Cri.Registries c) ∧
  (fs' = None ↔ Cri.Registries c = [] ∧ fs = None) ∧
  ∀ s, Cri.entriesOf fs' !! s
       = if decide (s ∈ Cri.servers (Cri.Registries c))
         then Some (Cri.Dir (overlay (Cri.ConfigDir c) s (Cri.Registries c)
                             ∪ filesAt (Cri.entriesOf fs) s))
         else if decide (s ∈ Cri.dirNames (Cri.entriesOf fs) ∧
                         Cri.removeFault F s = false)
              then None else Cri.entriesOf fs !! s.
Proof.
  unfold Cri.Install.
  destruct (Cri.readDirFault F) as [msg|]; [done|].
  set (entries := Cri.entriesOf fs).
  destruct (renderLoop_renderEach (Cri.ConfigDir c) (Cri.Registries c) entries
              (Cri.dirNames entries)) as (H1 & H2 & H3).
  pose proof (renderEach_succeeds_iff F (Cri.ConfigDir c) (Cri.Registries c)
                entries) as Hiff.
  pose proof (renderEach_success_lookup (Cri.ConfigDir c) (Cri.Registries c)
                entries) as Hlook.
  destruct (Cri.renderLoop F (Cri.ConfigDir c) (Cri.Registries c) entries
              (Cri.dirNames entries)) as [[entries' old'] [e|]]; [done|].
  cbn [fst snd] in *. rewrite <- H2 in Hiff, Hlook. rewrite <- H1 in Hlook.
  specialize (Hlook eq_refl). specialize (H3 eq_refl). subst old'.
  unfold Cri.clearLoop.
  destruct (clearLoop_fold F
              (elements (Cri.dirNames entries ∖ Cri.servers (Cri.Registries c)))
              entries' []) as (Hclear & _ & _).
  destruct (foldl (Cri.clearStep F) (entries', []) _) as [entries'' logs0].
  cbn [fst] in Hclear.
  intros [= <- <-]. split; [done|]. split; [exact (proj1 Hiff eq_refl)|].
  assert (Hentry : ∀ s, entries'' !! s
            = if decide (s ∈ Cri.servers (Cri.Registries c))
              then Some (Cri.Dir (overlay (Cri.ConfigDir c) s (Cri.Registries c)
                                  ∪ filesAt entries s))
              else if decide (s ∈ Cri.dirNames entries ∧
                              Cri.removeFault F s = false)
                   then None else entries !! s).
  { intros s. rewrite Hclear, Hlook.
    destruct (decide (s ∈ Cri.servers (Cri.Registries c))) as [Hs|Hs].
    - rewrite decide_False; [done|]. intros [Hin _].
      apply elem_of_elements in Hin. set_solver.
    - destruct (decide (s ∈ Cri.dirNames entries ∧
                        Cri.removeFault F s = false)) as [[Hd Hf]|Hn].
      + rewrite decide_True; [done|]. split; [|done].
        apply elem_of_elements. set_solver.
      + rewrite decide_False; [done|]. intros [Hin Hf]. apply Hn.
        apply elem_of_elements in Hin. split; [set_solver|done]. }
  destruct (decide (Cri.Registries c = [])) as [Hnil|Hne].
  - destruct fs as [m|].
    + split; [split; [done|by intros [_ ?]]|]. apply Hentry.
    + split; [done|]. intros s. cbn [Cri.entriesOf default].
      rewrite <- (Hentry s). rewrite Hclear, Hlook, Hnil.
      rewrite decide_False by (unfold Cri.servers; set_solver).
      unfold entries. cbn [Cri.entriesOf default]. rewrite lookup_empty.
      by case_decide.
  - split; [split; [done|by intros [? _]]|]. apply Hentry.
Qed.

(** [Install] succeeds when the directory can be read and the registries
    can be rendered. *)
Lemma Install_runs c fs :
  Cri.readDirFault F = None →
  renderableOver F (Cri.entriesOf fs) (Cri.Registries c) →
  ∃ fs' logs, Cri.Install F c false fs = (fs', logs, None).
Proof.
  intros Hrd Hren. unfold Cri.Install. rewrite Hrd.
  destruct (renderLoop_renderEach (Cri.ConfigDir c) (Cri.Registries c)
              (Cri.entriesOf fs) (Cri.dirNames (Cri.entriesOf fs)))
    as (_ & H2 & _).
  apply (proj2 (renderEach_succeeds_iff F (Cri.ConfigDir c)
                  (Cri.Registries c) (Cri.entriesOf fs))) in Hren.
  rewrite <- H2 in Hren.
  destruct (Cri.renderLoop F _ _ _ _) as [[entries' old'] o].
  cbn [snd] in Hren. subst o.
  destruct (Cri.clearLoop F entries' (elements old')) as [entries'' logs].
  by eexists _, _.
Qed.

Lemma servers_perm regs regs' :
  regs' ≡ₚ regs → Cri.servers regs' = Cri.servers regs.
Proof.
  intros Hp. apply set_eq. intros s. rewrite !elem_of_servers.
  split; intros (kr & Hin & Hs); exists kr; split; try done.
  - by rewrite <- Hp.
  - by rewrite Hp.
Qed.

Lemma overlay_perm dir s regs regs' :
  regs ≡ₚ regs' →
  NoDup ((λ kr : string * Cri.ContainerdRegistry, Cri.Server kr.2) <$> regs) →
  overlay dir s regs = overlay dir s regs'.
Proof.
  induction 1 as [|x l l' Hp IH|x y l|l1 l2 l3 Hp1 IH1 Hp2 IH2]; intros Hnd.
  - done.
  - rewrite fmap_cons in Hnd. apply NoDup_cons in Hnd as [_ Hnd].
    cbn [overlay]. by rewrite IH.
  - rewrite !fmap_cons in Hnd. apply NoDup_cons in Hnd as [Hy _].
    cbn [overlay].
    destruct (decide (Cri.Server x.2 = s)) as [Hx|Hx];
      destruct (decide (Cri.Server y.2 = s)) as [Hy'|Hy']; try done.
    exfalso. apply Hy. rewrite Hy', <- Hx. by left.
  - rewrite IH1 by done. apply IH2. by rewrite <- Hp1.
Qed.

End Rerun.

Lemma twoForOne_renderable :
  renderableOver Cri.removeFails (Cri.entriesOf Cri.sampleStore)
    (Cri.Registries twoForOne).
Proof.
  intros kr Hin. split; [|done]. intros raw.
  assert (Hs : Cri.Server kr.2 = "reg.local").
  { unfold twoForOne in Hin. cbn [Cri.Registries] in Hin.
    apply elem_of_cons in Hin as [->|Hin]; [done|].
    by apply list_elem_of_singleton in Hin as ->. }
  rewrite Hs.
  change (Cri.entriesOf Cri.sampleStore)
    with (<["a" := Cri.Dir ∅]>
            (<["b" := Cri.Dir ∅]> (∅ : gmap string Cri.dirent))).
  by rewrite !lookup_insert_ne, lookup_empty.
Qed.

(** X24: re-running [Install] converges.  When [Install] has succeeded
    and it is run again on the store it left, with whatever answers of
    the operating system as long as the directory can be read and the
    host directories of the registries written, the second run succeeds.
    It leaves every entry as it is, except that it removes the stale
    directories whose removal now succeeds; the stale directories left by
    the first run are those whose removal failed then.  So the store is
    left as it is when every such removal fails again, and when none had
    failed.  This holds when the second run ranges over the registries in
    the same order, and in whatever order it ranges over them when no two
    registries have the same server. *)
Theorem Install_idempotent (F F' : Cri.Faults)
  (c c' : Cri.ContainerdRegistryConfigure)
  (fs fs1 : Cri.store) (logs1 : list Cri.logEntry) :
  Cri.Install F c false fs = (fs1, logs1, None) →
  Cri.ConfigDir c' = Cri.ConfigDir c →
  Cri.Registries c' ≡ₚ Cri.Registries c →
  (Cri.Registries c' = Cri.Registries c ∨
   NoDup ((λ kr : string * Cri.ContainerdRegistry, Cri.Server kr.2)
            <$> Cri.Registries c)) →
  Cri.readDirFault F' = None →
  (∀ kr, kr ∈ Cri.Registries c → Containerd.hostFaultFree F' kr.2) →
  ∃ fs2 logs2,
    Cri.Install F' c' false fs1 = (fs2, logs2, None) ∧
    (∀ s, Cri.entriesOf fs2 !! s
          = if decide (s ∈ staleDirs (Cri.Registries c) fs1 ∧
                       Cri.removeFault F' s = false)
            then None else Cri.entriesOf fs1 !! s) ∧
    (∀ s, s ∈ staleDirs (Cri.Registries c) fs1 →
          Cri.removeFault F s = true) ∧
    ((∀ s, s ∈ staleDirs (Cri.Registries c) fs1 →
           Cri.removeFault F' s = true) →
     fs2 = fs1).
Proof.
  intros Hrun Hdir Hperm Horder Hrd' Hff'.
  destruct (Install_success F c fs fs1 logs1 Hrun) as (_ & _ & Hnone & H1).
  assert (Hsrv : Cri.servers (Cri.Registries c')
                 = Cri.servers (Cri.Registries c)) by by apply servers_perm.
  assert (Hov : ∀ s, overlay (Cri.ConfigDir c') s (Cri.Registries c')
                     = overlay (Cri.ConfigDir c) s (Cri.Registries c)).
  { intros s. rewrite Hdir. destruct Horder as [->|Hnd]; [done|].
    symmetry. by apply overlay_perm. }
  assert (Hren1 : renderableOver F' (Cri.entriesOf fs1) (Cri.Registries c')).
  { intros kr Hin. rewrite Hperm in Hin. split; [|by apply Hff'].
    intros raw. rewrite H1.
    rewrite decide_True; [done|]. apply elem_of_servers. by exists kr. }
  destruct (Install_runs F' c' fs1 Hrd' Hren1) as (fs2 & logs2 & Hrun2).
  exists fs2, logs2. split; [done|].
  destruct (Install_success F' c' fs1 fs2 logs2 Hrun2) as (_ & _ & Hnone2 & H2).
  assert (Hlook : ∀ s, Cri.entriesOf fs2 !! s
            = if decide (s ∈ staleDirs (Cri.Registries c) fs1 ∧
                         Cri.removeFault F' s = false)
              then None else Cri.entriesOf fs1 !! s).
  { intros s. rewrite H2, Hsrv, Hov. unfold staleDirs.
    destruct (decide (s ∈ Cri.servers (Cri.Registries c))) as [Hs|Hs].
    - rewrite decide_False by set_solver.
      rewrite (H1 s), decide_True by done.
      unfold filesAt at 1. rewrite (H1 s), decide_True by done.
      by rewrite (assoc_L (∪)), (idemp_L (∪)).
    - destruct (decide (s ∈ Cri.dirNames (Cri.entriesOf fs1) ∧
                        Cri.removeFault F' s = false)) as [[Hd Hf]|Hn].
      + rewrite decide_True; [done|]. split; [set_solver|done].
      + rewrite decide_False; [done|]. intros [Hin Hf]. apply Hn.
        split; [set_solver|done]. }
  assert (Hfailed : ∀ s, s ∈ staleDirs (Cri.Registries c) fs1 →
                         Cri.removeFault F s = true).
  { intros s Hin. unfold staleDirs in Hin.
    apply elem_of_difference in Hin as [Hd Hs].
    apply elem_of_dirNames in Hd as [files Hfiles].
    rewrite (H1 s), decide_False in Hfiles by done.
    case_decide as Hd0; [done|].
    destruct (Cri.removeFault F s) eqn:Hf; [done|]. exfalso. apply Hd0.
    split; [|done]. apply elem_of_dirNames. by exists files. }
  split; [exact Hlook|]. split; [exact Hfailed|].
  intros Hagain.
  assert (Hsame : Cri.entriesOf fs2 = Cri.entriesOf fs1).
  { apply map_eq. intros s. rewrite Hlook.
    case_decide as Hd; [|done]. destruct Hd as [Hin Hf].
    rewrite (Hagain s Hin) in Hf. discriminate Hf. }
  destruct fs1 as [e1|], fs2 as [e2|].
  - simpl in Hsame. by subst.
  - destruct (proj1 Hnone2 eq_refl) as [_ Hbad]. discriminate Hbad.
  - destruct (proj1 Hnone eq_refl) as [Hnil _].
    rewrite Hnil in Hperm. apply Permutation_nil_r in Hperm.
    discriminate (proj2 Hnone2 (conj Hperm eq_refl)).
  - done.
Qed.

Lemma Install_idempotent_witness :
  ∃ fs1 logs1 fs2 logs2,
    Cri.Install Cri.removeFails twoForOne false Cri.sampleStore
      = (fs1, logs1, None) ∧
    Cri.Install Cri.noFaults twoForOne false fs1 = (fs2, logs2, None) ∧
    ∀ s, s ∈ staleDirs (Cri.Registries twoForOne) fs1 →
         Cri.entriesOf fs2 !! s = None.
Proof.
  destruct (Install_runs Cri.removeFails twoForOne Cri.sampleStore eq_refl
              twoForOne_renderable) as (fs1 & logs1 & Hrun).
  destruct (Install_idempotent Cri.removeFails Cri.noFaults twoForOne
              twoForOne Cri.sampleStore fs1 logs1 Hrun eq_refl
              (reflexivity _) (or_introl eq_refl) eq_refl)
    as (fs2 & logs2 & Hagain & Hlook & _).
  - intros kr _. by split_and!.
  - exists fs1, logs1, fs2, logs2. split; [done|]. split; [done|].
    intros s Hs. rewrite Hlook. by rewrite decide_True.
Defined.

(** X25: a failing [Install] removes nothing.  When [Install] returns an
    error it was no dry run, and the error is that of reading the
    configuration directory, which is then left untouched, or that of
    rendering a registry.  In both cases every entry of the directory is
    still there, stale host directories included, plain files are
    unchanged, entries that are not the server of a registry are as they
    were, and nothing is logged: the main configuration is not rendered
    and the service not restarted. *)
Theorem Install_failure_keeps (F : Cri.Faults)
  (c : Cri.ContainerdRegistryConfigure) (dryRun : bool) (fs fs' : Cri.store)
  (logs : list Cri.logEntry) (e : Cri.error) :
  Cri.Install F c dryRun fs = (fs', logs, Some e) →
  dryRun = false ∧ logs = [] ∧
  (∀ name, is_Some (Cri.entriesOf fs !! name) →
           is_Some (Cri.entriesOf fs' !! name)) ∧
  (∀ name raw, Cri.entriesOf fs !! name = Some (Cri.File raw) →
               Cri.entriesOf fs' !! name = Some (Cri.File raw)) ∧
  (∀ name, name ∉ Cri.servers (Cri.Registries c) →
           Cri.entriesOf fs' !! name = Cri.entriesOf fs !! name) ∧
  match e with
  | Cri.ErrReadDir dir _ => dir = Cri.ConfigDir c ∧ fs' = fs
  | Cri.ErrRender dir _ => dir = Cri.ConfigDir c
  end.
Proof.
  unfold Cri.Install. destruct dryRun; [done|].
  destruct (Cri.readDirFault F) as [msg|].
  { intros [= <- <- <-]. by split_and!. }
  destruct (renderLoop_renderEach F (Cri.ConfigDir c) (Cri.Registries c)
              (Cri.entriesOf fs) (Cri.dirNames (Cri.entriesOf fs)))
    as (H1 & H2 & _).
  pose proof (renderEach_keeps F (Cri.ConfigDir c) (Cri.Registries c)
                (Cri.entriesOf fs)) as Hkeep.
  pose proof (renderEach_frame F (Cri.ConfigDir c) (Cri.Registries c)
                (Cri.entriesOf fs)) as Hframe.
  destruct (Containerd.renderEach F (Cri.ConfigDir c) (Cri.Registries c)
              (Cri.entriesOf fs)) as [entries1 o1].
  destruct (Cri.renderLoop F _ _ _ _) as [[entries' old'] [err|]].
  - cbn [fst snd] in *. subst entries1 o1. intros [= <- <- <-].
    split; [done|]. split; [done|]. cbn [Cri.entriesOf default].
    change (default ∅ (Some entries')) with entries'. split_and!.
    + intros name. by apply (Hkeep _ _ eq_refl name).
    + intros name. by apply (Hkeep _ _ eq_refl name).
    + intros name Hn. apply (Hframe _ _ eq_refl).
      intros kc Hin Heq. apply Hn, elem_of_servers. by exists kc.
    + done.
  - destruct (Cri.clearLoop F entries' (elements old')). done.
Qed.

Lemma Install_failure_keeps_witness :
  is_Some (Cri.entriesOf
             (Cri.Install mkdirFails Cri.sampleConfigure false
                Cri.sampleStore).1.1 !! "a").
Proof.
  destruct (Install_failure_keeps mkdirFails Cri.sampleConfigure false
              Cri.sampleStore
              (Cri.Install mkdirFails Cri.sampleConfigure false
                 Cri.sampleStore).1.1 []
              (Cri.ErrRender "/etc/containerd/certs.d"
                 (Cri.ErrMkdir "/etc/containerd/certs.d/b")))
    as (_ & _ & Hkeep & _).
  - unfold Cri.Install. cbn [Cri.readDirFault mkdirFails].
    change (Cri.entriesOf Cri.sampleStore)
      with (<["a" := Cri.Dir ∅]>
              (<["b" := Cri.Dir ∅]> (∅ : gmap string Cri.dirent))).
    unfold Cri.sampleConfigure.
    cbn [Cri.Registries Cri.ConfigDir Cri.renderLoop].
    unfold Cri.renderConfigs at 1 2. cbn [Cri.sampleRegistry Cri.Server].
    rewrite lookup_insert_ne by done. rewrite lookup_insert_eq.
    reflexivity.
  - apply Hkeep.
    change (Cri.entriesOf Cri.sampleStore)
      with (<["a" := Cri.Dir ∅]>
              (<["b" := Cri.Dir ∅]> (∅ : gmap string Cri.dirent))).
    by rewrite lookup_insert_eq.
Defined.

(** ** The merge does not depend on the order of the items *)

Lemma sortedBy_key_inj {A} (key : A → string) l x y :
  sortedBy key l → x ∈ l → y ∈ l → key x = key y → x = y.
Proof.
  intros Hs [i Hi]%list_elem_of_lookup [j Hj]%list_elem_of_lookup Hkey.
  destruct (lt_eq_lt_dec i j) as [[Hlt| ->]|Hgt].
  - pose proof (sortedBy_lookup key l i j x y Hs Hlt Hi Hj) as Hk.
    rewrite Hkey in Hk. by apply keyLt_irrefl in Hk.
  - congruence.
  - pose proof (sortedBy_lookup key l j i y x Hs Hgt Hj Hi) as Hk.
    rewrite Hkey in Hk. by apply keyLt_irrefl in Hk.
Qed.

Lemma sortedBy_ext {A} (key : A → string) (l1 : list A) : ∀ l2,
  sortedBy key l1 → sortedBy key l2 → (∀ x, x ∈ l1 ↔ x ∈ l2) → l1 = l2.
Proof.
  induction l1 as [|a l1 IH]; intros [|b l2] Hs1 Hs2 Hext.
  - done.
  - exfalso. apply (elem_of_nil b). apply Hext. by left.
  - exfalso. apply (elem_of_nil a). apply Hext. by left.
  - apply StronglySorted_inv in Hs1 as [Hs1 Ha].
    apply StronglySorted_inv in Hs2 as [Hs2 Hb].
    rewrite Forall_forall in Ha, Hb.
    assert (a = b) as ->.
    { assert (Hab : a ∈ b :: l2) by (apply Hext; by left).
      assert (Hba : b ∈ a :: l1) by (apply Hext; by left).
      apply elem_of_cons in Hab as [?|Hin]; [done|].
      apply elem_of_cons in Hba as [?|Hin']; [done|].
      exfalso. exact (keyLt_asym _ _ (Ha _ Hin') (Hb _ Hin)). }
    f_equal. apply IH; [done|done|]. intros x. split; intros Hx.
    + assert (Hin : x ∈ b :: l2) by (apply Hext; by right).
      apply elem_of_cons in Hin as [->|Hin]; [|done].
      exfalso. exact (keyLt_irrefl _ (Ha _ Hx)).
    + assert (Hin : x ∈ b :: l1) by (apply Hext; by right).
      apply elem_of_cons in Hin as [->|Hin]; [|done].
      exfalso. exact (keyLt_irrefl _ (Hb _ Hx)).
Qed.

Lemma NoDup_fmap_inj {A B} (f : A → B) (l : list A) x y :
  NoDup (f <$> l) → x ∈ l → y ∈ l → f x = f y → x = y.
Proof.
  induction l as [|a l IH]; [by intros _ ?%elem_of_nil|].
  rewrite fmap_cons. intros [Hnotin Hnd]%NoDup_cons Hx Hy Heq.
  apply elem_of_cons in Hx as [->|Hx]; apply elem_of_cons in Hy as [->|Hy].
  - done.
  - exfalso. apply Hnotin. rewrite Heq. by apply list_elem_of_fmap_2.
  - exfalso. apply Hnotin. rewrite <- Heq. by apply list_elem_of_fmap_2.
  - by apply IH.
Qed.

Lemma appendUniqueRegistry_elem s items r :
  sortedBy regKey s → NoDup (regKey <$> items) →
  r ∈ appendUniqueRegistry s items ↔
  r ∈ s ∨ (r ∈ items ∧ ∀ y, y ∈ s → regKey y ≠ regKey r).
Proof.
  intros Hs Hnd.
  pose proof (appendUniqueRegistry_sortedBy items s Hs) as Hsorted.
  split.
  - intros Hr. destruct (decide (r ∈ s)) as [|Hnot]; [by left|]. right.
    destruct (appendUniqueRegistry_from items s r Hr) as [Hin|Hin]; [|done].
    split; [done|]. intros y Hy Hkey. apply Hnot.
    assert (y = r) as <-; [|done].
    apply (sortedBy_key_inj regKey _ y r Hsorted); [|done|done].
    by apply appendUniqueRegistry_mono.
  - intros [Hin|[Hin Hfresh]]; [by apply appendUniqueRegistry_mono|].
    destruct (appendUniqueRegistry_present items s r Hs Hin) as (y & Hy & Hkey).
    destruct (appendUniqueRegistry_from items s y Hy) as [Hy'|Hy'].
    + by rewrite <- (NoDup_fmap_inj regKey items y r Hnd Hy' Hin Hkey).
    + by destruct (Hfresh y Hy').
Qed.

(** X26: the merge does not depend on the order of the items.  Starting
    from a list without duplicate keys in ascending key order,
    [appendUniqueRegistry] returns the same list for the items in any
    order, provided no two of the items have the same key. *)
Theorem appendUniqueRegistry_order_insensitive
  (s items items' : list RegistrySpec) :
  NoDupKeys s → AscendingKeys s →
  items ≡ₚ items' → NoDup (regKey <$> items) →
  appendUniqueRegistry s items = appendUniqueRegistry s items'.
Proof.
  intros Hnd Hasc Hperm Hkeys.
  assert (Hs : sortedBy regKey s) by by apply sortedBy_keys.
  assert (Hkeys' : NoDup (regKey <$> items')) by by rewrite <- Hperm.
  apply (sortedBy_ext regKey);
    [by apply appendUniqueRegistry_sortedBy..|].
  intros r. rewrite !appendUniqueRegistry_elem by done.
  by setoid_rewrite Hperm.
Qed.

Lemma appendUniqueRegistry_order_insensitive_witness :
  appendUniqueRegistry [httpSpec "m"] [httpSpec "z"; httpSpec "a"]
  = appendUniqueRegistry [httpSpec "m"] [httpSpec "a"; httpSpec "z"].
Proof.
  apply appendUniqueRegistry_order_insensitive.
  - intros [|[|i]] [|[|j]] x y Hij Hx Hy; try done.
  - intros [|[|i]] [|[|j]] x y Hij Hx Hy; simpl in Hx, Hy; simplify_eq; done.
  - apply Permutation_swap.
  - cbn. repeat constructor; set_solver.
Defined.

(** ** Re-running [getClusterCRIRegistries] *)

Section Reconcile.
Variable h : handler.

Lemma registryLoop_fold mid : ∀ orig pre post st,
  orig = pre ++ mid ++ post → loopInv h orig pre st →
  Forall (fun reg => isBroken (classify h reg) = false) mid →
  ∃ st', registryLoop h st (seq (length pre) (length mid)) = (st', None) ∧
         loopInv h orig (pre ++ mid) st' ∧
         merged st' = foldl (mergeEntry h) (merged st) mid.
Proof.
  induction mid as [|reg mid IH]; intros orig pre post st Ho Hinv Hok.
  - exists st. split; [done|]. by rewrite app_nil_r.
  - apply Forall_cons in Hok as [Hreg Hok]. simpl.
    destruct (loopInv_step h orig pre reg (mid ++ post) st Ho Hinv Hreg)
      as (st1 & Hstep & Hinv1).
    assert (Hm : merged st1 = mergeEntry h (merged st) reg).
    { pose proof (loopInv_read h _ _ _ _ _ Ho Hinv) as Hread.
      pose proof (registryStep_cases h st (length pre) reg Hread) as Hc.
      unfold mergeEntry.
      destruct (classify h reg); rewrite Hc in Hstep; by simplify_eq. }
    rewrite Hstep.
    destruct (IH orig (pre ++ [reg]) post st1) as (st' & Hloop & Hinv' & Hm').
    { by rewrite <- app_assoc. }
    { done. }
    { done. }
    rewrite length_app in Hloop. simpl in Hloop.
    replace (length pre + 1) with (S (length pre)) in Hloop by lia.
    exists st'. split; [done|]. rewrite <- app_assoc in Hinv'.
    split; [done|]. by rewrite Hm', Hm.
Qed.

(** The outcome of a reconciliation in which no lookup fails. *)
Lemma getClusterCRIRegistries_run c :
  Forall (fun reg => isBroken (classify h reg) = false) (CRRegistries c) →
  getClusterCRIRegistries h c
  = (setCRRegistries c (validEntries h (CRRegistries c)),
     inl (foldl (mergeEntry h) (insecureSpecs (insecureHosts h c))
            (CRRegistries c))).
Proof.
  intros Hok.
  destruct (registryLoop_fold (CRRegistries c) (CRRegistries c) [] []
              _ ltac:(by rewrite app_nil_r) (loopInv_start h c) Hok)
    as (st & Hloop & [Hb Hv Hs Hr] & Hm).
  simpl in Hloop, Hb, Hv, Hm.
  unfold getClusterCRIRegistries. rewrite Hloop, Hb, Hv, Hm.
  by rewrite take_app_length.
Qed.

Lemma validEntry_fixed reg reg' :
  validEntry h reg = Some reg' →
  validEntry h reg' = Some reg' ∧
  isBroken (classify h reg') = false ∧
  ∀ m, mergeEntry h m reg' = mergeEntry h m reg.
Proof.
  unfold validEntry, mergeEntry.
  destruct (classify h reg) as [|spec| |ref e] eqn:Hk; try done.
  - intros [= <-]. by split_and!.
  - intros [= <-]. rewrite Hk. by split_and!.
Qed.

Lemma validEntries_fixed l :
  validEntries h (validEntries h l) = validEntries h l ∧
  Forall (fun reg => isBroken (classify h reg) = false) (validEntries h l) ∧
  ∀ m, foldl (mergeEntry h) m (validEntries h l) = foldl (mergeEntry h) m l.
Proof.
  unfold validEntries. induction l as [|reg l (IH1 & IH2 & IH3)]; [done|].
  csimpl. destruct (validEntry h reg) as [reg'|] eqn:Hv.
  - destruct (validEntry_fixed reg reg' Hv) as (Hfix & Hnb & Hmerge).
    csimpl. rewrite Hfix, IH1. split; [done|]. split; [by constructor|].
    intros m. by rewrite Hmerge, IH3.
  - split; [done|]. split; [done|]. intros m. rewrite IH3.
    unfold validEntry in Hv. unfold mergeEntry.
    by destruct (classify h reg).
Qed.

(** X27: the reconciliation is idempotent.  When no registry lookup
    fails with an error other than not-found, running
    [getClusterCRIRegistries] again on the cluster the first run left
    (its explicit list rid of the stale references) returns the same
    registries and leaves the cluster as it is. *)
Theorem getClusterCRIRegistries_idempotent (c : Cluster) :
  Forall (fun reg => isBroken (classify h reg) = false) (CRRegistries c) →
  getClusterCRIRegistries h (getClusterCRIRegistries h c).1
  = getClusterCRIRegistries h c.
Proof.
  intros Hok. rewrite (getClusterCRIRegistries_run c Hok). cbn [fst].
  destruct (validEntries_fixed (CRRegistries c)) as (Hfix & Hnb & Hfold).
  rewrite getClusterCRIRegistries_run by done.
  cbn [CRRegistries setCRRegistries]. rewrite Hfix, Hfold. done.
Qed.

End Reconcile.

Lemma getClusterCRIRegistries_idempotent_witness :
  getClusterCRIRegistries sampleHandler
    (getClusterCRIRegistries sampleHandler sampleCluster).1
  = getClusterCRIRegistries sampleHandler sampleCluster.
Proof.
  apply getClusterCRIRegistries_idempotent. repeat constructor.
Defined.

(** ** What a failing [renderConfigs] leaves behind *)

Lemma writeHosts_toml F server hostDir hosts : ∀ files cfgs,
  (Cri.writeHosts F server hostDir hosts files cfgs).1 !! "hosts.toml"
  = files !! "hosts.toml".
Proof.
  induction hosts as [|host hosts IH]; intros files cfgs; [done|].
  cbn [Cri.writeHosts].
  destruct (0 <? String.length (Cri.HostCA host)); [|apply IH].
  destruct (Cri.writeFault F server (Cri.HostName host)); [done|].
  rewrite IH. apply lookup_insert_ne. apply pemName_not_toml.
Qed.

Lemma writeHosts_error_kind F server hostDir hosts : ∀ files cfgs files1 e1,
  Cri.writeHosts F server hostDir hosts files cfgs = (files1, inr e1) →
  ∃ file, e1 = Cri.ErrWriteCA file.
Proof.
  induction hosts as [|host hosts IH]; intros files cfgs files1 e1; [done|].
  cbn [Cri.writeHosts].
  destruct (0 <? String.length (Cri.HostCA host)); [|apply IH].
  destruct (Cri.writeFault F server (Cri.HostName host)); [|apply IH].
  intros [= <- <-]. by eexists.
Qed.

(** X28: what a failing [renderConfigs] leaves behind.  When the host
    directory cannot be made nothing is changed.  When a CA file cannot
    be written or [hosts.toml] cannot be created, the host directory
    exists and its [hosts.toml] is the one it had before, or still
    missing, although CA files may already have been written.  When the
    encoding fails, [hosts.toml] is left truncated.  In every case the
    other entries of the configuration directory are untouched. *)
Theorem renderConfigs_failure (F : Cri.Faults) (r : Cri.ContainerdRegistry)
  (dir : string) (entries entries' : gmap string Cri.dirent)
  (e : Cri.renderError) :
  Cri.renderConfigs F r dir entries = (entries', Some e) →
  (∀ name, name ≠ Cri.Server r → entries' !! name = entries !! name) ∧
  match e with
  | Cri.ErrMkdir _ => entries' = entries
  | Cri.ErrWriteCA _ | Cri.ErrCreate _ =>
      ∃ files, entries' !! Cri.Server r = Some (Cri.Dir files) ∧
               files !! "hosts.toml"
               = filesAt entries (Cri.Server r) !! "hosts.toml"
  | Cri.ErrEncode _ =>
      ∃ files, entries' !! Cri.Server r = Some (Cri.Dir files) ∧
               files !! "hosts.toml" = Some Cri.Truncated
  end.
Proof.
  intros Hrun. split; [by apply (renderConfigs_frame F _ _ _ _ _ Hrun)|].
  revert Hrun. unfold Cri.renderConfigs, filesAt.
  set (hostDir := Cri.pathJoin dir (Cri.Server r)).
  assert (Hgo : ∀ files0,
    (if Cri.mkdirFault F (Cri.Server r)
     then (entries, Some (Cri.ErrMkdir hostDir))
     else
       match Cri.writeHosts F (Cri.Server r) hostDir (Cri.Hosts r) files0 ∅ with
       | (files1, inr e) => (<[Cri.Server r := Cri.Dir files1]> entries, Some e)
       | (files1, inl cfgs) =>
           if Cri.createFault F (Cri.Server r)
           then (<[Cri.Server r := Cri.Dir files1]> entries,
                 Some (Cri.ErrCreate (Cri.pathJoin hostDir "hosts.toml")))
           else if Cri.encodeFault F (Cri.Server r)
           then (<[Cri.Server r :=
                     Cri.Dir (<["hosts.toml" := Cri.Truncated]> files1)]>
                   entries,
                 Some (Cri.ErrEncode (Cri.pathJoin hostDir "hosts.toml")))
           else (<[Cri.Server r :=
                     Cri.Dir (<["hosts.toml" :=
                                Cri.HostsToml {| Cri.HFServer := Cri.Server r;
                                                 Cri.HostConfigs := cfgs |}]>
                                files1)]> entries, None)
       end) = (entries', Some e) →
    match e with
    | Cri.ErrMkdir _ => entries' = entries
    | Cri.ErrWriteCA _ | Cri.ErrCreate _ =>
        ∃ files, entries' !! Cri.Server r = Some (Cri.Dir files) ∧
                 files !! "hosts.toml" = files0 !! "hosts.toml"
    | Cri.ErrEncode _ =>
        ∃ files, entries' !! Cri.Server r = Some (Cri.Dir files) ∧
                 files !! "hosts.toml" = Some Cri.Truncated
    end).
  { intros files0.
    destruct (Cri.mkdirFault F (Cri.Server r)); [by intros [= <- <-]|].
    pose proof (writeHosts_toml F (Cri.Server r) hostDir (Cri.Hosts r)
                  files0 ∅) as Htoml.
    pose proof (writeHosts_error_kind F (Cri.Server r) hostDir (Cri.Hosts r)
                  files0 ∅) as Hkind.
    destruct (Cri.writeHosts F _ hostDir (Cri.Hosts r) files0 ∅)
      as [files1 [cfgs|e1]].
    - cbn [fst] in Htoml.
      destruct (Cri.createFault F (Cri.Server r)).
      + intros [= <- <-]. exists files1. by rewrite lookup_insert_eq.
      + destruct (Cri.encodeFault F (Cri.Server r)); [|done].
        intros [= <- <-]. eexists. rewrite lookup_insert_eq.
        split; [done|]. by rewrite lookup_insert_eq.
    - cbn [fst] in Htoml. destruct (Hkind files1 e1 eq_refl) as [file ->].
      intros [= <- <-]. exists files1. by rewrite lookup_insert_eq. }
  destruct (entries !! Cri.Server r) as [[raw|old]|].
  - by intros [= <- <-].
  - apply Hgo.
  - apply Hgo.
Qed.

Lemma renderConfigs_failure_witness :
  ∃ files,
    (Cri.renderConfigs encodeFails Containerd.caRegistry "/certs.d" ∅).1
      !! "reg.local" = Some (Cri.Dir files) ∧
    files !! "hosts.toml" = Some Cri.Truncated.
Proof.
  assert (Hrun :
    Cri.renderConfigs encodeFails Containerd.caRegistry "/certs.d" ∅
    = ((Cri.renderConfigs encodeFails Containerd.caRegistry "/certs.d" ∅).1,
       Some (Cri.ErrEncode "/certs.d/reg.local/hosts.toml"))).
  { unfold Cri.renderConfigs. rewrite lookup_empty. reflexivity. }
  by destruct (renderConfigs_failure encodeFails Containerd.caRegistry
                 "/certs.d" ∅ _ _ Hrun) as [_ Hfiles].
Defined.

(** ** The extracted join commands are single lines *)

Lemma sanitizeCommand_no_control input :
  allChars (fun c => negb (Go.inRange 9 13 c)) (K8s.sanitizeCommand input)
  = true.
Proof.
  unfold K8s.sanitizeCommand, Go.stringsJoinSep.
  apply allChars_concat; [done|].
  eapply Forall_impl; [apply stringsFields_words|]. intros f [_ Hf]. simpl.
  revert Hf. apply allChars_impl. intros c. unfold isAsciiSpace.
  intros H%negb_true_iff%orb_false_iff. by rewrite (proj1 H).
Qed.

Lemma occursAt_allChars p re s pre m :
  occursAt re s pre m → allChars p s = true → allChars p m = true.
Proof.
  intros [[post ->] _]. rewrite !allChars_app.
  intros [_ [H _]%andb_true_iff]%andb_true_iff. done.
Qed.

(** X29: the commands [extractJoinCommands] returns are single lines:
    whatever line breaks, continuation backslashes before line breaks,
    tabs and runs of blanks the output has, neither the master nor the
    worker command contains a line feed, carriage return, tab, vertical
    tab or form feed. *)
Theorem extractJoinCommands_single_line (output : string) :
  allChars (fun c => negb (Go.inRange 9 13 c))
    (K8s.extractJoinCommands output).1 = true ∧
  allChars (fun c => negb (Go.inRange 9 13 c))
    (K8s.extractJoinCommands output).2 = true.
Proof.
  unfold K8s.extractJoinCommands. cbn [fst snd].
  pose proof (sanitizeCommand_no_control output) as Hclean.
  set (cleaned := K8s.sanitizeCommand output) in *.
  split.
  - change (Go.FindAllString K8s.masterPattern cleaned)
      with (Go.findAllFrom K8s.masterPattern cleaned 0).
    destruct (Go.findAllFrom K8s.masterPattern cleaned 0) as [|m l] eqn:Hf;
      [done|].
    destruct (findAllFrom_head _ _ _ _ Hf) as (pre & Hocc & _).
    by apply (occursAt_allChars _ _ _ _ _ Hocc).
  - destruct (decide (K8s.firstWorker
                        (Go.FindAllString K8s.workerPattern cleaned) = ""))
      as [->|Hne]; [done|].
    destruct (firstWorker_elem _ Hne) as [Hin _].
    destruct (findAllFrom_sound _ _ _ _ Hin) as [pre Hocc].
    by apply (occursAt_allChars _ _ _ _ _ Hocc).
Qed.
